(** * CircuitSimulator: a shallow embedding of [simulate.cpp]

    The development follows the source files:
    - [operations.h]: [OpType], [ExprNode];
    - [wire.h]: [Wire];
    - [simulate.cpp]: [EvalContext], [wire_value], [truthy], [eval_node],
      [gather_from_expr], [closure_from_targets], [simulate].

    Wires live at addresses ([positive]); a [const Wire*] is an optional
    address, a [std::shared_ptr<ExprNode>] is either empty or a node.  The
    recursion of [eval_node] through [wire_value] is not structural, so the
    evaluator carries a fuel that bounds the nesting of combinational
    definitions; running out of it stands for the unbounded recursion of the
    C++ code. *)

From Stdlib Require Import ZArith Lia String Ascii Sorted.
From stdpp Require Import base option list gmap strings fin_maps fin_sets.

Local Open Scope Z_scope.

(** ** [long long]: 64-bit two's complement *)

Module Int64.
Definition modulus : Z := 2 ^ 64.
Definition min_signed : Z := - 2 ^ 63.
Definition max_signed : Z := 2 ^ 63 - 1.

Definition in_range (z : Z) : Prop := min_signed <= z <= max_signed.

(** The value a 64-bit register holds after an operation whose exact
    result is [z]. *)
Definition wrap (z : Z) : Z := (z + 2 ^ 63) mod 2 ^ 64 - 2 ^ 63.
End Int64.

(** ** operations.h *)

Module OpType.
Inductive t : Set :=
| Constant | WireRef
| Add | Sub | Mul | Div | Mod
| BitAnd | BitOr | BitXor | BitNot
| Neg | Shl | Shr
| LogAnd | LogOr | LogNot
| Eq | Ne | Lt | Le | Gt | Ge
| Select.
End OpType.

(** [const Wire*]: [None] is [nullptr]. *)
Abbreviation Wire_ptr := (option positive).

(** [std::shared_ptr<ExprNode>]: [null] is the empty pointer, [node] owns an
    [ExprNode] with all six fields of the struct.  Nodes are immutable, so
    sharing is not observable and the graph is a tree of values. *)
Inductive ExprNode_ptr : Type :=
| null
| node (op : OpType.t) (constant_value : Z) (wire : Wire_ptr)
       (a b c : ExprNode_ptr).

Definition is_null (n : ExprNode_ptr) : bool :=
  match n with null => true | node _ _ _ _ _ _ => false end.

(** [Expr(long long v)] *)
Definition Expr_const (v : Z) : ExprNode_ptr :=
  node OpType.Constant v None null null null.

(** [Expr::wireRef] *)
Definition wireRef (w : Wire_ptr) : ExprNode_ptr :=
  node OpType.WireRef 0 w null null null.

Definition make_unary (op : OpType.t) (x : ExprNode_ptr) : ExprNode_ptr :=
  node op 0 None x null null.

Definition make_binary (op : OpType.t) (x y : ExprNode_ptr) : ExprNode_ptr :=
  node op 0 None x y null.

Definition make_select (cond t e : ExprNode_ptr) : ExprNode_ptr :=
  node OpType.Select 0 None cond t e.

(** ** wire.h *)

Record Wire : Type := mkWire {
  name : string;
  committed_value : Z;
  comb_expr : ExprNode_ptr;   (* instantaneous (combinational) definition *)
  next_expr : ExprNode_ptr    (* next-cycle (registered) definition *)
}.

(** The wire objects of the program, by address. *)
Abbreviation Heap := (gmap positive Wire).

Definition set_committed (v : Z) (W : Wire) : Wire :=
  {| name := name W; committed_value := v;
     comb_expr := comb_expr W; next_expr := next_expr W |}.

(** ** Results of a run *)

Inductive error : Set :=
| Diverges   (* the fuel ran out: unbounded recursion *)
| Segfault   (* a null or dangling pointer was dereferenced *)
| Trap.      (* a division overflowed: the hardware division faults *)

Inductive outcome (A : Type) : Type :=
| Ok (x : A)
| Err (e : error).
Arguments Ok {A} x.
Arguments Err {A} e.

Definition bind {A B : Type} (m : outcome A) (k : A → outcome B) : outcome B :=
  match m with
  | Ok x => k x
  | Err e => Err e
  end.

Notation "'let*' x := m 'in' k" := (bind m (λ x, k))
  (at level 10, x name, m at level 100, k at level 200).
Notation "'let*' ' p := m 'in' k" := (bind m (λ x, match x with p => k end))
  (at level 10, p pattern, m at level 100, k at level 200).

(** [w->field] for a non-null [w]. *)
Definition deref (heap : Heap) (p : positive) : outcome Wire :=
  match heap !! p with
  | Some W => Ok W
  | None => Err Segfault
  end.

(** ** simulate.cpp: the evaluation engine *)

Definition truthy (v : Z) : Z := if decide (v ≠ 0) then 1 else 0.

(** The shapes of the cases of [eval_node].  [S] is the type of the context
    the evaluator threads through; [eval_node] itself never looks at it. *)
Section eval_cases.
Context {S : Type}.
Abbreviation ev := (S → outcome (Z * S)).

(** [op eval_node(n->a, ctx)] *)
Definition eval_unary (f : Z → Z) (ea : ev) : ev := λ ctx,
  let* '(x, ctx) := ea ctx in Ok (f x, ctx).

(** [eval_node(n->a, ctx) op eval_node(n->b, ctx)], left operand first. *)
Definition eval_binary (f : Z → Z → Z) (ea eb : ev) : ev := λ ctx,
  let* '(x, ctx) := ea ctx in let* '(y, ctx) := eb ctx in Ok (f x y, ctx).

(** [long long d = eval_node(n->b, ctx);
     return d == 0 ? 0 : (eval_node(n->a, ctx) op d);]
    Only a zero divisor is guarded.  The quotient of the least 64-bit value
    by -1 is not representable: C++ leaves [/] and [%] undefined there, and
    the division instruction faults (the process is killed by SIGFPE). *)
Definition eval_divmod (f : Z → Z → Z) (ea eb : ev) : ev := λ ctx,
  let* '(d, ctx) := eb ctx in
  if decide (d = 0) then Ok (0, ctx)
  else
    let* '(x, ctx) := ea ctx in
    if decide (x = Int64.min_signed ∧ d = -1) then Err Trap
    else Ok (f x d, ctx).

(** [truthy(eval_node(n->a, ctx)) && truthy(eval_node(n->b, ctx))]:
    the built-in [&&] does not evaluate its right operand when the left
    one is false. *)
Definition eval_logand (ea eb : ev) : ev := λ ctx,
  let* '(x, ctx) := ea ctx in
  if decide (truthy x ≠ 0)
  then let* '(y, ctx) := eb ctx in Ok (Z.b2z (bool_decide (truthy y ≠ 0)), ctx)
  else Ok (0, ctx).

(** [truthy(...) || truthy(...)], short-circuit as well. *)
Definition eval_logor (ea eb : ev) : ev := λ ctx,
  let* '(x, ctx) := ea ctx in
  if decide (truthy x ≠ 0)
  then Ok (1, ctx)
  else let* '(y, ctx) := eb ctx in Ok (Z.b2z (bool_decide (truthy y ≠ 0)), ctx).

(** [truthy(eval_node(n->a, ctx)) ? eval_node(n->b, ctx)
                                  : eval_node(n->c, ctx)] *)
Definition eval_select (ea eb ec : ev) : ev := λ ctx,
  let* '(x, ctx) := ea ctx in
  if decide (truthy x ≠ 0) then eb ctx else ec ctx.

Context (wire_value_rec : Wire_ptr → ev).

(** [eval_node], open in the function that resolves wire references.
    Arithmetic is that of the machine: results are reduced to 64 bits in
    two's complement ([Int64.wrap]), division truncates towards zero and
    faults when it overflows ([eval_divmod]).  The operands of a binary
    operator are evaluated left to right.  C++ defines a shift for amounts
    from 0 to 63 only; the shift instructions use the low six bits of the
    amount, and so does the model ([Z.land y 63]).  The right shift is
    arithmetic.  The [return 0] after the [switch] is unreachable: [OpType]
    has no other value. *)
Fixpoint eval_node_with (n : ExprNode_ptr) : ev :=
  match n with
  | null => λ _, Err Segfault
  | node op constant_value wire a b c =>
    let A := eval_node_with a in
    let B := eval_node_with b in
    let C := eval_node_with c in
    match op with
    | OpType.Constant => λ ctx, Ok (constant_value, ctx)
    | OpType.WireRef => wire_value_rec wire
    | OpType.Add => eval_binary (λ x y, Int64.wrap (x + y)) A B
    | OpType.Sub => eval_binary (λ x y, Int64.wrap (x - y)) A B
    | OpType.Mul => eval_binary (λ x y, Int64.wrap (x * y)) A B
    | OpType.Div => eval_divmod (λ x d, Int64.wrap (Z.quot x d)) A B
    | OpType.Mod => eval_divmod (λ x d, Int64.wrap (Z.rem x d)) A B
    | OpType.BitAnd => eval_binary Z.land A B
    | OpType.BitOr => eval_binary Z.lor A B
    | OpType.BitXor => eval_binary Z.lxor A B
    | OpType.BitNot => eval_unary Z.lnot A
    | OpType.Neg => eval_unary (λ x, Int64.wrap (- x)) A
    | OpType.Shl =>
        eval_binary (λ x y, Int64.wrap (Z.shiftl x (Z.land y 63))) A B
    | OpType.Shr => eval_binary (λ x y, Z.shiftr x (Z.land y 63)) A B
    | OpType.LogAnd => eval_logand A B
    | OpType.LogOr => eval_logor A B
    | OpType.LogNot =>
        eval_unary (λ x, Z.b2z (negb (bool_decide (truthy x ≠ 0)))) A
    | OpType.Eq => eval_binary (λ x y, Z.b2z (bool_decide (x = y))) A B
    | OpType.Ne => eval_binary (λ x y, Z.b2z (bool_decide (x ≠ y))) A B
    | OpType.Lt => eval_binary (λ x y, Z.b2z (bool_decide (x < y))) A B
    | OpType.Le => eval_binary (λ x y, Z.b2z (bool_decide (x <= y))) A B
    | OpType.Gt => eval_binary (λ x y, Z.b2z (bool_decide (x > y))) A B
    | OpType.Ge => eval_binary (λ x y, Z.b2z (bool_decide (x >= y))) A B
    | OpType.Select => eval_select A B C
    end
  end.
End eval_cases.

(** [struct EvalContext { unordered_map<const Wire*, long long> comb_cache; }] *)
Abbreviation EvalContext := (gmap positive Z).

(** [unordered_map::emplace]: an existing entry is kept. *)
Definition emplace (p : positive) (v : Z) (ctx : EvalContext) : EvalContext :=
  match ctx !! p with
  | Some _ => ctx
  | None => <[p := v]> ctx
  end.

(** [wire_value]; the fuel is spent where the C++ recursion re-enters
    [eval_node] on a combinational definition. *)
Fixpoint wire_value (heap : Heap) (fuel : nat) (w : Wire_ptr)
    (ctx : EvalContext) : outcome (Z * EvalContext) :=
  match w with
  | None => Err Segfault
  | Some p =>
    let* W := deref heap p in
    if is_null (comb_expr W) then Ok (committed_value W, ctx)
    else
      match ctx !! p with
      | Some v => Ok (v, ctx)
      | None =>
        match fuel with
        | O => Err Diverges
        | S fuel' =>
          let* '(v, ctx) :=
            eval_node_with (wire_value heap fuel') (comb_expr W) ctx in
          Ok (v, emplace p v ctx)
        end
      end
  end.

Definition eval_node (heap : Heap) (fuel : nat) (n : ExprNode_ptr)
    (ctx : EvalContext) : outcome (Z * EvalContext) :=
  eval_node_with (wire_value heap fuel) n ctx.

(** The unmemoized evaluator: the same [eval_node], with wire references
    resolved by re-evaluating the combinational definition at every use.
    It is the reference against which the memo cache is compared. *)
Fixpoint naive_wire_value (heap : Heap) (fuel : nat) (w : Wire_ptr)
    (u : unit) : outcome (Z * unit) :=
  match w with
  | None => Err Segfault
  | Some p =>
    let* W := deref heap p in
    if is_null (comb_expr W) then Ok (committed_value W, u)
    else
      match fuel with
      | O => Err Diverges
      | S fuel' => eval_node_with (naive_wire_value heap fuel') (comb_expr W) u
      end
  end.

Definition naive_eval (heap : Heap) (fuel : nat) (n : ExprNode_ptr)
    : outcome Z :=
  let* '(v, _) := eval_node_with (naive_wire_value heap fuel) n tt in Ok v.

(** [wire_value] with a ghost log of the wires whose combinational
    definition was evaluated (one entry per completed evaluation, most
    recent first).  Erasing the log gives [wire_value]. *)
Fixpoint wire_value_traced (heap : Heap) (fuel : nat) (w : Wire_ptr)
    (st : EvalContext * list positive)
    : outcome (Z * (EvalContext * list positive)) :=
  match w with
  | None => Err Segfault
  | Some p =>
    let* W := deref heap p in
    if is_null (comb_expr W) then Ok (committed_value W, st)
    else
      match st.1 !! p with
      | Some v => Ok (v, st)
      | None =>
        match fuel with
        | O => Err Diverges
        | S fuel' =>
          let* '(v, st) :=
            eval_node_with (wire_value_traced heap fuel') (comb_expr W) st in
          Ok (v, (emplace p v st.1, p :: st.2))
        end
      end
  end.

Definition eval_node_traced (heap : Heap) (fuel : nat) (n : ExprNode_ptr)
    (st : EvalContext * list positive)
    : outcome (Z * (EvalContext * list positive)) :=
  eval_node_with (wire_value_traced heap fuel) n st.

(** ** simulate.cpp: the dependency closure *)

#[global] Instance OpType_eq_dec : EqDecision OpType.t.
Proof. solve_decision. Defined.

(** A monadic left fold: a [for] loop over a vector whose body may fail. *)
Fixpoint foldM {A B : Type} (f : B → A → outcome B) (l : list A) (acc : B)
    : outcome B :=
  match l with
  | [] => Ok acc
  | x :: l => let* acc := f acc x in foldM f l acc
  end.

Section gather.
(** What [gather_from_expr] does with a wire it has just inserted. *)
Context (enter : positive → gset positive → outcome (gset positive)).

Fixpoint gather_with (n : ExprNode_ptr) (wires : gset positive)
    : outcome (gset positive) :=
  match n with
  | null => Ok wires
  | node op _ wire a b c =>
    let children (wires : gset positive) :=
      let* wires := (if is_null a then Ok wires else gather_with a wires) in
      let* wires := (if is_null b then Ok wires else gather_with b wires) in
      if is_null c then Ok wires else gather_with c wires in
    if decide (op = OpType.WireRef) then
      match wire with
      | Some p =>
          if decide (p ∈ wires) then Ok wires
          else enter p ({[p]} ∪ wires)
      | None => children wires
      end
    else children wires
  end.
End gather.

Fixpoint gather_enter (heap : Heap) (fuel : nat) (p : positive)
    (wires : gset positive) : outcome (gset positive) :=
  match fuel with
  | O => Err Diverges
  | S fuel' =>
    let* W := deref heap p in
    let* wires := gather_with (gather_enter heap fuel') (comb_expr W) wires in
    gather_with (gather_enter heap fuel') (next_expr W) wires
  end.

Definition gather_from_expr (heap : Heap) (fuel : nat) (n : ExprNode_ptr)
    (wires : gset positive) : outcome (gset positive) :=
  gather_with (gather_enter heap fuel) n wires.

(** The order in which the hash containers of one call are iterated.  The
    C++ standard leaves it unspecified; every function that iterates one
    takes the order as an argument, constrained only to enumerate the
    container.  In the library the order of a container also depends on the
    sequence of insertions that built it, so one [UnorderedIteration] stands
    for the calls that build their containers by the same insertions;
    statements that compare calls with different targets or different
    traversals give each call an order of its own. *)
Record UnorderedIteration : Type := {
  set_iter : gset positive → list positive;
  set_iter_perm : ∀ s, set_iter s ≡ₚ elements s;
  map_iter : gmap positive Z → list (positive * Z);
  map_iter_perm : ∀ m, map_iter m ≡ₚ map_to_list m
}.

Definition std_iteration : UnorderedIteration :=
  {| set_iter := elements;
     set_iter_perm := λ _, reflexivity _;
     map_iter := map_to_list;
     map_iter_perm := λ _, reflexivity _ |}.

(** Another admissible order: the containers iterated backwards. *)
Definition rev_iteration : UnorderedIteration :=
  {| set_iter := λ s, reverse (elements s);
     set_iter_perm := λ s, reverse_Permutation (elements s);
     map_iter := λ m, reverse (map_to_list m);
     map_iter_perm := λ m, reverse_Permutation (map_to_list m) |}.

(** [for (auto* w : targets) if (w) set.insert(w);] *)
Definition insert_targets (targets : list Wire_ptr) : gset positive :=
  foldl (λ set w, match w with Some p => {[p]} ∪ set | None => set end)
        ∅ targets.

(** The body of the [while] loop: one pass over the snapshot. *)
Definition gather_snapshot (heap : Heap) (fuel : nat)
    (snapshot : list positive) (set : gset positive)
    : outcome (gset positive) :=
  foldM (λ set w,
           let* W := deref heap w in
           let* set := gather_from_expr heap fuel (comb_expr W) set in
           gather_from_expr heap fuel (next_expr W) set)
        snapshot set.

(** [while (prev != set.size())]; [iters] bounds the number of passes. *)
Fixpoint closure_loop (U : UnorderedIteration) (heap : Heap) (fuel : nat)
    (iters : nat) (prev : nat) (set : gset positive)
    : outcome (gset positive) :=
  if decide (prev ≠ size set) then
    match iters with
    | O => Err Diverges
    | S iters' =>
      let* set' := gather_snapshot heap fuel (set_iter U set) set in
      closure_loop U heap fuel iters' (size set) set'
    end
  else Ok set.

(** The set computed by [closure_from_targets], before it is copied out. *)
Definition closure_set (U : UnorderedIteration) (heap : Heap) (fuel : nat)
    (targets : list Wire_ptr) : outcome (gset positive) :=
  closure_loop U heap fuel fuel 0%nat (insert_targets targets).

Definition closure_from_targets (U : UnorderedIteration) (heap : Heap)
    (fuel : nat) (targets : list Wire_ptr) : outcome (list positive) :=
  let* set := closure_set U heap fuel targets in
  Ok (set_iter U set).

(** ** simulate.cpp: the driver *)

(** [std::map<std::string, std::vector<long long>>]: the bindings in the
    order the map iterates them, ascending in [std::string]'s [operator<]
    (bytes compared as unsigned). *)
Abbreviation History := (list (string * list Z)).

(** [f(history[k])]: [operator[]] finds the slot of [k], inserting an empty
    vector at its place in the order when there is none. *)
Fixpoint subscript (f : list Z → list Z) (k : string) (m : History)
    : History :=
  match m with
  | [] => [(k, f [])]
  | (k', x) :: m' =>
    match String.compare k k' with
    | Lt => (k, f []) :: m
    | Eq => (k', f x) :: m'
    | Gt => (k', x) :: subscript f k m'
    end
  end.

(** [std::map::find] *)
Fixpoint find (k : string) (m : History) : option (list Z) :=
  match m with
  | [] => None
  | (k', x) :: m' => if decide (k = k') then Some x else find k m'
  end.

(** [const_cast<Wire*>(kv.first)->committed_value = kv.second;] *)
Definition commit (heap : Heap) (kv : positive * Z) : Heap :=
  alter (set_committed kv.2) kv.1 heap.

Definition commit_all (kvs : list (positive * Z)) (heap : Heap) : Heap :=
  foldl commit heap kvs.

(** [for (const Wire* w : all_wires) saved[w] = w->committed_value;] *)
Definition save_state (heap : Heap) (all_wires : list positive)
    : outcome (gmap positive Z) :=
  foldM (λ saved w,
           let* W := deref heap w in Ok (<[w := committed_value W]> saved))
        all_wires ∅.

(** [for (const Wire* w : all_wires) history[w->name] = {};] *)
Definition init_history (heap : Heap) (all_wires : list positive)
    : outcome History :=
  foldM (λ history w,
           let* W := deref heap w in
           Ok (subscript (λ _, []) (name W) history))
        all_wires [].

(** Lines 107-110: observe every wire of the closure. *)
Definition record_values (heap : Heap) (fuel : nat)
    (all_wires : list positive) (st : EvalContext * History)
    : outcome (EvalContext * History) :=
  foldM (λ '(ctx, history) w,
           let* '(v, ctx) := wire_value heap fuel (Some w) ctx in
           let* W := deref heap w in
           Ok (ctx, subscript (λ h, h ++ [v]) (name W) history))
        all_wires st.

(** Lines 112-118: evaluate the registered roots in the same context. *)
Definition eval_next_values (heap : Heap) (fuel : nat)
    (all_wires : list positive) (st : EvalContext * gmap positive Z)
    : outcome (EvalContext * gmap positive Z) :=
  foldM (λ '(ctx, next_values) w,
           let* W := deref heap w in
           if is_null (next_expr W) then Ok (ctx, next_values)
           else
             let* '(nv, ctx) := eval_node heap fuel (next_expr W) ctx in
             Ok (ctx, <[w := nv]> next_values))
        all_wires st.

(** One iteration of the [for (int t = 0; t < cycles; ++t)] loop. *)
Definition cycle (U : UnorderedIteration) (fuel : nat)
    (all_wires : list positive) (st : Heap * History)
    : outcome (Heap * History) :=
  let '(heap, history) := st in
  let* '(ctx, history) := record_values heap fuel all_wires (∅, history) in
  let* '(_, next_values) := eval_next_values heap fuel all_wires (ctx, ∅) in
  Ok (commit_all (map_iter U next_values) heap, history).

Fixpoint run_cycles (U : UnorderedIteration) (fuel : nat)
    (all_wires : list positive) (cycles : nat) (st : Heap * History)
    : outcome (Heap * History) :=
  match cycles with
  | O => Ok st
  | S cycles' =>
    let* st := cycle U fuel all_wires st in
    run_cycles U fuel all_wires cycles' st
  end.

(** [simulate] from line 96 on, for a given vector [all_wires].  The result
    is the returned map together with the wires as the call leaves them. *)
Definition simulate_wires (U : UnorderedIteration) (heap : Heap) (fuel : nat)
    (all_wires : list positive) (cycles : Z) (restore_state : bool)
    : outcome (History * Heap) :=
  let* saved :=
    (if restore_state then save_state heap all_wires else Ok ∅) in
  let* history := init_history heap all_wires in
  let* '(heap', history) :=
    run_cycles U fuel all_wires (Z.to_nat cycles) (heap, history) in
  Ok (history,
      if restore_state then commit_all (map_iter U saved) heap' else heap').

Definition simulate (U : UnorderedIteration) (heap : Heap) (fuel : nat)
    (targets : list Wire_ptr) (cycles : Z) (restore_state : bool)
    : outcome (History * Heap) :=
  let* all_wires := closure_from_targets U heap fuel targets in
  simulate_wires U heap fuel all_wires cycles restore_state.

(** The overload [simulate(const Wire& target, int cycles, bool)]: the
    target is a reference, hence never null. *)
Definition simulate_single (U : UnorderedIteration) (heap : Heap)
    (fuel : nat) (target : positive) (cycles : Z) (restore_state : bool)
    : outcome (History * Heap) :=
  simulate U heap fuel [Some target] cycles restore_state.

(** ** The circuits of main.cpp and of the README *)

Module Demo.
Definition a : positive := 1%positive.
Definition b : positive := 2%positive.
Definition sum : positive := 3%positive.
Definition acc : positive := 4%positive.
Definition maxab : positive := 5%positive.

Definition ref (p : positive) : ExprNode_ptr := wireRef (Some p).

Definition heap : Heap :=
  <[a := mkWire "a" 0 (Expr_const 1) null]>
  (<[b := mkWire "b" 0 (Expr_const 2) null]>
  (<[sum := mkWire "sum" 0 (make_binary OpType.Add (ref a) (ref b)) null]>
  (<[acc := mkWire "acc" 0 null
             (make_binary OpType.Add (ref acc) (ref sum))]>
  (<[maxab := mkWire "maxab" 0
               (make_select (make_binary OpType.Gt (ref a) (ref b))
                            (ref a) (ref b)) null]> ∅)))).

(** A ranking of the wires of [heap] along its combinational definitions. *)
Definition rank (p : positive) : nat :=
  if decide (p = sum ∨ p = maxab) then 1%nat else 0%nat.

(** Two wires with the same name. *)
Definition twins : Heap :=
  <[1%positive := mkWire "a" 0 null null]>
  (<[2%positive := mkWire "a" 0 null null]> ∅).

(** A wire with both definitions: [s = 5; s << 7]. *)
Definition both : Heap :=
  <[1%positive := mkWire "s" 0 (Expr_const 5) (Expr_const 7)]> ∅.

(** The pitfall of the README: [w = w + 1]. *)
Definition runaway : Heap :=
  <[1%positive := mkWire "w" 0
      (make_binary OpType.Add (wireRef (Some 1%positive)) (Expr_const 1))
      null]> ∅.

(** A wire defined by itself: [loop = loop]. *)
Definition loop : positive := 6%positive.
Definition looping : Heap :=
  <[loop := mkWire "loop" 0 (ref loop) null]> heap.
End Demo.

(** * Vocabulary of the statements *)

(** The wires a definition refers to, as [gather_from_expr] reads them off a
    node: a [WireRef] node with a wire stands for that wire, any other node
    for the references of its children. *)
Fixpoint refs (n : ExprNode_ptr) : gset positive :=
  match n with
  | null => ∅
  | node op _ wire a b c =>
    if decide (op = OpType.WireRef) then
      match wire with
      | Some p => {[p]}
      | None => refs a ∪ refs b ∪ refs c
      end
    else refs a ∪ refs b ∪ refs c
  end.

(** Related evaluators: [e] threads a state of type [S1], [E] a state of
    type [S2] and takes an index (a fuel); whenever [e] returns from a state
    related to one of [E], so does [E] at some larger index, with the same
    value and in related states. *)
Definition ev_mono {S2 : Type} (E : nat → S2 → outcome (Z * S2)) : Prop :=
  ∀ (F F' : nat) s r, (F ≤ F')%nat → E F s = Ok r → E F' s = Ok r.

Definition ev_rel {S1 S2 : Type} (R : nat → S1 → S2 → Prop)
    (e : S1 → outcome (Z * S1)) (E : nat → S2 → outcome (Z * S2)) : Prop :=
  ev_mono E ∧
  ∀ F0 s1 s2 v s1', R F0 s1 s2 → e s1 = Ok (v, s1') →
    ∃ F s2', (F0 ≤ F)%nat ∧ E F s2 = Ok (v, s2') ∧ R F s1' s2'.

(** The wire at [p] has a combinational definition. *)
Definition has_comb (heap : Heap) (p : positive) : Prop :=
  ∃ W, heap !! p = Some W ∧ is_null (comb_expr W) = false.

(** Every entry of the context is a wire with a combinational definition,
    together with the value the unmemoized evaluator gives it with fuel [F]. *)
Definition cache_ok_at (heap : Heap) (F : nat) (ctx : EvalContext) : Prop :=
  ∀ p v, ctx !! p = Some v →
    has_comb heap p ∧ naive_wire_value heap F (Some p) tt = Ok (v, tt).

Definition cache_ok (heap : Heap) (ctx : EvalContext) : Prop :=
  ∃ F, cache_ok_at heap F ctx.

(** The value of a wire, and of an expression, in the committed state
    [heap]: what the unmemoized evaluator returns, given enough fuel. *)
Definition wire_val (heap : Heap) (p : positive) (v : Z) : Prop :=
  ∃ F, naive_wire_value heap F (Some p) tt = Ok (v, tt).

Definition node_val (heap : Heap) (n : ExprNode_ptr) (v : Z) : Prop :=
  ∃ F, naive_eval heap F n = Ok v.

(** The combinational definitions are acyclic: every wire ranks above the
    wires its combinational definition refers to. *)
Definition acyclic (heap : Heap) (rank : positive → nat) : Prop :=
  ∀ p W q, heap !! p = Some W → q ∈ refs (comb_expr W) →
    (rank q < rank p)%nat.

(** A context with its ghost log is in order when no wire was logged twice
    and the logged wires are exactly the cached ones, as in the fresh
    context [(∅, [])] of a cycle. *)
Definition trace_ok (st : EvalContext * list positive) : Prop :=
  NoDup st.2 ∧ ∀ q, q ∈ st.2 ↔ is_Some (st.1 !! q).

(** [trace_ok], and the wires cached since [ctx0] all rank below [k]. *)
Definition trace_inv (rank : positive → nat) (ctx0 : EvalContext) (k : nat)
    (st : EvalContext * list positive) : Prop :=
  trace_ok st ∧
  ∀ q, is_Some (st.1 !! q) → is_Some (ctx0 !! q) ∨ (rank q < k)%nat.

(** The wires the two definitions of a wire refer to. *)
Definition wire_refs (W : Wire) : gset positive :=
  refs (comb_expr W) ∪ refs (next_expr W).

(** [X] is closed under the references of its members. *)
Definition closed (heap : Heap) (X : gset positive) : Prop :=
  ∀ p W, p ∈ X → heap !! p = Some W → wire_refs W ⊆ X.

(** Every wire an expression of the program refers to exists. *)
Definition no_dangling (heap : Heap) : Prop :=
  ∀ p W, heap !! p = Some W → wire_refs W ⊆ dom heap.

(** [D] is a set of existing wires that is closed under references. *)
Definition self_contained (heap : Heap) (D : gset positive) : Prop :=
  ∀ p, p ∈ D → ∃ W, heap !! p = Some W ∧ wire_refs W ⊆ D.

(** What a traversal that started with the set [X] and had to cover the
    references [need] has achieved when it stops with [X']: nothing was
    lost, the references are covered, every wire that was added exists and
    has its own references covered, and nothing was added that a closed set
    above [X] and [need] could miss. *)
Definition gather_post (heap : Heap) (need X X' : gset positive) : Prop :=
  X ⊆ X'
  ∧ need ⊆ X'
  ∧ (∀ q, q ∈ X' → q ∉ X → ∃ W, heap !! q = Some W ∧ wire_refs W ⊆ X')
  ∧ (∀ Y, closed heap Y → X ⊆ Y → need ⊆ Y → X' ⊆ Y).

(** [std::string]'s [operator<], and the order of the keys of a map. *)
Definition key_lt (k k' : string) : Prop := String.compare k k' = Lt.

Definition sorted_keys (m : History) : Prop := StronglySorted key_lt m.*1.

(** The names of the wires of a vector (of those that exist). *)
Definition wire_names (heap : Heap) (l : list positive) : list string :=
  omap (λ p, name <$> heap !! p) l.

(** The clock edge, as the specification states it: [heap'] is [heap] with
    the committed value of every wire of [l] that has a registered
    definition replaced by the value of that definition in [heap], all at
    once; nothing else changes. *)
Definition sync_step (heap : Heap) (l : list positive) (heap' : Heap)
    : Prop :=
  ∀ p,
    match heap !! p with
    | None => heap' !! p = None
    | Some W =>
        ∃ v, heap' !! p = Some (set_committed v W)
             ∧ ((p ∈ l ∧ is_null (next_expr W) = false
                 ∧ node_val heap (next_expr W) v)
                ∨ ((p ∉ l ∨ is_null (next_expr W) = true)
                   ∧ v = committed_value W))
    end.

(** The committed states of the cycles of a run: each one is a clock edge
    after the one before. *)
Definition trajectory (l : list positive) (states : list Heap) : Prop :=
  ∀ i (h h' : Heap),
    states !! i = Some h → states !! S i = Some h' → sync_step h l h'.

(** [heap'] is [heap] up to the committed values of the wires of [l]. *)
Definition committed_frame (l : list positive) (heap heap' : Heap) : Prop :=
  ∀ p,
    match heap !! p with
    | None => heap' !! p = None
    | Some W =>
        ∃ v, heap' !! p = Some (set_committed v W)
             ∧ (p ∉ l → v = committed_value W)
    end.

(** A node has the children its tag requires (a wire reference, its wire),
    and so have they: the contract of the builder in [operations.h]. *)
Fixpoint well_formed (n : ExprNode_ptr) : Prop :=
  match n with
  | null => False
  | node op _ wire a b c =>
    match op with
    | OpType.Constant => True
    | OpType.WireRef => is_Some wire
    | OpType.BitNot | OpType.Neg | OpType.LogNot => well_formed a
    | OpType.Select => well_formed a ∧ well_formed b ∧ well_formed c
    | _ => well_formed a ∧ well_formed b
    end
  end.

(** A node other than a constant, or a constant other than [v]. *)
Definition constant_other_than (v : Z) (n : ExprNode_ptr) : Prop :=
  match n with
  | node OpType.Constant cv _ _ _ _ => cv ≠ v
  | _ => False
  end.

(** No division or modulo node of the expression can overflow, for a reason
    that shows in the node: its divisor is a constant other than -1, or its
    dividend is a constant other than the least 64-bit value. *)
Fixpoint division_safe (n : ExprNode_ptr) : Prop :=
  match n with
  | null => True
  | node op _ _ a b c =>
    match op with
    | OpType.Div | OpType.Mod =>
        constant_other_than (-1) b ∨ constant_other_than Int64.min_signed a
    | _ => True
    end
    ∧ division_safe a ∧ division_safe b ∧ division_safe c
  end.

(** No division of a definition of the circuit can overflow. *)
Definition no_division_overflow (heap : Heap) : Prop :=
  ∀ p W, heap !! p = Some W →
    division_safe (comb_expr W) ∧ division_safe (next_expr W).

(** A circuit the caller may simulate with fuel [fuel]: its definitions are
    well formed and refer to existing wires only, and its combinational
    definitions are acyclic, with ranks below [fuel]. *)
Record circuit_ok (heap : Heap) (rank : positive → nat) (fuel : nat)
    : Prop := {
  ok_acyclic : acyclic heap rank;
  ok_no_dangling : no_dangling heap;
  ok_rank : ∀ p, p ∈ dom heap → (rank p < fuel)%nat;
  ok_comb : ∀ p W, heap !! p = Some W →
            is_null (comb_expr W) = false → well_formed (comb_expr W);
  ok_next : ∀ p W, heap !! p = Some W →
            is_null (next_expr W) = false → well_formed (next_expr W)
}.

(** An evaluator that returns from every context. *)
Definition returns {S : Type} (e : S → outcome (Z * S)) : Prop :=
  ∀ s, ∃ r, e s = Ok r.

(** [heap'] is [heap] up to the committed values of the wires of [l] that
    have a registered definition. *)
Definition registered_frame (l : list positive) (heap heap' : Heap) : Prop :=
  ∀ p,
    match heap !! p with
    | None => heap' !! p = None
    | Some W =>
        ∃ v, heap' !! p = Some (set_committed v W)
             ∧ (p ∉ l ∨ is_null (next_expr W) = true →
                v = committed_value W)
    end.

(** The number of wires of [l] named [k]. *)
Definition wires_named (heap : Heap) (l : list positive) (k : string) : nat :=
  length (filter (eq k) (wire_names heap l)).

(** The wire that the evaluation of a node reads first, when there is one
    it cannot avoid: the left operand comes first, except in a division or
    modulo node, where the divisor does. *)
Fixpoint first_ref (n : ExprNode_ptr) : Wire_ptr :=
  match n with
  | null => None
  | node op _ wire a b c =>
    match op with
    | OpType.Constant => None
    | OpType.WireRef => wire
    | OpType.Div | OpType.Mod => first_ref b
    | _ => first_ref a
    end
  end.

(** The expressions that the operators of [operations.h] build from
    integer constants and wires: [Expr(long long)], the conversion of a
    [Wire] to an [Expr], the three unary operators, the eighteen binary
    ones and [If]. *)
Inductive built : ExprNode_ptr → Prop :=
| built_const v : built (Expr_const v)
| built_wire p : built (wireRef (Some p))
| built_unary op x :
    op ∈ [OpType.BitNot; OpType.Neg; OpType.LogNot] →
    built x → built (make_unary op x)
| built_binary op x y :
    op ∈ [OpType.Add; OpType.Sub; OpType.Mul; OpType.Div; OpType.Mod;
          OpType.BitAnd; OpType.BitOr; OpType.BitXor;
          OpType.Shl; OpType.Shr; OpType.LogAnd; OpType.LogOr;
          OpType.Eq; OpType.Ne; OpType.Lt; OpType.Le; OpType.Gt;
          OpType.Ge] →
    built x → built y → built (make_binary op x y)
| built_If cond t e :
    built cond → built t → built e → built (make_select cond t e).

(** Every definition of the circuit is well formed. *)
Definition definitions_well_formed (heap : Heap) : Prop :=
  ∀ p W, heap !! p = Some W →
    (is_null (comb_expr W) = false → well_formed (comb_expr W))
    ∧ (is_null (next_expr W) = false → well_formed (next_expr W)).

(** Every definition of the circuit was assigned ([operator=],
    [operator<<]) an expression that the operators built. *)
Definition circuit_built (heap : Heap) : Prop :=
  ∀ p W, heap !! p = Some W →
    (is_null (comb_expr W) = false → built (comb_expr W))
    ∧ (is_null (next_expr W) = false → built (next_expr W)).

(** * Properties *)

(** ** 64-bit arithmetic *)

Lemma wrap_in_range z : Int64.in_range (Int64.wrap z).
Proof.
  unfold Int64.in_range, Int64.wrap, Int64.min_signed, Int64.max_signed.
  pose proof (Z.mod_pos_bound (z + 2 ^ 63) (2 ^ 64)). lia.
Qed.

Lemma wrap_congruent z : (Int64.wrap z - z) mod Int64.modulus = 0.
Proof.
  unfold Int64.wrap, Int64.modulus.
  rewrite (Z.mod_eq (z + 2 ^ 63) (2 ^ 64)) by lia.
  replace (z + 2 ^ 63 - 2 ^ 64 * ((z + 2 ^ 63) `div` 2 ^ 64) - 2 ^ 63 - z)
    with (- ((z + 2 ^ 63) `div` 2 ^ 64) * 2 ^ 64) by lia.
  apply Z.mod_mul. lia.
Qed.

Lemma wrap_id z : Int64.in_range z → Int64.wrap z = z.
Proof.
  unfold Int64.in_range, Int64.wrap, Int64.min_signed, Int64.max_signed.
  intros. rewrite Z.mod_small; lia.
Qed.

(** ** Single nodes *)

Lemma bind_Ok {A B} (m : outcome A) (k : A → outcome B) y :
  bind m k = Ok y ↔ ∃ x, m = Ok x ∧ k x = Ok y.
Proof.
  destruct m; simpl; split.
  - eauto.
  - by intros (? & [= <-] & ?).
  - done.
  - by intros (? & ? & ?).
Qed.

(** C8.  [add], [sub] and [mul] nodes return the exact result reduced to
    the signed 64-bit range: the returned value lies in the range, differs
    from the exact result by a multiple of [2^64], and is the exact result
    whenever that fits (so nothing saturates and nothing traps); the largest
    value plus one is the smallest value. *)
Theorem arithmetic_wraps_around heap fuel cv w a b c ctx x ctx1 y ctx2 :
  eval_node heap fuel a ctx = Ok (x, ctx1) →
  eval_node heap fuel b ctx1 = Ok (y, ctx2) →
  (eval_node heap fuel (node OpType.Add cv w a b c) ctx
     = Ok (Int64.wrap (x + y), ctx2)
   ∧ eval_node heap fuel (node OpType.Sub cv w a b c) ctx
     = Ok (Int64.wrap (x - y), ctx2)
   ∧ eval_node heap fuel (node OpType.Mul cv w a b c) ctx
     = Ok (Int64.wrap (x * y), ctx2))
  ∧ (∀ z, Int64.in_range (Int64.wrap z)
          ∧ (Int64.wrap z - z) mod Int64.modulus = 0
          ∧ (Int64.in_range z → Int64.wrap z = z))
  ∧ eval_node heap fuel
      (make_binary OpType.Add (Expr_const Int64.max_signed) (Expr_const 1))
      ctx = Ok (Int64.min_signed, ctx).
Proof.
  intros Ha Hb. unfold eval_node in *. split; [|split].
  - simpl. unfold eval_binary. rewrite Ha. simpl. rewrite Hb. done.
  - intros z. eauto using wrap_in_range, wrap_congruent, wrap_id.
  - reflexivity.
Qed.

Lemma arithmetic_wraps_around_witness :
  eval_node Demo.heap 2
    (make_binary OpType.Mul (Expr_const (2 ^ 62)) (Expr_const 4)) ∅
  = Ok (0, ∅).
Proof.
  refine (proj2 (proj2 (proj1
    (arithmetic_wraps_around Demo.heap 2 0 None
       (Expr_const (2 ^ 62)) (Expr_const 4) null ∅ (2 ^ 62) ∅ 4 ∅ _ _)))).
  - reflexivity.
  - reflexivity.
Defined.

(** C4.  A division or modulo node whose divisor evaluates to 0 returns 0,
    in the context the divisor left, whatever the dividend is: the dividend
    is not evaluated at all. *)
Theorem division_by_zero_yields_zero heap fuel op cv w a b c ctx ctx' :
  op = OpType.Div ∨ op = OpType.Mod →
  eval_node heap fuel b ctx = Ok (0, ctx') →
  eval_node heap fuel (node op cv w a b c) ctx = Ok (0, ctx').
Proof.
  unfold eval_node. intros [-> | ->] Hb; simpl; unfold eval_divmod;
    rewrite Hb; reflexivity.
Qed.

Lemma division_by_zero_yields_zero_witness :
  eval_node Demo.looping 3
    (make_binary OpType.Div (Demo.ref Demo.loop)
       (make_binary OpType.Sub (Demo.ref Demo.b) (Expr_const 2))) ∅
  = Ok (0, {[Demo.b := 2]}).
Proof.
  apply (division_by_zero_yields_zero Demo.looping 3 OpType.Div).
  - left. reflexivity.
  - vm_compute. reflexivity.
Defined.



(** ** The cases of [eval_node] preserve related evaluators *)

Section eval_rel.
Context {S1 S2 : Type} (R : nat → S1 → S2 → Prop).
Implicit Types (e : S1 → outcome (Z * S1)) (E : nat → S2 → outcome (Z * S2)).

Ltac bind_inv H :=
  let x := fresh "x" in let s := fresh "s" in let Hx := fresh "Hx" in
  apply bind_Ok in H as ([x s] & Hx & H).

Ltac use_rel H HR Hx :=
  let F := fresh "F" in let t := fresh "t" in let HF := fresh "HF" in
  let HE := fresh "HE" in let HR' := fresh "HR" in
  destruct (proj2 H _ _ _ _ _ HR Hx) as (F & t & HF & HE & HR').

Lemma eval_const_rel k :
  ev_rel R (λ ctx, Ok (k, ctx)) (λ _ ctx, Ok (k, ctx)).
Proof.
  split; [by intros ?????|].
  intros F0 s1 s2 v s1' HR [= <- <-]. eauto.
Qed.

Lemma eval_null_rel :
  ev_rel R (λ _, Err Segfault) (λ _ _, Err Segfault).
Proof. split; [by intros ?????|]. by intros ???????. Qed.

Lemma eval_unary_rel f ea Ea :
  ev_rel R ea Ea →
  ev_rel R (eval_unary f ea) (λ F, eval_unary f (Ea F)).
Proof.
  intros Ha. split.
  - intros F F' s r HF H. unfold eval_unary in *. bind_inv H.
    rewrite (proj1 Ha _ _ _ _ HF Hx). done.
  - intros F0 s1 s2 v s1' HR H. unfold eval_unary in *. bind_inv H.
    injection H as <- <-. use_rel Ha HR Hx.
    exists F, t. rewrite HE. done.
Qed.

Lemma eval_binary_rel f ea Ea eb Eb :
  ev_rel R ea Ea → ev_rel R eb Eb →
  ev_rel R (eval_binary f ea eb) (λ F, eval_binary f (Ea F) (Eb F)).
Proof.
  intros Ha Hb. split.
  - intros F F' s r HF H. unfold eval_binary in *. bind_inv H. bind_inv H.
    rewrite (proj1 Ha _ _ _ _ HF Hx). simpl.
    rewrite (proj1 Hb _ _ _ _ HF Hx0). done.
  - intros F0 s1 s2 v s1' HR H. unfold eval_binary in *.
    bind_inv H. bind_inv H. injection H as <- <-.
    use_rel Ha HR Hx. use_rel Hb HR0 Hx0.
    exists F1, t0. split; [lia|]. split; [|done].
    rewrite (proj1 Ha _ _ _ _ HF0 HE). simpl. rewrite HE0. done.
Qed.

Lemma eval_divmod_rel f ea Ea eb Eb :
  ev_rel R ea Ea → ev_rel R eb Eb →
  ev_rel R (eval_divmod f ea eb) (λ F, eval_divmod f (Ea F) (Eb F)).
Proof.
  intros Ha Hb. split.
  - intros F F' s r HF H. unfold eval_divmod in *. bind_inv H.
    rewrite (proj1 Hb _ _ _ _ HF Hx). simpl.
    case_decide; [done|]. bind_inv H.
    rewrite (proj1 Ha _ _ _ _ HF Hx0). done.
  - intros F0 s1 s2 v s1' HR H. unfold eval_divmod in *.
    bind_inv H. use_rel Hb HR Hx. case_decide.
    + injection H as <- <-. exists F, t. rewrite HE. simpl.
      rewrite decide_True by done. done.
    + bind_inv H. case_decide; [done|].
      injection H as <- <-. use_rel Ha HR0 Hx0.
      exists F1, t0. split; [lia|]. split; [|done].
      rewrite (proj1 Hb _ _ _ _ HF0 HE). simpl.
      rewrite decide_False by auto. rewrite HE0. simpl.
      rewrite decide_False by auto. done.
Qed.

Lemma eval_logand_rel ea Ea eb Eb :
  ev_rel R ea Ea → ev_rel R eb Eb →
  ev_rel R (eval_logand ea eb) (λ F, eval_logand (Ea F) (Eb F)).
Proof.
  intros Ha Hb. split.
  - intros F F' s r HF H. unfold eval_logand in *. bind_inv H.
    rewrite (proj1 Ha _ _ _ _ HF Hx). simpl.
    case_decide; [|done]. bind_inv H.
    rewrite (proj1 Hb _ _ _ _ HF Hx0). done.
  - intros F0 s1 s2 v s1' HR H. unfold eval_logand in *.
    bind_inv H. use_rel Ha HR Hx. case_decide.
    + bind_inv H. injection H as <- <-. use_rel Hb HR0 Hx0.
      exists F1, t0. split; [lia|]. split; [|done].
      rewrite (proj1 Ha _ _ _ _ HF0 HE). simpl.
      rewrite decide_True by done. rewrite HE0. done.
    + injection H as <- <-. exists F, t. rewrite HE. simpl.
      rewrite decide_False by auto. done.
Qed.

Lemma eval_logor_rel ea Ea eb Eb :
  ev_rel R ea Ea → ev_rel R eb Eb →
  ev_rel R (eval_logor ea eb) (λ F, eval_logor (Ea F) (Eb F)).
Proof.
  intros Ha Hb. split.
  - intros F F' s r HF H. unfold eval_logor in *. bind_inv H.
    rewrite (proj1 Ha _ _ _ _ HF Hx). simpl.
    case_decide; [done|]. bind_inv H.
    rewrite (proj1 Hb _ _ _ _ HF Hx0). done.
  - intros F0 s1 s2 v s1' HR H. unfold eval_logor in *.
    bind_inv H. use_rel Ha HR Hx. case_decide.
    + injection H as <- <-. exists F, t. rewrite HE. simpl.
      rewrite decide_True by done. done.
    + bind_inv H. injection H as <- <-. use_rel Hb HR0 Hx0.
      exists F1, t0. split; [lia|]. split; [|done].
      rewrite (proj1 Ha _ _ _ _ HF0 HE). simpl.
      rewrite decide_False by auto. rewrite HE0. done.
Qed.

Lemma eval_select_rel ea Ea eb Eb ec Ec :
  ev_rel R ea Ea → ev_rel R eb Eb → ev_rel R ec Ec →
  ev_rel R (eval_select ea eb ec) (λ F, eval_select (Ea F) (Eb F) (Ec F)).
Proof.
  intros Ha Hb Hc. split.
  - intros F F' s r HF H. unfold eval_select in *. bind_inv H.
    rewrite (proj1 Ha _ _ _ _ HF Hx). simpl.
    case_decide; [by apply (proj1 Hb _ _ _ _ HF)|by apply (proj1 Hc _ _ _ _ HF)].
  - intros F0 s1 s2 v s1' HR H. unfold eval_select in *.
    bind_inv H. use_rel Ha HR Hx. case_decide.
    + use_rel Hb HR0 H. exists F1, t0. split; [lia|]. split; [|done].
      rewrite (proj1 Ha _ _ _ _ HF0 HE). simpl.
      rewrite decide_True by done. done.
    + use_rel Hc HR0 H. exists F1, t0. split; [lia|]. split; [|done].
      rewrite (proj1 Ha _ _ _ _ HF0 HE). simpl.
      rewrite decide_False by auto. done.
Qed.

(** [eval_node] relates two ways of resolving wire references that are
    related on every wire the node refers to. *)
Lemma eval_node_with_rel (wv1 : Wire_ptr → S1 → outcome (Z * S1))
    (wv2 : nat → Wire_ptr → S2 → outcome (Z * S2)) n :
  (∀ w, (∀ p, w = Some p → p ∈ refs n) →
        ev_rel R (wv1 w) (λ F, wv2 F w)) →
  ev_rel R (eval_node_with wv1 n) (λ F, eval_node_with (wv2 F) n).
Proof.
  induction n as [|op cv w a IHa b IHb c IHc]; intros Hw.
  { apply eval_null_rel. }
  assert (op ≠ OpType.WireRef → ev_rel R (eval_node_with wv1 a)
            (λ F, eval_node_with (wv2 F) a)) as Ha.
  { intros Hop. apply IHa. intros w' Hw'. apply Hw. intros p Hp. simpl.
    rewrite decide_False by auto. specialize (Hw' p Hp). set_solver. }
  assert (op ≠ OpType.WireRef → ev_rel R (eval_node_with wv1 b)
            (λ F, eval_node_with (wv2 F) b)) as Hb.
  { intros Hop. apply IHb. intros w' Hw'. apply Hw. intros p Hp. simpl.
    rewrite decide_False by auto. specialize (Hw' p Hp). set_solver. }
  assert (op ≠ OpType.WireRef → ev_rel R (eval_node_with wv1 c)
            (λ F, eval_node_with (wv2 F) c)) as Hc.
  { intros Hop. apply IHc. intros w' Hw'. apply Hw. intros p Hp. simpl.
    rewrite decide_False by auto. specialize (Hw' p Hp). set_solver. }
  destruct op; simpl;
    try (specialize (Ha ltac:(done)); specialize (Hb ltac:(done));
         specialize (Hc ltac:(done)));
    eauto using eval_const_rel, eval_unary_rel, eval_binary_rel,
      eval_divmod_rel, eval_logand_rel, eval_logor_rel, eval_select_rel.
  apply Hw. intros p ->. simpl. set_solver.
Qed.
End eval_rel.

(** ** Fuel *)

Lemma ev_mono_const {S2} (e : S2 → outcome (Z * S2)) : ev_mono (λ _, e).
Proof. by intros ?????. Qed.

Lemma naive_wire_value_mono heap (f f' : nat) w r :
  (f ≤ f')%nat →
  naive_wire_value heap f w tt = Ok r → naive_wire_value heap f' w tt = Ok r.
Proof.
  revert f' w r. induction f as [|f IH]; intros f' w r Hle H;
    (destruct w as [p|]; [|done]); destruct f' as [|f']; try lia;
    simpl in *; destruct (deref heap p) as [W|]; simpl in *; try done;
    destruct (is_null (comb_expr W)); try done.
  destruct r as [v []].
  destruct (eval_node_with_rel (λ _ _ _, True) (naive_wire_value heap f)
              (λ _, naive_wire_value heap f') (comb_expr W)) as [_ Hrel].
  { intros w' _. split; [apply ev_mono_const|].
    intros F0 [] [] v' [] _ H'. exists F0, tt.
    split; [lia|]. split; [|done]. apply IH; [lia|done]. }
  destruct (Hrel 0%nat tt tt v tt I H) as (_ & [] & _ & HE & _). done.
Qed.

Lemma eval_naive_mono heap (f f' : nat) n r :
  (f ≤ f')%nat →
  eval_node_with (naive_wire_value heap f) n tt = Ok r →
  eval_node_with (naive_wire_value heap f') n tt = Ok r.
Proof.
  intros Hle H. destruct r as [v []].
  destruct (eval_node_with_rel (λ _ _ _, True) (naive_wire_value heap f)
              (λ _, naive_wire_value heap f') n) as [_ Hrel].
  { intros w' _. split; [apply ev_mono_const|].
    intros F0 [] [] v' [] _ H'. exists F0, tt.
    split; [lia|]. split; [|done]. by apply (naive_wire_value_mono heap f). }
  destruct (Hrel 0%nat tt tt v tt I H) as (_ & [] & _ & HE & _). done.
Qed.

Lemma naive_eval_mono heap (f f' : nat) n v :
  (f ≤ f')%nat → naive_eval heap f n = Ok v → naive_eval heap f' n = Ok v.
Proof.
  unfold naive_eval. intros Hle H.
  apply bind_Ok in H as ([v' []] & H & [= ->]).
  by rewrite (eval_naive_mono heap f f' n _ Hle H).
Qed.

Lemma naive_eval_Ok heap f n v :
  naive_eval heap f n = Ok v ↔
  eval_node_with (naive_wire_value heap f) n tt = Ok (v, tt).
Proof.
  unfold naive_eval. split.
  - intros H. by apply bind_Ok in H as ([v' []] & H & [= ->]).
  - intros ->. done.
Qed.

Lemma wire_val_det heap p v v' :
  wire_val heap p v → wire_val heap p v' → v = v'.
Proof.
  intros [F H] [F' H'].
  apply (naive_wire_value_mono heap F (F `max` F')) in H; [|lia].
  apply (naive_wire_value_mono heap F' (F `max` F')) in H'; [|lia].
  congruence.
Qed.

Lemma node_val_det heap n v v' :
  node_val heap n v → node_val heap n v' → v = v'.
Proof.
  intros [F H] [F' H'].
  apply (naive_eval_mono heap F (F `max` F')) in H; [|lia].
  apply (naive_eval_mono heap F' (F `max` F')) in H'; [|lia].
  congruence.
Qed.

Lemma wire_value_mono heap (f f' : nat) w ctx r :
  (f ≤ f')%nat →
  wire_value heap f w ctx = Ok r → wire_value heap f' w ctx = Ok r.
Proof.
  revert f' w ctx r. induction f as [|f IH]; intros f' w ctx r Hle H;
    (destruct w as [p|]; [|done]); destruct f' as [|f']; try lia;
    simpl in *; destruct (deref heap p) as [W|]; simpl in *; try done;
    destruct (is_null (comb_expr W)); try done;
    destruct (ctx !! p); try done.
  apply bind_Ok in H as ([v ctx1] & H & [= <-]).
  destruct (eval_node_with_rel (λ _ s1 s2, s1 = s2) (wire_value heap f)
              (λ _, wire_value heap f') (comb_expr W)) as [_ Hrel].
  { intros w' _. split; [apply ev_mono_const|].
    intros F0 s1 ? v' s1' <- H'. exists F0, s1'.
    split; [lia|]. split; [|done]. apply IH; [lia|done]. }
  destruct (Hrel 0%nat ctx ctx v ctx1 eq_refl H) as (_ & ? & _ & HE & <-).
  by rewrite HE.
Qed.

Lemma eval_node_mono heap (f f' : nat) n ctx r :
  (f ≤ f')%nat →
  eval_node heap f n ctx = Ok r → eval_node heap f' n ctx = Ok r.
Proof.
  unfold eval_node. intros Hle H. destruct r as [v ctx1].
  destruct (eval_node_with_rel (λ _ s1 s2, s1 = s2) (wire_value heap f)
              (λ _, wire_value heap f') n) as [_ Hrel].
  { intros w' _. split; [apply ev_mono_const|].
    intros F0 s1 ? v' s1' <- H'. exists F0, s1'.
    split; [lia|]. split; [|done]. by apply (wire_value_mono heap f). }
  destruct (Hrel 0%nat ctx ctx v ctx1 eq_refl H) as (_ & ? & _ & HE & <-).
  done.
Qed.

(** ** The memo cache against the unmemoized evaluator *)

Lemma cache_ok_at_mono heap (F F' : nat) ctx :
  (F ≤ F')%nat → cache_ok_at heap F ctx → cache_ok_at heap F' ctx.
Proof.
  intros Hle H p v Hp. destruct (H p v Hp) as [Hc Hv].
  split; [done|]. by apply (naive_wire_value_mono heap F).
Qed.

Lemma cache_ok_empty heap : cache_ok heap ∅.
Proof. exists 0%nat. intros p v Hp. by rewrite lookup_empty in Hp. Qed.

Lemma naive_wire_value_ev_mono heap w :
  ev_mono (λ F, naive_wire_value heap F w).
Proof.
  intros F F' [] r Hle H. by apply (naive_wire_value_mono heap F).
Qed.

(** What the memoized evaluator returns, the unmemoized one returns too,
    and the context stays a table of unmemoized values. *)
Lemma wire_value_naive heap f w :
  ev_rel (λ F ctx (_ : unit), cache_ok_at heap F ctx)
         (wire_value heap f w) (λ F, naive_wire_value heap F w).
Proof.
  revert w. induction f as [|f IH]; intros w;
    (split; [apply naive_wire_value_ev_mono|]);
    intros F0 ctx [] v ctx' HR H; (destruct w as [p|]; [|done]);
    simpl in H; unfold deref in H; destruct (heap !! p) as [W|] eqn:Hp;
    simpl in H; try done;
    destruct (is_null (comb_expr W)) eqn:Hnull.
  1,3: injection H as <- <-; exists F0, tt; split; [lia|]; split; [|done];
       destruct F0; simpl; unfold deref; rewrite Hp; simpl; by rewrite Hnull.
  1,2: destruct (ctx !! p) as [v'|] eqn:Hc;
       [injection H as <- <-; exists F0, tt; split; [lia|]; split;
          [by apply HR|done] | ].
  { done. }
  apply bind_Ok in H as ([v1 ctx1] & He & [= <- <-]).
  destruct (eval_node_with_rel (λ F ctx (_ : unit), cache_ok_at heap F ctx)
              (wire_value heap f) (λ F, naive_wire_value heap F)
              (comb_expr W) (λ w _, IH w)) as [_ Hrel].
  destruct (Hrel F0 ctx tt v1 ctx1 HR He) as (F & [] & HF & HE & HR1).
  assert (naive_wire_value heap (S F) (Some p) tt = Ok (v1, tt)) as Hv.
  { simpl. unfold deref. rewrite Hp. simpl. by rewrite Hnull. }
  exists (S F), tt. split; [lia|]. split; [done|].
  apply (cache_ok_at_mono heap F (S F)) in HR1; [|lia].
  unfold emplace. destruct (ctx1 !! p) eqn:Hc1; [done|].
  intros q u. rewrite lookup_insert. case_decide as Hq.
  - subst q. intros [= <-]. split; [by exists W|done].
  - apply HR1.
Qed.

(** What the unmemoized evaluator returns, the memoized one returns with
    the same fuel from any context that is a table of unmemoized values. *)
Lemma naive_wire_value_memo heap f w :
  ev_rel (λ _ (_ : unit) ctx, cache_ok heap ctx)
         (naive_wire_value heap f w) (λ _, wire_value heap f w).
Proof.
  revert w. induction f as [|f IH]; intros w;
    (split; [apply ev_mono_const|]);
    intros F0 [] ctx v [] HR H; (destruct w as [p|]; [|done]);
    simpl in H |- *; unfold deref in H |- *;
    destruct (heap !! p) as [W|] eqn:Hp; simpl in H |- *; try done;
    destruct (is_null (comb_expr W)) eqn:Hnull; try done.
  1,2: injection H as <-; by exists F0, ctx.
  destruct (ctx !! p) as [v'|] eqn:Hc.
  { exists F0, ctx. split; [lia|]. split; [|done].
    destruct HR as [F HR]. destruct (HR p v' Hc) as [_ Hv'].
    assert (wire_val heap p v) as Hv.
    { exists (S f). simpl. unfold deref. rewrite Hp. simpl.
      by rewrite Hnull. }
    by rewrite (wire_val_det heap p v v' Hv (ex_intro _ F Hv')). }
  destruct (eval_node_with_rel (λ _ (_ : unit) ctx, cache_ok heap ctx)
              (naive_wire_value heap f) (λ _, wire_value heap f)
              (comb_expr W) (λ w _, IH w)) as [_ Hrel].
  destruct (Hrel F0 tt ctx v tt HR H) as (_ & ctx1 & _ & HE & [F1 HR1]).
  rewrite HE. simpl. exists F0, (emplace p v ctx1).
  split; [lia|]. split; [done|].
  unfold emplace. destruct (ctx1 !! p) eqn:Hc1; [by exists F1|].
  exists (F1 `max` S f)%nat. intros q u. rewrite lookup_insert.
  case_decide as Hq.
  - subst q. intros [= <-]. split; [by exists W|].
    apply (naive_wire_value_mono heap (S f)); [lia|].
    simpl. unfold deref. rewrite Hp. simpl. by rewrite Hnull.
  - intros Hq'. by apply (cache_ok_at_mono heap F1 _ ctx1); [lia| |].
Qed.

Lemma eval_node_sound heap f n ctx v ctx' :
  cache_ok heap ctx → eval_node heap f n ctx = Ok (v, ctx') →
  node_val heap n v ∧ cache_ok heap ctx'.
Proof.
  intros [F0 HR] H.
  destruct (eval_node_with_rel (λ F ctx (_ : unit), cache_ok_at heap F ctx)
              (wire_value heap f) (λ F, naive_wire_value heap F) n
              (λ w _, wire_value_naive heap f w)) as [_ Hrel].
  destruct (Hrel F0 ctx tt v ctx' HR H) as (F & [] & _ & HE & HR').
  split; [|by exists F]. exists F. by apply naive_eval_Ok.
Qed.

Lemma wire_value_sound heap f p ctx v ctx' :
  cache_ok heap ctx → wire_value heap f (Some p) ctx = Ok (v, ctx') →
  wire_val heap p v ∧ cache_ok heap ctx'.
Proof.
  intros [F0 HR] H.
  destruct (proj2 (wire_value_naive heap f (Some p)) F0 ctx tt v ctx' HR H)
    as (F & [] & _ & HE & HR').
  split; [by exists F|by exists F].
Qed.

Lemma eval_node_complete heap f n ctx v :
  cache_ok heap ctx → naive_eval heap f n = Ok v →
  ∃ ctx', eval_node heap f n ctx = Ok (v, ctx') ∧ cache_ok heap ctx'.
Proof.
  intros HR H. apply naive_eval_Ok in H.
  destruct (eval_node_with_rel (λ _ (_ : unit) ctx, cache_ok heap ctx)
              (naive_wire_value heap f) (λ _, wire_value heap f) n
              (λ w _, naive_wire_value_memo heap f w)) as [_ Hrel].
  destruct (Hrel 0%nat tt ctx v tt HR H) as (_ & ctx' & _ & HE & HR').
  by exists ctx'.
Qed.

Lemma wire_value_complete heap f p ctx v :
  cache_ok heap ctx → naive_wire_value heap f (Some p) tt = Ok (v, tt) →
  ∃ ctx', wire_value heap f (Some p) ctx = Ok (v, ctx') ∧ cache_ok heap ctx'.
Proof.
  intros HR H.
  destruct (proj2 (naive_wire_value_memo heap f (Some p)) 0%nat tt ctx v tt
              HR H) as (_ & ctx' & _ & HE & HR').
  by exists ctx'.
Qed.

Lemma cache_ok_lookup heap ctx p v :
  cache_ok heap ctx → ctx !! p = Some v →
  ∃ W, heap !! p = Some W ∧ is_null (comb_expr W) = false
       ∧ node_val heap (comb_expr W) v.
Proof.
  intros [F HR] Hp. destruct (HR p v Hp) as [(W & HW & Hnull) Hv].
  exists W. split; [done|]. split; [done|].
  destruct F as [|F]; simpl in Hv; unfold deref in Hv; rewrite HW in Hv;
    simpl in Hv; rewrite Hnull in Hv; [done|].
  exists F. by apply naive_eval_Ok.
Qed.

(** ** The cache only grows *)

Lemma emplace_subseteq p v (ctx : EvalContext) : ctx ⊆ emplace p v ctx.
Proof.
  unfold emplace. destruct (ctx !! p) eqn:Hp; [done|].
  by apply insert_subseteq.
Qed.

Lemma wire_value_grows heap f w (ctx0 : EvalContext) :
  ev_rel (λ _ (s1 s2 : EvalContext), s1 = s2 ∧ ctx0 ⊆ s1)
         (wire_value heap f w) (λ _, wire_value heap f w).
Proof.
  revert w ctx0. induction f as [|f IH]; intros w ctx0;
    (split; [apply ev_mono_const|]);
    intros F0 ctx ? v ctx' [<- HR] H; exists F0, ctx';
    (split; [lia|]); (split; [done|]); (split; [done|]);
    (destruct w as [p|]; [|done]); simpl in H;
    destruct (deref heap p) as [W|]; simpl in H; try done;
    destruct (is_null (comb_expr W)); try (by injection H as <- <-);
    destruct (ctx !! p); try (by injection H as <- <-); try done.
  apply bind_Ok in H as ([v1 ctx1] & He & [= <- <-]).
  destruct (eval_node_with_rel
              (λ _ (s1 s2 : EvalContext), s1 = s2 ∧ ctx0 ⊆ s1)
              (wire_value heap f) (λ _, wire_value heap f)
              (comb_expr W) (λ w _, IH w ctx0)) as [_ Hrel].
  destruct (Hrel 0%nat ctx ctx v1 ctx1 (conj eq_refl HR) He)
    as (_ & ? & _ & _ & _ & HR1).
  etrans; [exact HR1|apply emplace_subseteq].
Qed.

Lemma eval_node_grows heap f n ctx v ctx' :
  eval_node heap f n ctx = Ok (v, ctx') → ctx ⊆ ctx'.
Proof.
  intros H.
  destruct (eval_node_with_rel
              (λ _ (s1 s2 : EvalContext), s1 = s2 ∧ ctx ⊆ s1)
              (wire_value heap f) (λ _, wire_value heap f)
              n (λ w _, wire_value_grows heap f w ctx)) as [_ Hrel].
  by destruct (Hrel 0%nat ctx ctx v ctx' (conj eq_refl (reflexivity _)) H)
    as (_ & ? & _ & _ & _ & HR1).
Qed.

(** ** The ghost log *)

Lemma wire_value_traced_erase heap f w :
  ev_rel (λ _ (s1 : EvalContext * list positive) (s2 : EvalContext),
            s1.1 = s2)
         (wire_value_traced heap f w) (λ _, wire_value heap f w).
Proof.
  revert w. induction f as [|f IH]; intros w;
    (split; [apply ev_mono_const|]);
    intros F0 [ctx log] ? v [ctx' log'] <- H; exists F0, ctx';
    (split; [lia|]); (split; [|done]);
    (destruct w as [p|]; [|done]); simpl in H |- *;
    destruct (deref heap p) as [W|]; simpl in H |- *; try done;
    destruct (is_null (comb_expr W)); try (by injection H as <- <- <-);
    destruct (ctx !! p); try (by injection H as <- <- <-); try done.
  apply bind_Ok in H as ([v1 [ctx1 log1]] & He & [= <- <- <-]).
  destruct (eval_node_with_rel
              (λ _ (s1 : EvalContext * list positive) (s2 : EvalContext),
                 s1.1 = s2)
              (wire_value_traced heap f) (λ _, wire_value heap f)
              (comb_expr W) (λ w _, IH w)) as [_ Hrel].
  destruct (Hrel 0%nat (ctx, log) ctx v1 (ctx1, log1) eq_refl He)
    as (_ & ? & _ & HE & <-).
  by rewrite HE.
Qed.

Lemma wire_value_add_trace heap f w :
  ev_rel (λ _ (s1 : EvalContext) (s2 : EvalContext * list positive),
            s1 = s2.1)
         (wire_value heap f w) (λ _, wire_value_traced heap f w).
Proof.
  revert w. induction f as [|f IH]; intros w;
    (split; [apply ev_mono_const|]);
    intros F0 ? [ctx log] v ctx' -> H; simpl in H;
    (destruct w as [p|]; [|done]); simpl in H |- *;
    destruct (deref heap p) as [W|]; simpl in H |- *; try done;
    destruct (is_null (comb_expr W));
    try (by injection H as <- <-; exists F0, (ctx, log));
    destruct (ctx !! p);
    try (by injection H as <- <-; exists F0, (ctx, log)); try done.
  apply bind_Ok in H as ([v1 ctx1] & He & [= <- <-]).
  destruct (eval_node_with_rel
              (λ _ (s1 : EvalContext) (s2 : EvalContext * list positive),
                 s1 = s2.1)
              (wire_value heap f) (λ _, wire_value_traced heap f)
              (comb_expr W) (λ w _, IH w)) as [_ Hrel].
  destruct (Hrel 0%nat ctx (ctx, log) v1 ctx1 eq_refl He)
    as (_ & [ctx2 log2] & _ & HE & ->).
  rewrite HE. simpl. by exists F0, (emplace p v1 ctx2, p :: log2).
Qed.

Lemma eval_node_traced_erase heap f n ctx log v ctx' log' :
  eval_node_traced heap f n (ctx, log) = Ok (v, (ctx', log')) →
  eval_node heap f n ctx = Ok (v, ctx').
Proof.
  intros H.
  destruct (eval_node_with_rel _ _ _ n
              (λ w _, wire_value_traced_erase heap f w)) as [_ Hrel].
  by destruct (Hrel 0%nat (ctx, log) ctx v (ctx', log') eq_refl H)
    as (_ & ? & _ & HE & <-).
Qed.

Lemma eval_node_add_trace heap f n ctx log v ctx' :
  eval_node heap f n ctx = Ok (v, ctx') →
  ∃ log', eval_node_traced heap f n (ctx, log) = Ok (v, (ctx', log')).
Proof.
  intros H.
  destruct (eval_node_with_rel _ _ _ n
              (λ w _, wire_value_add_trace heap f w)) as [_ Hrel].
  destruct (Hrel 0%nat ctx (ctx, log) v ctx' eq_refl H)
    as (_ & [ctx2 log2] & _ & HE & ->).
  by exists log2.
Qed.

Lemma wire_value_traced_inv heap rank f :
  acyclic heap rank →
  ∀ w ctx0 (k : nat), (∀ p, w = Some p → (rank p < k)%nat) →
  ev_rel (λ _ (s1 s2 : EvalContext * list positive),
            s1 = s2 ∧ trace_inv rank ctx0 k s1)
         (wire_value_traced heap f w) (λ _, wire_value_traced heap f w).
Proof.
  intros Hacyc. induction f as [|f IH]; intros w ctx0 k Hk;
    (split; [apply ev_mono_const|]);
    intros F0 [ctx log] ? v [ctx' log'] [<- HI] H; exists F0, (ctx', log');
    (split; [lia|]); (split; [done|]); (split; [done|]);
    (destruct w as [p|]; [|done]); simpl in H; unfold deref in H;
    destruct (heap !! p) as [W|] eqn:Hp; simpl in H; try done;
    destruct (is_null (comb_expr W)); try (by injection H as <- <- <-);
    destruct (ctx !! p) eqn:Hc; try (by injection H as <- <- <-); try done.
  apply bind_Ok in H as ([v1 [ctx1 log1]] & He & [= <- <- <-]).
  specialize (Hk p eq_refl).
  (* the invariant of the caller survives the nested evaluation *)
  destruct (eval_node_with_rel
              (λ _ (s1 s2 : EvalContext * list positive),
                 s1 = s2 ∧ trace_inv rank ctx0 k s1)
              (wire_value_traced heap f) (λ _, wire_value_traced heap f)
              (comb_expr W)) as [_ Hrel].
  { intros w' Hw'. apply IH. intros q ->.
    specialize (Hacyc p W q Hp (Hw' q eq_refl)). lia. }
  destruct (Hrel 0%nat _ _ _ _ (conj eq_refl HI) He)
    as (_ & ? & _ & _ & _ & [[Hnd Hlog] Hnew]).
  (* the nested evaluation only caches wires that rank below [p] *)
  destruct (eval_node_with_rel
              (λ _ (s1 s2 : EvalContext * list positive),
                 s1 = s2 ∧ trace_inv rank ctx (rank p) s1)
              (wire_value_traced heap f) (λ _, wire_value_traced heap f)
              (comb_expr W)) as [_ Hrel'].
  { intros w' Hw'. apply IH. intros q ->.
    exact (Hacyc p W q Hp (Hw' q eq_refl)). }
  destruct (Hrel' 0%nat (ctx, log) _ _ _
              (conj eq_refl (conj (proj1 HI) (λ q Hq, or_introl Hq))) He)
    as (_ & ? & _ & _ & _ & [_ Hbelow]).
  simpl in *.
  assert (ctx1 !! p = None) as Hc1.
  { destruct (ctx1 !! p) eqn:E; [|done].
    destruct (Hbelow p) as [[? Hx]|Hx]; [by rewrite E|congruence|lia]. }
  unfold emplace. rewrite Hc1. split; [split|]; simpl.
  - constructor; [|done]. intros Hin. apply Hlog in Hin as [? Hx].
    congruence.
  - intros q. rewrite elem_of_cons.
    destruct (decide (p = q)) as [->|Hne].
    + rewrite lookup_insert_eq. split; eauto.
    + rewrite lookup_insert_ne by done. rewrite Hlog.
      split; [by intros [->|?]|by right].
  - intros q. destruct (decide (p = q)) as [<-|Hne]; [by right|].
    rewrite lookup_insert_ne by done. apply Hnew.
Qed.

Lemma eval_node_traced_ok heap rank f n st v st' :
  acyclic heap rank → trace_ok st →
  eval_node_traced heap f n st = Ok (v, st') →
  trace_ok st'.
Proof.
  intros Hacyc Hst H.
  pose (k := S (set_fold (λ q m, rank q `max` m)%nat 0%nat (refs n))).
  destruct (eval_node_with_rel
              (λ _ (s1 s2 : EvalContext * list positive),
                 s1 = s2 ∧ trace_inv rank st.1 k s1)
              (wire_value_traced heap f) (λ _, wire_value_traced heap f)
              n) as [_ Hrel].
  { intros w' Hw'. apply wire_value_traced_inv; [done|].
    intros q ->. specialize (Hw' q eq_refl). unfold k.
    revert Hw'. generalize (refs n). intros X.
    apply (set_fold_ind_L (λ m X, q ∈ X → (rank q < S m)%nat)); [set_solver|].
    intros x X' m Hx HX [->%elem_of_singleton|Hq]%elem_of_union; [lia|].
    specialize (HX Hq). lia. }
  destruct (Hrel 0%nat st st v st'
              (conj eq_refl (conj Hst (λ q Hq, or_introl Hq))) H)
    as (_ & ? & _ & _ & _ & [Hok _]).
  done.
Qed.

(** ** The demonstration circuit *)

Lemma demo_acyclic : acyclic Demo.heap Demo.rank.
Proof.
  intros p W q Hp Hq. unfold Demo.heap in Hp.
  repeat (rewrite lookup_insert in Hp; case_decide;
          [subst p; injection Hp as <-; cbn in Hq; repeat case_decide;
           try done|]).
  3: by rewrite lookup_empty in Hp.
  all: set_unfold; repeat (destruct Hq as [Hq|Hq]; try done); subst q;
       vm_compute; lia.
Qed.

(** C5.  From a context that caches values of combinational roots, in which
    the log lists the cached wires once each (as in the fresh context of a
    cycle), a memoized evaluation that returns [v] makes [v] the value of
    the unmemoized evaluation; the context it leaves extends the one it
    found and still maps each cached wire to the value of its combinational
    root; the log of that run is still free of duplicates and still lists
    exactly the cached wires, so across the evaluations that share a context
    every combinational definition is evaluated at most once.  Conversely
    the memoized evaluator returns whatever the unmemoized one returns, with
    the same fuel. *)
Theorem memoization_is_transparent heap rank fuel n ctx log :
  acyclic heap rank → cache_ok heap ctx → trace_ok (ctx, log) →
  (∀ v ctx', eval_node heap fuel n ctx = Ok (v, ctx') →
     node_val heap n v
     ∧ ctx ⊆ ctx'
     ∧ (∀ p u, ctx' !! p = Some u →
          ∃ W, heap !! p = Some W ∧ is_null (comb_expr W) = false
               ∧ node_val heap (comb_expr W) u)
     ∧ ∃ log',
         eval_node_traced heap fuel n (ctx, log) = Ok (v, (ctx', log'))
         ∧ NoDup log' ∧ ∀ q, q ∈ log' ↔ is_Some (ctx' !! q))
  ∧ (∀ v, naive_eval heap fuel n = Ok v →
       ∃ ctx', eval_node heap fuel n ctx = Ok (v, ctx')).
Proof.
  intros Hacyc Hctx Hlog. split.
  - intros v ctx' H.
    destruct (eval_node_sound heap fuel n ctx v ctx' Hctx H) as [Hv Hctx'].
    split; [done|]. split; [by eapply eval_node_grows|].
    split; [intros p u; by apply cache_ok_lookup|].
    destruct (eval_node_add_trace heap fuel n ctx log v ctx' H) as [log' Ht].
    exists log'. split; [done|].
    exact (eval_node_traced_ok heap rank fuel n _ v _ Hacyc Hlog Ht).
  - intros v H.
    destruct (eval_node_complete heap fuel n ctx v Hctx H) as (ctx' & ? & _).
    by exists ctx'.
Qed.

Lemma memoization_is_transparent_witness :
  node_val Demo.heap
    (make_binary OpType.Mul (Demo.ref Demo.sum) (Demo.ref Demo.sum)) 9.
Proof.
  refine (proj1 (proj1
    (memoization_is_transparent Demo.heap Demo.rank 2
       (make_binary OpType.Mul (Demo.ref Demo.sum) (Demo.ref Demo.sum))
       ∅ [] demo_acyclic (cache_ok_empty _) _)
    9 {[Demo.a := 1; Demo.b := 2; Demo.sum := 3]} _)).
  - split; [constructor|]. intros q. simpl. rewrite lookup_empty.
    split; [by intros ?%elem_of_nil|by intros [? ?]].
  - vm_compute. reflexivity.
Defined.

(** ** The dependency closure *)

Lemma gather_post_refl heap X : gather_post heap ∅ X X.
Proof. unfold gather_post. set_solver. Qed.

Lemma gather_post_seq heap need1 need2 X X1 X2 :
  gather_post heap need1 X X1 → gather_post heap need2 X1 X2 →
  gather_post heap (need1 ∪ need2) X X2.
Proof.
  intros (H1 & H2 & H3 & H4) (G1 & G2 & G3 & G4).
  split; [set_solver|]. split; [set_solver|]. split.
  - intros q Hq Hn. destruct (decide (q ∈ X1)) as [Hq1|Hq1].
    + destruct (H3 q Hq1 Hn) as (W & HW & Hr). exists W. set_solver.
    + by apply G3.
  - intros Y HY HX Hneed. apply G4; [done| |set_solver].
    apply H4; [done|done|set_solver].
Qed.

Lemma gather_post_weaken heap need need' X X' :
  need' ≡ need → gather_post heap need X X' → gather_post heap need' X X'.
Proof.
  intros Heq (H1 & H2 & H3 & H4). split; [done|]. split; [set_solver|].
  split; [done|]. intros Y HY HX Hn. apply H4; [done|done|set_solver].
Qed.

Lemma gather_null_guard enter n X :
  (if is_null n then Ok X else gather_with enter n X) = gather_with enter n X.
Proof. by destruct n. Qed.

(** Partial correctness of [gather_from_expr], for any behaviour on entry
    that does the same for the entered wire. *)
Lemma gather_with_post heap enter n :
  (∀ p X X', enter p ({[p]} ∪ X) = Ok X' →
     ∃ W, heap !! p = Some W
          ∧ gather_post heap (wire_refs W) ({[p]} ∪ X) X') →
  ∀ X X', gather_with enter n X = Ok X' → gather_post heap (refs n) X X'.
Proof.
  intros Henter. induction n as [|op cv w a IHa b IHb c IHc]; intros X X' H.
  { injection H as <-. apply gather_post_refl. }
  assert (∀ X X',
    (let* wires := (if is_null a then Ok X else gather_with enter a X) in
     let* wires :=
       (if is_null b then Ok wires else gather_with enter b wires) in
     if is_null c then Ok wires else gather_with enter c wires) = Ok X' →
    gather_post heap (refs a ∪ refs b ∪ refs c) X X') as Hchildren.
  { clear X X' H. intros X X' H.
    apply bind_Ok in H as (X1 & Ha & H). apply bind_Ok in H as (X2 & Hb & Hc).
    rewrite gather_null_guard in Ha, Hb, Hc.
    eapply gather_post_seq; [eapply gather_post_seq|]; eauto. }
  simpl in H. simpl.
  destruct (decide (op = OpType.WireRef)) as [->|Hop]; [|by apply Hchildren].
  destruct w as [p|]; [|by apply Hchildren].
  destruct (decide (p ∈ X)) as [Hp|Hp].
  { injection H as <-. unfold gather_post. set_solver. }
  destruct (Henter p X X' H) as (W & HW & H1 & H2 & H3 & H4).
  split; [set_solver|]. split; [set_solver|]. split.
  - intros q Hq Hn. destruct (decide (q = p)) as [->|Hne].
    + exists W. split; [done|]. set_solver.
    + apply H3; set_solver.
  - intros Y HY HX Hneed. apply H4; [done|set_solver|].
    apply (HY p W); [set_solver|done].
Qed.

Lemma gather_enter_post heap fuel p X X' :
  gather_enter heap fuel p ({[p]} ∪ X) = Ok X' →
  ∃ W, heap !! p = Some W ∧ gather_post heap (wire_refs W) ({[p]} ∪ X) X'.
Proof.
  revert p X X'. induction fuel as [|fuel IH]; intros p X X' H; [done|].
  simpl in H. unfold deref in H. destruct (heap !! p) as [W|] eqn:Hp; [|done].
  simpl in H. apply bind_Ok in H as (X1 & Hc & Hn). exists W. split; [done|].
  eapply gather_post_seq; eapply gather_with_post; eauto.
Qed.

Lemma gather_from_expr_post heap fuel n X X' :
  gather_from_expr heap fuel n X = Ok X' → gather_post heap (refs n) X X'.
Proof.
  apply gather_with_post. intros p Y Y'. apply gather_enter_post.
Qed.

Lemma size_unvisited_mono (D X X' : gset positive) :
  X ⊆ X' → (size (D ∖ X') ≤ size (D ∖ X))%nat.
Proof. intros H. apply subseteq_size. set_solver. Qed.

Lemma size_unvisited_insert (D X : gset positive) p :
  p ∈ D → p ∉ X → (size (D ∖ ({[p]} ∪ X)) < size (D ∖ X))%nat.
Proof.
  intros HD HX. apply subset_size. set_solver.
Qed.

(** Termination of [gather_from_expr]: within a self-contained set [D]
    the nesting of entered wires is bounded by the number of wires of [D]
    not yet in the set. *)
Lemma gather_with_total heap enter (F : nat) (D : gset positive) n :
  (∀ p X X', enter p ({[p]} ∪ X) = Ok X' →
     ∃ W, heap !! p = Some W
          ∧ gather_post heap (wire_refs W) ({[p]} ∪ X) X') →
  (∀ p X, p ∈ D → (size (D ∖ ({[p]} ∪ X)) < F)%nat →
     ∃ X', enter p ({[p]} ∪ X) = Ok X') →
  ∀ X, refs n ⊆ D → (size (D ∖ X) ≤ F)%nat →
    ∃ X', gather_with enter n X = Ok X'.
Proof.
  intros Hpost Henter.
  induction n as [|op cv w a IHa b IHb c IHc]; intros X Hrefs Hsize.
  { by exists X. }
  assert (refs a ∪ refs b ∪ refs c ⊆ D →
    ∃ X',
      (let* wires := (if is_null a then Ok X else gather_with enter a X) in
       let* wires :=
         (if is_null b then Ok wires else gather_with enter b wires) in
       if is_null c then Ok wires else gather_with enter c wires) = Ok X')
    as Hchildren.
  { intros Hsub. rewrite gather_null_guard.
    destruct (IHa X) as [X1 Ha]; [set_solver|done|]. rewrite Ha. simpl.
    pose proof (gather_with_post heap enter a Hpost X X1 Ha) as (HX1 & _).
    rewrite gather_null_guard.
    destruct (IHb X1) as [X2 Hb]; [set_solver| |].
    { pose proof (size_unvisited_mono D X X1 HX1). lia. }
    rewrite Hb. simpl.
    pose proof (gather_with_post heap enter b Hpost X1 X2 Hb) as (HX2 & _).
    rewrite gather_null_guard. apply IHc; [set_solver|].
    pose proof (size_unvisited_mono D X X1 HX1).
    pose proof (size_unvisited_mono D X1 X2 HX2). lia. }
  simpl in Hrefs |- *.
  destruct (decide (op = OpType.WireRef)) as [->|Hop]; [|by apply Hchildren].
  destruct w as [p|]; [|by apply Hchildren].
  destruct (decide (p ∈ X)) as [Hp|Hp]; [by exists X|].
  apply Henter; [set_solver|].
  pose proof (size_unvisited_insert D X p). set_solver by lia.
Qed.

Lemma gather_enter_total heap fuel (D : gset positive) p X :
  self_contained heap D → p ∈ D →
  (size (D ∖ ({[p]} ∪ X)) < fuel)%nat →
  ∃ X', gather_enter heap fuel p ({[p]} ∪ X) = Ok X'.
Proof.
  intros Hnd. revert p X.
  induction fuel as [|fuel IH]; intros p X Hp Hsize; [lia|].
  destruct (Hnd p Hp) as (W & HW & Hrefs).
  simpl. unfold deref. rewrite HW. simpl. unfold wire_refs in Hrefs.
  destruct (gather_with_total heap (gather_enter heap fuel) fuel D
              (comb_expr W)) with (X := {[p]} ∪ X) as [X1 Hc].
  { intros q Y Y'. apply gather_enter_post. }
  { intros q Y Hq HY. by apply IH. }
  { set_solver. }
  { lia. }
  rewrite Hc. simpl.
  pose proof (gather_from_expr_post heap fuel _ _ _ Hc) as (HX1 & _).
  apply (gather_with_total heap (gather_enter heap fuel) fuel D).
  - intros q Y Y'. apply gather_enter_post.
  - intros q Y Hq HY. by apply IH.
  - set_solver.
  - pose proof (size_unvisited_mono D _ _ HX1). lia.
Qed.

Lemma gather_from_expr_total heap fuel (D : gset positive) n X :
  self_contained heap D → refs n ⊆ D →
  (size (D ∖ X) ≤ fuel)%nat →
  ∃ X', gather_from_expr heap fuel n X = Ok X'.
Proof.
  intros Hnd Hrefs Hsize.
  apply (gather_with_total heap (gather_enter heap fuel) fuel D);
    [|intros q Y Hq HY; by apply (gather_enter_total heap fuel D)|done|done].
  intros q Y Y'. apply gather_enter_post.
Qed.

(** One pass of the [while] loop. *)
Lemma gather_snapshot_post heap fuel l X X' :
  gather_snapshot heap fuel l X = Ok X' →
  X ⊆ X'
  ∧ (∀ q, q ∈ l ∨ (q ∈ X' ∧ q ∉ X) →
       ∃ W, heap !! q = Some W ∧ wire_refs W ⊆ X')
  ∧ (∀ Y, closed heap Y → X ⊆ Y → (∀ q, q ∈ l → q ∈ Y) → X' ⊆ Y).
Proof.
  revert X X'. induction l as [|w l IH]; intros X X' H.
  { injection H as <-. split; [done|]. split; [|done].
    intros q [Hq|[? ?]]; [by apply elem_of_nil in Hq|done]. }
  unfold gather_snapshot in H. simpl in H.
  apply bind_Ok in H as (X2 & H1 & H).
  apply bind_Ok in H1 as (W & HW & H1).
  unfold deref in HW. destruct (heap !! w) as [W'|] eqn:Hw; [|done].
  injection HW as ->.
  apply bind_Ok in H1 as (X1 & Hc & Hn).
  pose proof (gather_post_seq _ _ _ _ _ _
                (gather_from_expr_post _ _ _ _ _ Hc)
                (gather_from_expr_post _ _ _ _ _ Hn))
    as (G1 & G2 & G3 & G4).
  destruct (IH X2 X' H) as (I1 & I2 & I3).
  split; [set_solver|]. split.
  - intros q Hq. destruct (decide (q ∈ l ∨ (q ∈ X' ∧ q ∉ X2))) as [Hq'|Hq'].
    { by apply I2. }
    destruct Hq as [[->|Hq]%elem_of_cons|[Hq Hn']].
    + exists W. split; [done|]. fold (wire_refs W) in G2. set_solver.
    + tauto.
    + destruct (G3 q) as (Wq & HWq & Hr); [|done|].
      { destruct (decide (q ∈ X2)); tauto. }
      exists Wq. split; [done|]. set_solver.
  - intros Y HY HX Hl. apply I3; [done| |set_solver].
    apply G4; [done|done|]. apply (HY w W); [|done]. apply Hl. set_solver.
Qed.

Lemma gather_snapshot_total heap fuel (D : gset positive) l X :
  self_contained heap D → (∀ q, q ∈ l → q ∈ D) →
  (size (D ∖ X) ≤ fuel)%nat →
  ∃ X', gather_snapshot heap fuel l X = Ok X'.
Proof.
  intros Hnd. revert X. induction l as [|w l IH]; intros X Hl Hsize.
  { by exists X. }
  unfold gather_snapshot. simpl.
  destruct (Hnd w) as (W & Hw & Hrefs); [apply Hl; set_solver|].
  unfold deref. rewrite Hw. simpl. unfold wire_refs in Hrefs.
  destruct (gather_from_expr_total heap fuel D (comb_expr W) X) as [X1 Hc];
    [done|set_solver|done|].
  rewrite Hc. simpl.
  pose proof (gather_from_expr_post _ _ _ _ _ Hc) as (HX1 & _).
  destruct (gather_from_expr_total heap fuel D (next_expr W) X1) as [X2 Hn];
    [done|set_solver| |].
  { pose proof (size_unvisited_mono D _ _ HX1). lia. }
  rewrite Hn. simpl.
  pose proof (gather_from_expr_post _ _ _ _ _ Hn) as (HX2 & _).
  apply IH; [set_solver|].
  pose proof (size_unvisited_mono D _ _ HX1).
  pose proof (size_unvisited_mono D _ _ HX2). lia.
Qed.

Lemma no_dangling_self_contained heap :
  no_dangling heap → self_contained heap (dom heap).
Proof.
  intros Hnd p [W HW]%elem_of_dom. exists W. split; [done|]. by eapply Hnd.
Qed.

Lemma closed_self_contained heap (X : gset positive) :
  closed heap X → X ⊆ dom heap → self_contained heap X.
Proof.
  intros Hcl Hdom p Hp. pose proof (Hdom p Hp) as [W HW]%elem_of_dom.
  exists W. split; [done|]. by eapply Hcl.
Qed.

Lemma elem_of_set_iter U (X : gset positive) q : q ∈ set_iter U X ↔ q ∈ X.
Proof. by rewrite (set_iter_perm U X), elem_of_elements. Qed.

Lemma NoDup_set_iter U (X : gset positive) : NoDup (set_iter U X).
Proof. rewrite (set_iter_perm U X). apply NoDup_elements. Qed.

Lemma set_iter_empty U : set_iter U ∅ = [].
Proof.
  apply Permutation_nil_r. by rewrite (set_iter_perm U ∅), elements_empty.
Qed.

Lemma map_iter_empty U : map_iter U ∅ = [].
Proof.
  apply Permutation_nil_r. by rewrite (map_iter_perm U ∅), map_to_list_empty.
Qed.

Lemma elem_of_insert_targets_acc targets (acc : gset positive) p :
  p ∈ foldl (λ set w, match w with Some p => {[p]} ∪ set | None => set end)
        acc targets
  ↔ p ∈ acc ∨ Some p ∈ targets.
Proof.
  revert acc. induction targets as [|w l IH]; intros acc; simpl.
  { rewrite elem_of_nil. tauto. }
  rewrite IH, elem_of_cons. destruct w as [q|]; set_solver.
Qed.

Lemma elem_of_insert_targets targets p :
  p ∈ insert_targets targets ↔ Some p ∈ targets.
Proof.
  unfold insert_targets. rewrite elem_of_insert_targets_acc. set_solver.
Qed.

(** Partial correctness of the [while] loop, started above the targets
    [X0] and below every closed set above them. *)
Lemma closure_loop_post U heap fuel iters X0 prev X R :
  closure_loop U heap fuel iters prev X = Ok R →
  X0 ⊆ X →
  (∀ Y, closed heap Y → X0 ⊆ Y → X ⊆ Y) →
  (prev = size X → closed heap X ∧ X ⊆ dom heap) →
  X0 ⊆ R ∧ closed heap R ∧ R ⊆ dom heap
  ∧ ∀ Y, closed heap Y → X0 ⊆ Y → R ⊆ Y.
Proof.
  revert prev X. induction iters as [|iters IH]; intros prev X H H0 Hleast Hex;
    simpl in H; destruct (decide (prev ≠ size X)) as [Hne|Heq]; try done.
  1,3: injection H as <-; apply dec_stable in Heq;
       destruct (Hex Heq); done.
  apply bind_Ok in H as (X' & Hpass & H).
  destruct (gather_snapshot_post _ _ _ _ _ Hpass) as (H1 & H2 & H3).
  apply (IH (size X) X' H).
  - set_solver.
  - intros Y HY HX0. apply H3; [done|by apply Hleast|].
    intros q Hq%elem_of_set_iter. by apply (Hleast Y HY HX0).
  - intros Hsize.
    assert (X = X') as <-.
    { apply set_subseteq_size_eq; [done|lia]. }
    split.
    + intros p W Hp HW. destruct (H2 p) as (W' & HW' & Hr).
      { left. by apply elem_of_set_iter. }
      by simplify_eq.
    + intros p Hp. destruct (H2 p) as (W' & HW' & Hr).
      { left. by apply elem_of_set_iter. }
      apply elem_of_dom. eauto.
Qed.

Lemma closure_set_post U heap fuel targets R :
  closure_set U heap fuel targets = Ok R →
  (∀ p, Some p ∈ targets → p ∈ R)
  ∧ closed heap R ∧ R ⊆ dom heap
  ∧ ∀ Y, closed heap Y → (∀ p, Some p ∈ targets → p ∈ Y) → R ⊆ Y.
Proof.
  intros H. unfold closure_set in H.
  destruct (closure_loop_post U heap fuel fuel (insert_targets targets)
              0%nat (insert_targets targets) R H) as (H1 & H2 & H3 & H4).
  - done.
  - by intros Y _ ?.
  - intros Hsize. symmetry in Hsize. apply size_empty_iff in Hsize.
    apply leibniz_equiv in Hsize. rewrite Hsize. split; [|set_solver].
    intros p W Hp. set_solver.
  - split; [|split; [done|split; [done|]]].
    + intros p Hp. apply H1. by apply elem_of_insert_targets.
    + intros Y HY Ht. apply H4; [done|].
      intros p Hp%elem_of_insert_targets. by apply Ht.
Qed.

(** On a closed set the loop stops after at most one more pass. *)
Lemma closure_loop_closed U heap fuel iters prev X :
  closed heap X → X ⊆ dom heap → (1 ≤ iters)%nat →
  closure_loop U heap fuel iters prev X = Ok X.
Proof.
  intros Hcl Hdom Hiters.
  destruct iters as [|iters]; [lia|]. simpl.
  destruct (decide (prev ≠ size X)) as [Hne|Heq]; [|done].
  destruct (gather_snapshot_total heap fuel X (set_iter U X) X)
    as [X' Hpass].
  { by apply closed_self_contained. }
  { by intros q Hq%elem_of_set_iter. }
  { replace (X ∖ X) with (∅ : gset positive) by set_solver.
    rewrite size_empty. lia. }
  rewrite Hpass. simpl.
  destruct (gather_snapshot_post _ _ _ _ _ Hpass) as (H1 & H2 & H3).
  assert (X' = X) as ->.
  { apply (anti_symm (⊆)); [|done]. apply H3; [done|done|].
    by intros q Hq%elem_of_set_iter. }
  destruct iters; simpl; by rewrite decide_False by auto.
Qed.

Lemma closure_loop_total U heap fuel iters (D X : gset positive) :
  self_contained heap D → X ⊆ D →
  (2 ≤ iters)%nat → (size D ≤ fuel)%nat →
  ∃ R, closure_loop U heap fuel iters 0%nat X = Ok R.
Proof.
  intros Hnd HX Hiters Hfuel.
  destruct iters as [|iters]; [lia|].
  simpl. destruct (decide (0%nat ≠ size X)) as [Hne|Heq]; [|by exists X].
  destruct (gather_snapshot_total heap fuel D (set_iter U X) X)
    as [X' Hpass].
  { done. }
  { intros q Hq%elem_of_set_iter. by apply HX. }
  { pose proof (subseteq_size (D ∖ X) D). set_solver by lia. }
  rewrite Hpass. simpl. exists X'.
  destruct (gather_snapshot_post _ _ _ _ _ Hpass) as (H1 & H2 & H3).
  apply closure_loop_closed; [| |lia].
  - intros p W Hp HW. destruct (H2 p) as (W' & HW' & Hr); [|by simplify_eq].
    destruct (decide (p ∈ X)); [left; by apply elem_of_set_iter|by right].
  - intros p Hp. destruct (H2 p) as (W' & HW' & Hr).
    { destruct (decide (p ∈ X)); [left; by apply elem_of_set_iter|by right]. }
    apply elem_of_dom. eauto.
Qed.

Lemma closure_set_total U heap fuel (D : gset positive) targets :
  self_contained heap D → (∀ p, Some p ∈ targets → p ∈ D) →
  (2 ≤ fuel)%nat → (size D ≤ fuel)%nat →
  ∃ R, closure_set U heap fuel targets = Ok R.
Proof.
  intros Hnd Ht Hfuel2 Hfuel.
  apply (closure_loop_total U heap fuel fuel D); [done| |done|done].
  intros p Hp%elem_of_insert_targets. by apply Ht.
Qed.

Lemma insert_targets_set_iter U (X : gset positive) :
  insert_targets (Some <$> set_iter U X) = X.
Proof.
  apply set_eq. intros p. rewrite elem_of_insert_targets, list_elem_of_fmap.
  split.
  - intros (q & [= <-] & Hq). by apply elem_of_set_iter in Hq.
  - intros Hp. exists p. split; [done|]. by apply elem_of_set_iter.
Qed.

Lemma insert_targets_filter targets :
  insert_targets (filter is_Some targets) = insert_targets targets.
Proof.
  apply set_eq. intros p.
  rewrite !elem_of_insert_targets, list_elem_of_filter. naive_solver.
Qed.

Lemma insert_targets_nulls targets :
  (∀ w, w ∈ targets → w = None) → insert_targets targets = ∅.
Proof.
  intros H. apply set_eq. intros p. rewrite elem_of_insert_targets.
  split; [|set_solver]. intros Hp. by specialize (H _ Hp).
Qed.

Lemma demo_no_dangling : no_dangling Demo.heap.
Proof.
  intros p W Hp q Hq. unfold Demo.heap in Hp.
  repeat (rewrite lookup_insert in Hp; case_decide;
          [subst p; injection Hp as <-; unfold wire_refs in Hq; cbn in Hq;
           repeat case_decide; try done|]).
  all: try (by rewrite lookup_empty in Hp).
  all: unfold Demo.heap; rewrite !dom_insert_L; set_solver.
Qed.

(** C6.  On a program without dangling references and with enough fuel for
    its number of wires, [closure_from_targets] returns, as a vector, a set
    that contains the non-null targets, is closed under the references in
    the combinational and registered definitions of its members, and is
    included in every closed set that contains the targets; run again on its
    own output, under any iteration order, it returns the same set. *)
Theorem closure_is_least_closed_set U heap fuel targets :
  no_dangling heap → (∀ p, Some p ∈ targets → p ∈ dom heap) →
  (2 ≤ fuel)%nat → (size heap ≤ fuel)%nat →
  ∃ R, closure_from_targets U heap fuel targets = Ok (set_iter U R)
       ∧ (∀ p, Some p ∈ targets → p ∈ R)
       ∧ closed heap R
       ∧ (∀ Y, closed heap Y → (∀ p, Some p ∈ targets → p ∈ Y) → R ⊆ Y)
       ∧ ∀ U2, closure_from_targets U2 heap fuel (Some <$> set_iter U R)
               = Ok (set_iter U2 R).
Proof.
  intros Hnd Ht Hfuel2 Hfuel.
  destruct (closure_set_total U heap fuel (dom heap) targets) as [R HR];
    [by apply no_dangling_self_contained|done|done|by rewrite size_dom|].
  destruct (closure_set_post U heap fuel targets R HR) as (H1 & H2 & H3 & H4).
  exists R. unfold closure_from_targets. rewrite HR. simpl.
  split; [done|]. split; [done|]. split; [done|]. split; [done|].
  intros U2. unfold closure_set. rewrite insert_targets_set_iter.
  rewrite closure_loop_closed; [done|done|done|lia].
Qed.

Lemma closure_is_least_closed_set_witness :
  ∃ R, closure_from_targets std_iteration Demo.heap 7 [None; Some Demo.acc]
       = Ok (elements R)
       ∧ (∀ p, Some p ∈ [None; Some Demo.acc] → p ∈ R)
       ∧ closed Demo.heap R
       ∧ (∀ Y, closed Demo.heap Y →
               (∀ p, Some p ∈ [None; Some Demo.acc] → p ∈ Y) → R ⊆ Y)
       ∧ ∀ U2, closure_from_targets U2 Demo.heap 7 (Some <$> elements R)
               = Ok (set_iter U2 R).
Proof.
  apply (closure_is_least_closed_set std_iteration Demo.heap 7
           [None; Some Demo.acc] demo_no_dangling).
  - intros p [?|[[= ->]|?%elem_of_nil]%elem_of_cons]%elem_of_cons; [done| |done].
    unfold Demo.heap. rewrite !dom_insert_L. set_solver.
  - lia.
  - vm_compute. lia.
Defined.

Lemma closure_loop_empty U heap fuel iters :
  closure_loop U heap fuel iters 0%nat ∅ = Ok ∅.
Proof.
  destruct iters; cbn [closure_loop];
    by rewrite decide_False by (rewrite size_empty; auto).
Qed.

Lemma simulate_wires_nil U heap fuel cycles restore_state :
  simulate_wires U heap fuel [] cycles restore_state = Ok ([], heap).
Proof.
  unfold simulate_wires.
  assert (∀ n, run_cycles U fuel [] n (heap, []) = Ok (heap, [])) as Hrun.
  { induction n as [|n IH]; [done|]. simpl. by rewrite map_iter_empty. }
  destruct restore_state; simpl; rewrite Hrun; simpl;
    by rewrite ?map_iter_empty.
Qed.

Lemma simulate_null_targets U heap fuel targets cycles restore_state :
  (∀ w, w ∈ targets → w = None) →
  simulate U heap fuel targets cycles restore_state = Ok ([], heap).
Proof.
  intros Hnull. unfold simulate, closure_from_targets, closure_set.
  rewrite (insert_targets_nulls targets Hnull), closure_loop_empty.
  cbn [bind]. rewrite set_iter_empty. apply simulate_wires_nil.
Qed.

(** C10.  [simulate] returns the same on a target list and on that list with
    the null pointers removed; on a list of null pointers only it returns
    the empty map and leaves the wires as they are. *)
Theorem null_targets_are_skipped U heap fuel targets cycles restore_state :
  simulate U heap fuel targets cycles restore_state
  = simulate U heap fuel (filter is_Some targets) cycles restore_state
  ∧ ((∀ w, w ∈ targets → w = None) →
     simulate U heap fuel targets cycles restore_state = Ok ([], heap)).
Proof.
  split.
  - unfold simulate, closure_from_targets, closure_set.
    by rewrite insert_targets_filter.
  - apply simulate_null_targets.
Qed.

Lemma null_targets_are_skipped_witness :
  simulate std_iteration Demo.heap 0 [None; None] 4 false
  = Ok ([], Demo.heap).
Proof.
  apply (proj2 (null_targets_are_skipped std_iteration Demo.heap 0
                  [None; None] 4 false)).
  intros w [->|[->|?%elem_of_nil]%elem_of_cons]%elem_of_cons; done.
Defined.

(** ** The ordered map of histories *)

Lemma ascii_compare_refl c : Ascii.compare c c = Eq.
Proof. unfold Ascii.compare. apply N.compare_refl. Qed.

Lemma ascii_compare_lt_trans c1 c2 c3 :
  Ascii.compare c1 c2 = Lt → Ascii.compare c2 c3 = Lt →
  Ascii.compare c1 c3 = Lt.
Proof.
  unfold Ascii.compare. rewrite !N.compare_lt_iff. apply N.lt_trans.
Qed.

Lemma string_compare_refl k : String.compare k k = Eq.
Proof.
  induction k as [|c k IH]; [done|]. simpl. by rewrite ascii_compare_refl.
Qed.

Lemma key_lt_irrefl k : ¬ key_lt k k.
Proof. unfold key_lt. by rewrite string_compare_refl. Qed.

Lemma key_lt_trans k1 k2 k3 : key_lt k1 k2 → key_lt k2 k3 → key_lt k1 k3.
Proof.
  unfold key_lt. revert k2 k3.
  induction k1 as [|c1 k1 IH]; intros [|c2 k2] [|c3 k3]; simpl; try done.
  destruct (Ascii.compare c1 c2) eqn:H12; try done;
    destruct (Ascii.compare c2 c3) eqn:H23; try done; intros H1 H2.
  - apply Ascii.compare_eq_iff in H12, H23. subst.
    rewrite ascii_compare_refl. by eapply IH.
  - apply Ascii.compare_eq_iff in H12. subst. by rewrite H23.
  - apply Ascii.compare_eq_iff in H23. subst. by rewrite H12.
  - by rewrite (ascii_compare_lt_trans _ _ _ H12 H23).
Qed.

Lemma compare_Gt_key_lt k k' : String.compare k k' = Gt → key_lt k' k.
Proof.
  unfold key_lt. intros H. rewrite String.compare_antisym, H. done.
Qed.

Lemma key_lt_ne k k' : key_lt k k' → k ≠ k'.
Proof. intros H ->. by eapply key_lt_irrefl. Qed.

Lemma find_above_None k (m : History) :
  Forall (key_lt k) m.*1 → find k m = None.
Proof.
  induction m as [|[k' x] m IH]; [done|]. simpl.
  intros [Hk Hm]%Forall_cons. rewrite decide_False by by apply key_lt_ne.
  by apply IH.
Qed.

Lemma sorted_keys_cons k x (m : History) :
  sorted_keys ((k, x) :: m) ↔ Forall (key_lt k) m.*1 ∧ sorted_keys m.
Proof.
  unfold sorted_keys. simpl. split.
  - intros H. apply StronglySorted_inv in H. tauto.
  - intros [? ?]. by constructor.
Qed.

Lemma Forall_key_lt_trans k k' (l : list string) :
  key_lt k k' → Forall (key_lt k') l → Forall (key_lt k) l.
Proof.
  intros Hk Hl. eapply Forall_impl; [exact Hl|].
  intros k''. by apply key_lt_trans.
Qed.

Lemma keys_subscript f k (m : History) k' :
  k' ∈ (subscript f k m).*1 ↔ k' = k ∨ k' ∈ m.*1.
Proof.
  induction m as [|[k0 x] m IH]; simpl.
  { rewrite elem_of_cons. done. }
  destruct (String.compare k k0) eqn:Hc; simpl; rewrite !elem_of_cons.
  - apply String.compare_eq_iff in Hc. subst. tauto.
  - done.
  - fold (fst <$> subscript f k m). rewrite IH. tauto.
Qed.

Lemma sorted_subscript f k (m : History) :
  sorted_keys m → sorted_keys (subscript f k m).
Proof.
  induction m as [|[k0 x] m IH]; simpl.
  { intros _. apply sorted_keys_cons. split; [constructor|]. constructor. }
  intros Hs. pose proof Hs as [Hk0 Hm]%sorted_keys_cons.
  destruct (String.compare k k0) eqn:Hc.
  - by apply sorted_keys_cons.
  - apply sorted_keys_cons. split; [|done]. simpl. constructor; [done|].
    by apply (Forall_key_lt_trans k k0).
  - apply sorted_keys_cons. split; [|by apply IH].
    apply Forall_forall. intros k' [->|Hk']%keys_subscript.
    + by apply compare_Gt_key_lt.
    + by apply (proj1 (Forall_forall _ _) Hk0).
Qed.

Lemma find_subscript f k (m : History) k' :
  sorted_keys m →
  find k' (subscript f k m)
  = if decide (k' = k) then Some (f (default [] (find k m))) else find k' m.
Proof.
  induction m as [|[k0 x] m IH]; simpl.
  { intros _. by destruct (decide (k' = k)). }
  intros [Hk0 Hm]%sorted_keys_cons.
  destruct (String.compare k k0) eqn:Hc; simpl.
  - apply String.compare_eq_iff in Hc. subst k0.
    rewrite (decide_True (P := k = k)) by done. simpl.
    destruct (decide (k' = k)); done.
  - assert (k ≠ k0) as Hne by by apply key_lt_ne.
    rewrite (decide_False (P := k = k0)) by done.
    rewrite (find_above_None k m) by by apply (Forall_key_lt_trans k k0).
    destruct (decide (k' = k)) as [->|]; done.
  - assert (k ≠ k0) as Hne.
    { intros ->. by rewrite string_compare_refl in Hc. }
    rewrite (decide_False (P := k = k0)) by done. rewrite (IH Hm).
    destruct (decide (k' = k0)) as [->|]; [|done].
    by rewrite decide_False.
Qed.

(** Two maps with the same bindings are the same list. *)
Lemma history_ext (m1 m2 : History) :
  sorted_keys m1 → sorted_keys m2 →
  (∀ k, find k m1 = find k m2) → m1 = m2.
Proof.
  revert m2. induction m1 as [|[k1 x1] m1 IH]; intros [|[k2 x2] m2] H1 H2 H.
  - done.
  - specialize (H k2). simpl in H. by rewrite decide_True in H.
  - specialize (H k1). simpl in H. by rewrite decide_True in H.
  - apply sorted_keys_cons in H1 as [Hk1 H1], H2 as [Hk2 H2].
    assert (k1 = k2) as <-.
    { destruct (String.compare k1 k2) eqn:Hc.
      - by apply String.compare_eq_iff.
      - specialize (H k1). simpl in H. rewrite decide_True in H by done.
        rewrite decide_False in H by by apply key_lt_ne.
        rewrite find_above_None in H; [done|].
        by apply (Forall_key_lt_trans k1 k2).
      - apply compare_Gt_key_lt in Hc.
        specialize (H k2). simpl in H.
        rewrite (decide_True (P := k2 = k2)) in H by done.
        rewrite decide_False in H by by apply key_lt_ne.
        rewrite find_above_None in H; [done|].
        by apply (Forall_key_lt_trans k2 k1). }
    pose proof (H k1) as Hx. simpl in Hx. rewrite !decide_True in Hx by done.
    injection Hx as <-. f_equal. apply IH; [done|done|].
    intros k. specialize (H k). simpl in H.
    destruct (decide (k = k1)) as [->|]; [|done].
    by rewrite !find_above_None.
Qed.

Lemma find_is_Some k (m : History) : is_Some (find k m) ↔ k ∈ m.*1.
Proof.
  induction m as [|[k0 x] m IH]; simpl.
  { rewrite elem_of_nil. split; [by intros [? ?]|done]. }
  rewrite elem_of_cons. destruct (decide (k = k0)); [|tauto].
  split; eauto.
Qed.

(** ** The loops of [simulate] *)

Lemma wire_names_cons heap p l W :
  heap !! p = Some W → wire_names heap (p :: l) = name W :: wire_names heap l.
Proof. intros H. unfold wire_names. simpl. by rewrite H. Qed.

Lemma elem_of_wire_names heap l k :
  k ∈ wire_names heap l ↔ ∃ p W, p ∈ l ∧ heap !! p = Some W ∧ name W = k.
Proof.
  unfold wire_names. rewrite list_elem_of_omap. split.
  - intros (p & Hp & H). destruct (heap !! p) as [W|] eqn:HW; [|done].
    injection H as <-. eauto.
  - intros (p & W & Hp & HW & <-). exists p. by rewrite HW.
Qed.

Lemma set_committed_id W : set_committed (committed_value W) W = W.
Proof. by destruct W. Qed.

Lemma init_history_acc heap l h0 h :
  foldM (λ history w,
           let* W := deref heap w in
           Ok (subscript (λ _, []) (name W) history)) l h0 = Ok h →
  sorted_keys h0 →
  sorted_keys h
  ∧ Forall (λ p, is_Some (heap !! p)) l
  ∧ (∀ k, k ∈ wire_names heap l → find k h = Some [])
  ∧ (∀ k, k ∉ wire_names heap l → find k h = find k h0).
Proof.
  revert h0. induction l as [|p l IH]; intros h0 H Hs; simpl in H.
  { injection H as <-. split; [done|]. split; [constructor|].
    split; [|done]. by intros k ?%elem_of_nil. }
  apply bind_Ok in H as (h1 & Hp & H). apply bind_Ok in Hp as (W & HW & Hh1).
  unfold deref in HW. destruct (heap !! p) as [W'|] eqn:HpW; [|done].
  injection HW as ->. injection Hh1 as <-.
  destruct (IH _ H (sorted_subscript _ _ _ Hs)) as (I1 & I2 & I3 & I4).
  rewrite (wire_names_cons heap p l W HpW).
  split; [done|]. split; [constructor; [by rewrite HpW|done]|]. split.
  - intros k Hk. destruct (decide (k ∈ wire_names heap l)) as [Hin|Hin].
    { by apply I3. }
    apply elem_of_cons in Hk as [->|Hk]; [|done].
    rewrite (I4 _ Hin), find_subscript by done. by rewrite decide_True.
  - intros k Hk. apply not_elem_of_cons in Hk as [Hne Hk].
    rewrite (I4 _ Hk), find_subscript by done. by rewrite decide_False.
Qed.

Lemma init_history_spec heap l h :
  init_history heap l = Ok h →
  sorted_keys h
  ∧ Forall (λ p, is_Some (heap !! p)) l
  ∧ (∀ k, k ∈ wire_names heap l → find k h = Some [])
  ∧ (∀ k, k ∉ wire_names heap l → find k h = None).
Proof.
  intros H. apply init_history_acc in H; [done|]. constructor.
Qed.

Lemma record_values_spec heap fuel l ctx h ctx' h' :
  record_values heap fuel l (ctx, h) = Ok (ctx', h') →
  cache_ok heap ctx → sorted_keys h → NoDup (wire_names heap l) →
  cache_ok heap ctx' ∧ sorted_keys h'
  ∧ (∀ p W, p ∈ l → heap !! p = Some W →
       ∃ v, wire_val heap p v
            ∧ find (name W) h' = Some (default [] (find (name W) h) ++ [v]))
  ∧ (∀ k, k ∉ wire_names heap l → find k h' = find k h).
Proof.
  revert ctx h. induction l as [|p l IH]; intros ctx h H Hc Hs Hnd;
    unfold record_values in H; simpl in H.
  { injection H as <- <-. split; [done|]. split; [done|].
    split; [|done]. by intros p W ?%elem_of_nil. }
  apply bind_Ok in H as ([ctx1 h1] & Hp & H).
  apply bind_Ok in Hp as ([v ctx2] & Hv & Hp).
  apply bind_Ok in Hp as (W & HW & Hp).
  unfold deref in HW. destruct (heap !! p) as [W'|] eqn:HpW; [|done].
  injection HW as ->. injection Hp as <- <-.
  destruct (wire_value_sound _ _ _ _ _ _ Hc Hv) as [Hval Hc2].
  rewrite (wire_names_cons heap p l W HpW) in Hnd |- *.
  apply NoDup_cons in Hnd as [Hfresh Hnd].
  destruct (IH _ _ H Hc2 (sorted_subscript _ _ _ Hs) Hnd)
    as (I1 & I2 & I3 & I4).
  split; [done|]. split; [done|]. split.
  - intros q Wq Hq HWq. destruct (decide (q ∈ l)) as [Hin|Hin].
    + destruct (I3 q Wq Hin HWq) as (vq & Hvq & Hfind). exists vq.
      split; [done|]. rewrite Hfind, find_subscript by done.
      rewrite decide_False; [done|]. intros Heq. apply Hfresh.
      rewrite <- Heq. apply elem_of_wire_names. eauto.
    + apply elem_of_cons in Hq as [->|Hq]; [|done]. simplify_eq.
      exists v. split; [done|].
      rewrite (I4 _ Hfresh), find_subscript by done. by rewrite decide_True.
  - intros k Hk. apply not_elem_of_cons in Hk as [Hne Hk].
    rewrite (I4 _ Hk), find_subscript by done. by rewrite decide_False.
Qed.

Lemma eval_next_values_spec heap fuel l ctx (nv : gmap positive Z) ctx' nv' :
  eval_next_values heap fuel l (ctx, nv) = Ok (ctx', nv') →
  cache_ok heap ctx →
  cache_ok heap ctx'
  ∧ Forall (λ p, is_Some (heap !! p)) l
  ∧ (∀ p W, p ∈ l → heap !! p = Some W → is_null (next_expr W) = false →
       ∃ v, nv' !! p = Some v ∧ node_val heap (next_expr W) v)
  ∧ (∀ p, (p ∉ l ∨ ∃ W, heap !! p = Some W ∧ is_null (next_expr W) = true) →
       nv' !! p = nv !! p).
Proof.
  revert ctx nv. induction l as [|p l IH]; intros ctx nv H Hc;
    unfold eval_next_values in H; simpl in H.
  { injection H as <- <-. split; [done|]. split; [constructor|].
    split; [|done]. by intros p W ?%elem_of_nil. }
  apply bind_Ok in H as ([ctx1 nv1] & Hp & H).
  apply bind_Ok in Hp as (W & HW & Hp).
  unfold deref in HW. destruct (heap !! p) as [W'|] eqn:HpW; [|done].
  injection HW as ->.
  destruct (is_null (next_expr W)) eqn:Hnull.
  - injection Hp as <- <-.
    destruct (IH _ _ H Hc) as (I1 & I2 & I3 & I4).
    split; [done|]. split; [constructor; [by rewrite HpW|done]|]. split.
    + intros q Wq [->|Hq]%elem_of_cons HWq Hn; [|by eapply I3].
      simplify_eq. congruence.
    + intros q [Hq|Hq]; apply I4; [|by right].
      apply not_elem_of_cons in Hq as [Hne Hq].
      by left.
  - apply bind_Ok in Hp as ([v ctx2] & Hv & [= <- <-]).
    destruct (eval_node_sound _ _ _ _ _ _ Hc Hv) as [Hval Hc2].
    destruct (IH _ _ H Hc2) as (I1 & I2 & I3 & I4).
    split; [done|]. split; [constructor; [by rewrite HpW|done]|]. split.
    + intros q Wq Hq HWq Hn. destruct (decide (q ∈ l)) as [Hin|Hin].
      { by eapply I3. }
      apply elem_of_cons in Hq as [->|Hq]; [|done]. simplify_eq.
      exists v. split; [|done]. rewrite I4 by by left.
      by rewrite lookup_insert_eq.
    + intros q Hq. rewrite I4.
      * rewrite lookup_insert_ne; [done|]. intros <-.
        destruct Hq as [Hq|(Wq & HWq & Hq)]; [set_solver|].
        simplify_eq. congruence.
      * destruct Hq as [Hq|Hq]; [left; set_solver|by right].
Qed.

Lemma commit_all_list kvs heap p :
  NoDup kvs.*1 →
  (∀ v, (p, v) ∈ kvs →
     commit_all kvs heap !! p = set_committed v <$> heap !! p)
  ∧ (p ∉ kvs.*1 → commit_all kvs heap !! p = heap !! p).
Proof.
  revert heap. induction kvs as [|[q u] kvs IH]; intros heap Hnd.
  { split; [by intros v ?%elem_of_nil|done]. }
  simpl in Hnd. apply NoDup_cons in Hnd as [Hq Hnd].
  unfold commit_all. simpl. fold (commit_all kvs (commit heap (q, u))).
  destruct (IH (commit heap (q, u)) Hnd) as [I1 I2]. split.
  - intros v [[= -> ->]|Hin]%elem_of_cons.
    + rewrite (I2 Hq). unfold commit. simpl. by rewrite lookup_alter_eq.
    + rewrite (I1 v Hin). unfold commit. simpl.
      rewrite lookup_alter_ne; [done|]. intros ->. apply Hq.
      apply list_elem_of_fmap. by exists (p, v).
  - intros [Hne Hp]%not_elem_of_cons. rewrite (I2 Hp).
    unfold commit. simpl. by rewrite lookup_alter_ne.
Qed.

(** The commit loop writes each recorded value to its wire, in whatever
    order the map is iterated. *)
Lemma commit_all_lookup U (m : gmap positive Z) heap p :
  commit_all (map_iter U m) heap !! p
  = match m !! p with
    | Some v => set_committed v <$> heap !! p
    | None => heap !! p
    end.
Proof.
  pose proof (map_iter_perm U m) as Hperm.
  assert (NoDup (map_iter U m).*1) as Hnd.
  { rewrite Hperm. apply NoDup_fst_map_to_list. }
  destruct (commit_all_list (map_iter U m) heap p Hnd) as [H1 H2].
  destruct (m !! p) as [v|] eqn:Hp.
  - apply H1. rewrite Hperm. by apply elem_of_map_to_list.
  - apply H2. rewrite Hperm. intros [[q v] [Heq Hin]]%list_elem_of_fmap.
    simpl in Heq. subst q. apply elem_of_map_to_list in Hin. congruence.
Qed.

Lemma record_values_cache heap fuel l ctx h ctx' h' :
  record_values heap fuel l (ctx, h) = Ok (ctx', h') →
  cache_ok heap ctx → cache_ok heap ctx'.
Proof.
  revert ctx h. induction l as [|p l IH]; intros ctx h H Hc;
    unfold record_values in H; simpl in H.
  { by injection H as <- <-. }
  apply bind_Ok in H as ([ctx1 h1] & Hp & H).
  apply bind_Ok in Hp as ([v ctx2] & Hv & Hp).
  apply bind_Ok in Hp as (W & HW & [= <- <-]).
  destruct (wire_value_sound _ _ _ _ _ _ Hc Hv) as [Hval Hc2].
  by eapply IH.
Qed.

(** One iteration of the cycle loop is a clock edge. *)
Lemma cycle_sync_step U fuel l heap h heap' h' :
  cycle U fuel l (heap, h) = Ok (heap', h') → sync_step heap l heap'.
Proof.
  intros H. unfold cycle in H.
  apply bind_Ok in H as ([ctx h1] & Hrec & H).
  apply bind_Ok in H as ([ctx' nv] & Hnext & [= <- <-]).
  pose proof (record_values_cache _ _ _ _ _ _ _ Hrec (cache_ok_empty heap))
    as Hc.
  destruct (eval_next_values_spec _ _ _ _ _ _ _ Hnext Hc)
    as (_ & _ & H1 & H2).
  intros p. rewrite commit_all_lookup.
  destruct (heap !! p) as [W|] eqn:Hp; [|by destruct (nv !! p)].
  destruct (is_null (next_expr W)) eqn:Hnull.
  { rewrite H2 by (right; eauto). rewrite lookup_empty.
    exists (committed_value W). rewrite set_committed_id. split; [done|].
    right. split; [by right|done]. }
  destruct (decide (p ∈ l)) as [Hin|Hin].
  - destruct (H1 p W Hin Hp Hnull) as (v & -> & Hv). exists v. simpl.
    split; [done|]. by left.
  - rewrite H2 by by left. rewrite lookup_empty.
    exists (committed_value W). rewrite set_committed_id. split; [done|].
    right. split; [by left|done].
Qed.

Lemma cycle_history U fuel l heap h heap' h' :
  cycle U fuel l (heap, h) = Ok (heap', h') →
  sorted_keys h → NoDup (wire_names heap l) →
  sorted_keys h'
  ∧ (∀ p W, p ∈ l → heap !! p = Some W →
       ∃ v, wire_val heap p v
            ∧ find (name W) h' = Some (default [] (find (name W) h) ++ [v]))
  ∧ (∀ k, k ∉ wire_names heap l → find k h' = find k h).
Proof.
  intros H Hs Hnd. unfold cycle in H.
  apply bind_Ok in H as ([ctx h1] & Hrec & H).
  apply bind_Ok in H as ([ctx' nv] & Hnext & [= <- <-]).
  by destruct (record_values_spec _ _ _ _ _ _ _ Hrec (cache_ok_empty heap)
                 Hs Hnd) as (_ & ? & ? & ?).
Qed.

Lemma sync_step_names heap l heap' l' :
  sync_step heap l heap' → wire_names heap' l' = wire_names heap l'.
Proof.
  intros H. unfold wire_names. apply list_omap_ext.
  apply Forall2_same_length_lookup. split; [done|].
  intros i p q Hp Hq. assert (p = q) as <- by congruence.
  specialize (H p). destruct (heap !! p) as [W|]; [|by rewrite H].
  destruct H as (v & -> & _). done.
Qed.

Lemma sync_step_frame heap l heap' :
  sync_step heap l heap' → committed_frame l heap heap'.
Proof.
  intros H p. specialize (H p). destruct (heap !! p) as [W|]; [|done].
  destruct H as (v & Hv & [(Hin & _)|(_ & Heq)]); exists v;
    (split; [done|]); by intros ?.
Qed.

Lemma committed_frame_refl l heap : committed_frame l heap heap.
Proof.
  intros p. destruct (heap !! p) as [W|] eqn:Hp; [|done].
  exists (committed_value W). by rewrite set_committed_id.
Qed.

Lemma committed_frame_trans l heap1 heap2 heap3 :
  committed_frame l heap1 heap2 → committed_frame l heap2 heap3 →
  committed_frame l heap1 heap3.
Proof.
  intros H12 H23 p. specialize (H12 p). specialize (H23 p).
  destruct (heap1 !! p) as [W|]; [|by rewrite H12 in H23].
  destruct H12 as (v & Hv & Hf). rewrite Hv in H23.
  destruct H23 as (v' & Hv' & Hf'). exists v'. split; [done|].
  intros Hp. rewrite (Hf' Hp). simpl. by apply Hf.
Qed.

Lemma run_cycles_frame U fuel l n heap h heap' h' :
  run_cycles U fuel l n (heap, h) = Ok (heap', h') →
  committed_frame l heap heap'.
Proof.
  revert heap h. induction n as [|n IH]; intros heap h H; simpl in H.
  { injection H as <- <-. apply committed_frame_refl. }
  apply bind_Ok in H as ([heap1 h1] & Hc & H).
  eapply committed_frame_trans; [|by eapply IH].
  apply sync_step_frame. by eapply cycle_sync_step.
Qed.

Lemma save_state_acc heap l (saved0 saved : gmap positive Z) :
  foldM (λ saved w,
           let* W := deref heap w in Ok (<[w := committed_value W]> saved))
        l saved0 = Ok saved →
  ∀ p, (p ∈ l → ∃ W, heap !! p = Some W
                     ∧ saved !! p = Some (committed_value W))
       ∧ (p ∉ l → saved !! p = saved0 !! p).
Proof.
  revert saved0. induction l as [|q l IH]; intros saved0 H p; simpl in H.
  { injection H as <-. split; [by intros ?%elem_of_nil|done]. }
  apply bind_Ok in H as (s1 & Hq & H). apply bind_Ok in Hq as (W & HW & Hs1).
  unfold deref in HW. destruct (heap !! q) as [W'|] eqn:HqW; [|done].
  injection HW as ->. injection Hs1 as <-.
  destruct (IH _ H p) as [I1 I2]. split.
  - intros Hp. destruct (decide (p ∈ l)) as [Hin|Hin]; [by apply I1|].
    apply elem_of_cons in Hp as [->|Hp]; [|done].
    exists W. split; [done|]. rewrite (I2 Hin). by rewrite lookup_insert_eq.
  - intros [Hne Hp]%not_elem_of_cons. rewrite (I2 Hp).
    by rewrite lookup_insert_ne.
Qed.

Lemma set_committed_twice v v' W :
  set_committed v (set_committed v' W) = set_committed v W.
Proof. done. Qed.

(** The cycle loop: the committed states form a trajectory of clock edges,
    and every wire of the vector gets, appended to its history, its value
    in each of these states in turn. *)
Lemma run_cycles_spec U fuel l n heap h heap' h' :
  run_cycles U fuel l n (heap, h) = Ok (heap', h') →
  sorted_keys h → NoDup (wire_names heap l) →
  (∀ k, k ∈ wire_names heap l → is_Some (find k h)) →
  ∃ states,
    length states = S n
    ∧ states !! 0%nat = Some heap ∧ states !! n = Some heap'
    ∧ trajectory l states
    ∧ sorted_keys h'
    ∧ (∀ p W, p ∈ l → heap !! p = Some W →
         ∃ old vs,
           find (name W) h = Some old
           ∧ find (name W) h' = Some (old ++ vs)
           ∧ length vs = n
           ∧ ∀ i hi, states !! i = Some hi → (i < n)%nat →
               ∃ v, vs !! i = Some v ∧ wire_val hi p v)
    ∧ (∀ k, k ∉ wire_names heap l → find k h' = find k h).
Proof.
  revert heap h. induction n as [|n IH]; intros heap h H Hs Hnd Hkeys;
    simpl in H.
  { injection H as <- <-. exists [heap]. split; [done|]. split; [done|].
    split; [done|]. split; [by intros [|i] ? ? ? ?|]. split; [done|].
    split; [|done]. intros p W Hp HW.
    destruct (Hkeys (name W)) as [old Hold].
    { apply elem_of_wire_names. eauto. }
    exists old, []. rewrite app_nil_r. split; [done|]. split; [done|].
    split; [done|]. intros i hi _ Hi. lia. }
  apply bind_Ok in H as ([heap1 h1] & Hc & H).
  pose proof (cycle_sync_step _ _ _ _ _ _ _ Hc) as Hstep.
  destruct (cycle_history _ _ _ _ _ _ _ Hc Hs Hnd) as (Hs1 & Hh1 & Hf1).
  pose proof (sync_step_names heap l heap1 l Hstep) as Hnames.
  destruct (IH heap1 h1 H Hs1) as (states & Hlen & H0 & Hn & Htraj & Hs'
                                   & Hh' & Hf').
  { by rewrite Hnames. }
  { rewrite Hnames. intros k Hk. pose proof Hk as Hk'.
    apply elem_of_wire_names in Hk as (p & W & Hp & HW & <-).
    destruct (Hh1 p W Hp HW) as (v & _ & ->). eauto. }
  exists (heap :: states). split; [simpl; lia|]. split; [done|].
  split; [done|]. split.
  { intros [|i] hi hi' Hi Hi'; simpl in Hi, Hi'.
    - injection Hi as <-. rewrite H0 in Hi'. by injection Hi' as <-.
    - by eapply Htraj. }
  split; [done|]. split.
  - intros p W Hp HW.
    destruct (Hkeys (name W)) as [old Hold].
    { apply elem_of_wire_names. eauto. }
    destruct (Hh1 p W Hp HW) as (v & Hv & Hfind1).
    rewrite Hold in Hfind1. simpl in Hfind1.
    pose proof (Hstep p) as Hp1. rewrite HW in Hp1.
    destruct Hp1 as (u & HW1 & _).
    destruct (Hh' p _ Hp HW1) as (old1 & vs & Hold1 & Hfind' & Hlenvs & Hvs).
    simpl in Hold1, Hfind'. rewrite Hfind1 in Hold1. injection Hold1 as <-.
    exists old, (v :: vs). split; [done|]. split.
    { by rewrite Hfind', <- app_assoc. }
    split; [simpl; lia|].
    intros [|i] hi Hi Hlt; simpl in Hi.
    + injection Hi as <-. by exists v.
    + apply Hvs; [done|lia].
  - intros k Hk. rewrite Hf' by by rewrite Hnames. by apply Hf1.
Qed.

Lemma trajectory_frame l states heap i hi :
  states !! 0%nat = Some heap → trajectory l states →
  states !! i = Some hi → committed_frame l heap hi.
Proof.
  intros H0 Htraj. revert hi. induction i as [|i IH]; intros hi Hi.
  { rewrite H0 in Hi. injection Hi as <-. apply committed_frame_refl. }
  destruct (states !! i) as [hi'|] eqn:Hi'.
  - eapply committed_frame_trans; [by apply IH|].
    apply sync_step_frame. by eapply Htraj.
  - apply lookup_ge_None in Hi'. apply lookup_lt_Some in Hi. lia.
Qed.

(** [simulate] from line 96 on, against the clock-edge semantics. *)
Lemma simulate_wires_spec U heap fuel l cycles restore_state hist heap' :
  simulate_wires U heap fuel l cycles restore_state = Ok (hist, heap') →
  NoDup (wire_names heap l) →
  ∃ states,
    length states = S (Z.to_nat cycles)
    ∧ states !! 0%nat = Some heap
    ∧ trajectory l states
    ∧ (restore_state = false → states !! Z.to_nat cycles = Some heap')
    ∧ sorted_keys hist
    ∧ (∀ k, k ∈ hist.*1 ↔ k ∈ wire_names heap l)
    ∧ Forall (λ p, is_Some (heap !! p)) l
    ∧ (∀ p W, p ∈ l → heap !! p = Some W →
         ∃ vs, find (name W) hist = Some vs
               ∧ length vs = Z.to_nat cycles
               ∧ ∀ i hi, states !! i = Some hi → (i < Z.to_nat cycles)%nat →
                   ∃ v, vs !! i = Some v ∧ wire_val hi p v).
Proof.
  intros H Hnd. unfold simulate_wires in H.
  apply bind_Ok in H as (saved & _ & H).
  apply bind_Ok in H as (h0 & Hinit & H).
  apply bind_Ok in H as ([heapn h] & Hrun & [= <- <-]).
  destruct (init_history_spec _ _ _ Hinit) as (Hs0 & Hex & Hin0 & Hout0).
  destruct (run_cycles_spec _ _ _ _ _ _ _ _ Hrun Hs0 Hnd)
    as (states & Hlen & H0 & Hn & Htraj & Hs & Hh & Hf).
  { intros k Hk. rewrite (Hin0 k Hk). eauto. }
  exists states. split; [done|]. split; [done|]. split; [done|].
  split; [by intros ->|]. split; [done|]. split; [|split; [done|]].
  - intros k. rewrite <- find_is_Some.
    destruct (decide (k ∈ wire_names heap l)) as [Hk|Hk].
    + split; [done|]. intros _.
      apply elem_of_wire_names in Hk as (p & W & Hp & HW & <-).
      destruct (Hh p W Hp HW) as (old & vs & _ & -> & _). eauto.
    + rewrite (Hf k Hk), (Hout0 k Hk). split; [by intros [? ?]|done].
  - intros p W Hp HW.
    destruct (Hh p W Hp HW) as (old & vs & Hold & Hfind & Hlenvs & Hvs).
    rewrite Hin0 in Hold by (apply elem_of_wire_names; eauto).
    injection Hold as <-. by exists vs.
Qed.

Lemma wire_val_no_comb heap p W v :
  heap !! p = Some W → is_null (comb_expr W) = true →
  wire_val heap p v → v = committed_value W.
Proof.
  intros HW Hnull [F H]. destruct F; simpl in H; unfold deref in H;
    rewrite HW in H; simpl in H; rewrite Hnull in H; congruence.
Qed.

(** ** Independence of the iteration order *)

Lemma foldM_impl {A B} (f g : B → A → outcome B) l acc r :
  (∀ b a r, f b a = Ok r → g b a = Ok r) →
  foldM f l acc = Ok r → foldM g l acc = Ok r.
Proof.
  intros Hfg. revert acc. induction l as [|x l IH]; intros acc H; [done|].
  simpl in H |- *. apply bind_Ok in H as (acc1 & H1 & H).
  rewrite (Hfg _ _ _ H1). simpl. by apply IH.
Qed.

Lemma record_values_mono heap (f f' : nat) l st r :
  (f ≤ f')%nat →
  record_values heap f l st = Ok r → record_values heap f' l st = Ok r.
Proof.
  intros Hle. apply foldM_impl. intros [ctx h] p r' H.
  apply bind_Ok in H as ([v ctx1] & Hv & H).
  by rewrite (wire_value_mono heap f f' _ _ _ Hle Hv).
Qed.

Lemma eval_next_values_mono heap (f f' : nat) l st r :
  (f ≤ f')%nat →
  eval_next_values heap f l st = Ok r → eval_next_values heap f' l st = Ok r.
Proof.
  intros Hle. apply foldM_impl. intros [ctx nv] p r' H.
  apply bind_Ok in H as (W & HW & H). rewrite HW. simpl.
  destruct (is_null (next_expr W)); [done|].
  apply bind_Ok in H as ([v ctx1] & Hv & H).
  by rewrite (eval_node_mono heap f f' _ _ _ Hle Hv).
Qed.

Lemma cycle_mono U (f f' : nat) l st r :
  (f ≤ f')%nat → cycle U f l st = Ok r → cycle U f' l st = Ok r.
Proof.
  intros Hle H. destruct st as [heap h]. unfold cycle in *.
  apply bind_Ok in H as ([ctx h1] & Hrec & H).
  apply bind_Ok in H as ([ctx' nv] & Hnext & H).
  rewrite (record_values_mono heap f f' _ _ _ Hle Hrec). simpl.
  by rewrite (eval_next_values_mono heap f f' _ _ _ Hle Hnext).
Qed.

Lemma run_cycles_mono U (f f' : nat) l n st r :
  (f ≤ f')%nat → run_cycles U f l n st = Ok r → run_cycles U f' l n st = Ok r.
Proof.
  intros Hle. revert st. induction n as [|n IH]; intros st H; [done|].
  simpl in H |- *. apply bind_Ok in H as (st1 & Hc & H).
  rewrite (cycle_mono U f f' _ _ _ Hle Hc). simpl. by apply IH.
Qed.

Lemma simulate_wires_mono U heap (f f' : nat) l cycles restore_state r :
  (f ≤ f')%nat →
  simulate_wires U heap f l cycles restore_state = Ok r →
  simulate_wires U heap f' l cycles restore_state = Ok r.
Proof.
  intros Hle H. unfold simulate_wires in *.
  apply bind_Ok in H as (saved & -> & H). simpl.
  apply bind_Ok in H as (h0 & -> & H). simpl.
  apply bind_Ok in H as ([heapn h] & Hrun & H).
  by rewrite (run_cycles_mono U f f' _ _ _ _ Hle Hrun).
Qed.

Lemma record_values_complete heap l ctx h :
  cache_ok heap ctx →
  (∀ p, p ∈ l → is_Some (heap !! p) ∧ ∃ v, wire_val heap p v) →
  ∃ fuel r, record_values heap fuel l (ctx, h) = Ok r.
Proof.
  revert ctx h. induction l as [|p l IH]; intros ctx h Hc Hl.
  { by exists 0%nat, (ctx, h). }
  destruct (Hl p) as ([W HW] & v & F & Hv); [set_solver|].
  destruct (wire_value_complete heap F p ctx v Hc Hv) as (ctx1 & Hwv & Hc1).
  destruct (IH ctx1 (subscript (λ h, h ++ [v]) (name W) h) Hc1)
    as (F' & r & Hrest).
  { intros q Hq. apply Hl. set_solver. }
  exists (F `max` F')%nat, r. unfold record_values. simpl.
  rewrite (wire_value_mono heap F (F `max` F') _ _ _ ltac:(lia) Hwv). simpl.
  unfold deref. rewrite HW. simpl.
  by apply (record_values_mono heap F' (F `max` F')); [lia|].
Qed.

Lemma eval_next_values_complete heap l ctx (nv : gmap positive Z) :
  cache_ok heap ctx →
  (∀ p, p ∈ l →
     ∃ W, heap !! p = Some W
          ∧ (is_null (next_expr W) = false →
             ∃ v, node_val heap (next_expr W) v)) →
  ∃ fuel r, eval_next_values heap fuel l (ctx, nv) = Ok r.
Proof.
  revert ctx nv. induction l as [|p l IH]; intros ctx nv Hc Hl.
  { by exists 0%nat, (ctx, nv). }
  destruct (Hl p) as (W & HW & Hnext); [set_solver|].
  destruct (is_null (next_expr W)) eqn:Hnull.
  { destruct (IH ctx nv Hc) as (F' & r & Hrest).
    { intros q Hq. apply Hl. set_solver. }
    exists F', r. unfold eval_next_values. simpl. unfold deref.
    rewrite HW. simpl. by rewrite Hnull. }
  destruct (Hnext eq_refl) as (v & F & Hv).
  destruct (eval_node_complete heap F _ ctx v Hc Hv) as (ctx1 & Hev & Hc1).
  destruct (IH ctx1 (<[p := v]> nv) Hc1) as (F' & r & Hrest).
  { intros q Hq. apply Hl. set_solver. }
  exists (F `max` F')%nat, r. unfold eval_next_values. simpl. unfold deref.
  rewrite HW. simpl. rewrite Hnull.
  rewrite (eval_node_mono heap F (F `max` F') _ _ _ ltac:(lia) Hev). simpl.
  by apply (eval_next_values_mono heap F' (F `max` F')); [lia|].
Qed.

Lemma sync_step_det heap l1 l2 heap1 heap2 :
  (∀ p, p ∈ l1 ↔ p ∈ l2) →
  sync_step heap l1 heap1 → sync_step heap l2 heap2 → heap1 = heap2.
Proof.
  intros Hl H1 H2. apply map_eq. intros p.
  specialize (H1 p). specialize (H2 p).
  destruct (heap !! p) as [W|]; [|congruence].
  destruct H1 as (v1 & -> & H1). destruct H2 as (v2 & -> & H2).
  do 2 f_equal.
  destruct H1 as [(I1 & N1 & V1)|([O1|N1] & ->)],
           H2 as [(I2 & N2 & V2)|([O2|N2] & ->)];
    try done; try congruence; try (by apply Hl in I1); try (by apply Hl in I2).
  by eapply node_val_det.
Qed.

Lemma wire_names_perm heap l1 l2 :
  l1 ≡ₚ l2 → wire_names heap l1 ≡ₚ wire_names heap l2.
Proof. intros H. unfold wire_names. by rewrite H. Qed.

(** One iteration of the cycle loop does not depend on the order of the
    vector nor on the order of the map of next values. *)
Lemma cycle_independent U1 U2 f1 l1 l2 heap h heap' h' :
  l1 ≡ₚ l2 → sorted_keys h → NoDup (wire_names heap l1) →
  cycle U1 f1 l1 (heap, h) = Ok (heap', h') →
  ∃ f2, cycle U2 f2 l2 (heap, h) = Ok (heap', h').
Proof.
  intros Hperm Hs Hnd H.
  pose proof (cycle_sync_step _ _ _ _ _ _ _ H) as Hstep.
  destruct (cycle_history _ _ _ _ _ _ _ H Hs Hnd) as (Hs' & Hh & Hf).
  unfold cycle in H.
  apply bind_Ok in H as ([ctx h1] & Hrec & H).
  apply bind_Ok in H as ([ctx' nv] & Hnext & _).
  pose proof (record_values_cache _ _ _ _ _ _ _ Hrec (cache_ok_empty heap))
    as Hc.
  destruct (eval_next_values_spec _ _ _ _ _ _ _ Hnext Hc)
    as (_ & Hex & Hnv & _).
  assert (∀ p, p ∈ l2 → ∃ W, heap !! p = Some W) as Hex2.
  { intros p Hp. rewrite <- Hperm in Hp.
    by apply (proj1 (Forall_forall _ _) Hex p) in Hp as [W ?]; eauto. }
  destruct (record_values_complete heap l2 ∅ h (cache_ok_empty heap))
    as (F & [ctx2 h2] & Hrec2).
  { intros p Hp. destruct (Hex2 p Hp) as [W HW]. split; [by rewrite HW|].
    rewrite <- Hperm in Hp. destruct (Hh p W Hp HW) as (v & Hv & _). eauto. }
  pose proof (record_values_cache _ _ _ _ _ _ _ Hrec2 (cache_ok_empty heap))
    as Hc2.
  destruct (eval_next_values_complete heap l2 ctx2 ∅ Hc2)
    as (F' & [ctx2' nv2] & Hnext2).
  { intros p Hp. destruct (Hex2 p Hp) as [W HW]. exists W. split; [done|].
    intros Hnull. rewrite <- Hperm in Hp.
    destruct (Hnv p W Hp HW Hnull) as (v & _ & Hv). eauto. }
  set (G := (F `max` F')%nat). exists G.
  assert (cycle U2 G l2 (heap, h)
          = Ok (commit_all (map_iter U2 nv2) heap, h2)) as H2.
  { unfold cycle.
    rewrite (record_values_mono heap F G _ _ _ ltac:(lia) Hrec2). simpl.
    by rewrite (eval_next_values_mono heap F' G _ _ _ ltac:(lia) Hnext2). }
  rewrite H2. f_equal. f_equal.
  - symmetry. eapply sync_step_det; [|exact Hstep|by eapply cycle_sync_step].
    intros p. by rewrite Hperm.
  - assert (NoDup (wire_names heap l2)) as Hnd2.
    { by rewrite <- (wire_names_perm heap l1 l2 Hperm). }
    destruct (cycle_history _ _ _ _ _ _ _ H2 Hs Hnd2) as (Hs2 & Hh2 & Hf2).
    apply history_ext; [done|done|]. intros k.
    destruct (decide (k ∈ wire_names heap l1)) as [Hk|Hk].
    + apply elem_of_wire_names in Hk as (p & W & Hp & HW & <-).
      destruct (Hh p W Hp HW) as (v & Hv & ->).
      rewrite Hperm in Hp. destruct (Hh2 p W Hp HW) as (v2 & Hv2 & ->).
      by rewrite (wire_val_det _ _ _ _ Hv Hv2).
    + rewrite (Hf k Hk). rewrite Hf2; [done|].
      by rewrite <- (wire_names_perm heap l1 l2 Hperm).
Qed.

Lemma run_cycles_independent U1 U2 f1 l1 l2 n heap h heap' h' :
  l1 ≡ₚ l2 → sorted_keys h → NoDup (wire_names heap l1) →
  run_cycles U1 f1 l1 n (heap, h) = Ok (heap', h') →
  ∃ f2, run_cycles U2 f2 l2 n (heap, h) = Ok (heap', h').
Proof.
  intros Hperm. revert heap h. induction n as [|n IH]; intros heap h Hs Hnd H.
  { by exists 0%nat. }
  simpl in H. apply bind_Ok in H as ([heap1 h1] & Hc & H).
  destruct (cycle_independent U1 U2 _ _ _ _ _ _ _ Hperm Hs Hnd Hc)
    as [F Hc2].
  destruct (cycle_history _ _ _ _ _ _ _ Hc Hs Hnd) as (Hs1 & _ & _).
  pose proof (sync_step_names heap l1 heap1 l1
                (cycle_sync_step _ _ _ _ _ _ _ Hc)) as Hnames.
  destruct (IH heap1 h1 Hs1) as [F' H2]; [by rewrite Hnames|done|].
  exists (F `max` F')%nat. cbn [run_cycles].
  rewrite (cycle_mono U2 F (F `max` F') _ _ _ ltac:(lia) Hc2). cbn [bind].
  by apply (run_cycles_mono U2 F' (F `max` F')); [lia|].
Qed.

Lemma save_state_total heap l (saved0 : gmap positive Z) :
  (∀ p, p ∈ l → is_Some (heap !! p)) →
  ∃ saved,
    foldM (λ saved w,
             let* W := deref heap w in Ok (<[w := committed_value W]> saved))
          l saved0 = Ok saved.
Proof.
  revert saved0. induction l as [|p l IH]; intros saved0 Hl.
  { by exists saved0. }
  destruct (Hl p) as [W HW]; [set_solver|]. simpl. unfold deref.
  rewrite HW. simpl. apply IH. intros q Hq. apply Hl. set_solver.
Qed.

Lemma save_state_perm heap l1 l2 saved :
  l1 ≡ₚ l2 → save_state heap l1 = Ok saved → save_state heap l2 = Ok saved.
Proof.
  intros Hperm H1. unfold save_state in *.
  destruct (save_state_total heap l2 ∅) as [saved2 H2].
  { intros p Hp. rewrite <- Hperm in Hp.
    destruct (proj1 (save_state_acc _ _ _ _ H1 p) Hp) as (W & -> & _). eauto. }
  rewrite H2. f_equal. apply map_eq. intros p.
  destruct (save_state_acc _ _ _ _ H1 p) as [A1 B1].
  destruct (save_state_acc _ _ _ _ H2 p) as [A2 B2].
  destruct (decide (p ∈ l1)) as [Hp|Hp].
  - destruct (A1 Hp) as (W & HW & ->). rewrite Hperm in Hp.
    destruct (A2 Hp) as (W' & HW' & ->). congruence.
  - rewrite (B1 Hp). rewrite Hperm in Hp. by rewrite (B2 Hp).
Qed.

Lemma init_history_total heap l h0 :
  (∀ p, p ∈ l → is_Some (heap !! p)) →
  ∃ h,
    foldM (λ history w,
             let* W := deref heap w in
             Ok (subscript (λ _, []) (name W) history)) l h0 = Ok h.
Proof.
  revert h0. induction l as [|p l IH]; intros h0 Hl.
  { by exists h0. }
  destruct (Hl p) as [W HW]; [set_solver|]. simpl. unfold deref.
  rewrite HW. simpl. apply IH. intros q Hq. apply Hl. set_solver.
Qed.

Lemma init_history_perm heap l1 l2 h :
  l1 ≡ₚ l2 → init_history heap l1 = Ok h → init_history heap l2 = Ok h.
Proof.
  intros Hperm H1.
  destruct (init_history_spec _ _ _ H1) as (S1 & E1 & A1 & B1).
  destruct (init_history_total heap l2 []) as [h2 H2].
  { intros p Hp. rewrite <- Hperm in Hp.
    by apply (proj1 (Forall_forall _ _) E1). }
  fold (init_history heap l2) in H2. rewrite H2. f_equal.
  destruct (init_history_spec _ _ _ H2) as (S2 & E2 & A2 & B2).
  apply history_ext; [done|done|]. intros k.
  pose proof (wire_names_perm heap l1 l2 Hperm) as Hn.
  destruct (decide (k ∈ wire_names heap l1)) as [Hk|Hk].
  - rewrite (A1 k Hk). rewrite Hn in Hk. by rewrite (A2 k Hk).
  - rewrite (B1 k Hk). rewrite Hn in Hk. by rewrite (B2 k Hk).
Qed.

Lemma commit_all_independent U1 U2 (m : gmap positive Z) heap :
  commit_all (map_iter U1 m) heap = commit_all (map_iter U2 m) heap.
Proof. apply map_eq. intros p. by rewrite !commit_all_lookup. Qed.

(** [simulate] from line 96 on gives the same result for every order of the
    vector and every order of the hash maps. *)
Lemma simulate_wires_independent
    U1 U2 heap f1 l1 l2 cycles restore_state out :
  l1 ≡ₚ l2 → NoDup (wire_names heap l1) →
  simulate_wires U1 heap f1 l1 cycles restore_state = Ok out →
  ∃ f2, ∀ f, (f2 ≤ f)%nat →
    simulate_wires U2 heap f l2 cycles restore_state = Ok out.
Proof.
  intros Hperm Hnd H. unfold simulate_wires in H.
  apply bind_Ok in H as (saved & Hsaved & H).
  apply bind_Ok in H as (h0 & Hinit & H).
  apply bind_Ok in H as ([heapn h] & Hrun & [= <-]).
  destruct (init_history_spec _ _ _ Hinit) as (Hs0 & _).
  destruct (run_cycles_independent U1 U2 _ _ _ _ _ _ _ _ Hperm Hs0 Hnd Hrun)
    as [f2 Hrun2].
  exists f2. intros f Hf. unfold simulate_wires.
  assert ((if restore_state then save_state heap l2 else Ok ∅) = Ok saved)
    as ->.
  { destruct restore_state; [|done]. by apply (save_state_perm heap l1). }
  cbn [bind]. rewrite (init_history_perm heap l1 l2 h0 Hperm Hinit).
  cbn [bind]. rewrite (run_cycles_mono U2 f2 f _ _ _ _ Hf Hrun2).
  cbn [bind]. destruct restore_state; [|done].
  by rewrite (commit_all_independent U1 U2).
Qed.

(** The closure is the same set for every iteration order. *)
Lemma closure_set_independent U1 U2 heap f1 targets R :
  closure_set U1 heap f1 targets = Ok R →
  ∀ f, (2 ≤ f)%nat → (size R ≤ f)%nat →
    closure_set U2 heap f targets = Ok R.
Proof.
  intros H1 f Hf2 Hf.
  destruct (closure_set_post _ _ _ _ _ H1) as (T1 & C1 & D1 & L1).
  destruct (closure_set_total U2 heap f R targets) as [R2 H2];
    [by apply closed_self_contained|done|done|done|].
  destruct (closure_set_post _ _ _ _ _ H2) as (T2 & C2 & D2 & L2).
  rewrite H2. f_equal. apply (anti_symm (⊆)); [by apply L2|by apply L1].
Qed.

(** C9.  When the closure members have distinct names and [simulate]
    returns a result (histories and final wires) under one iteration order
    of its hash containers, it returns the same result under every other
    iteration order, given enough fuel; and so does the part of [simulate]
    after the closure computation when it is run on any reordering of the
    closure vector. *)
Theorem simulate_independent_of_iteration_order
    U1 U2 heap fuel targets cycles restore_state all_wires out :
  closure_from_targets U1 heap fuel targets = Ok all_wires →
  NoDup (wire_names heap all_wires) →
  simulate U1 heap fuel targets cycles restore_state = Ok out →
  (∃ fuel', ∀ f, (fuel' ≤ f)%nat →
     simulate U2 heap f targets cycles restore_state = Ok out)
  ∧ (∀ l2, all_wires ≡ₚ l2 →
       ∃ fuel', ∀ f, (fuel' ≤ f)%nat →
         simulate_wires U2 heap f l2 cycles restore_state = Ok out).
Proof.
  intros Hcl Hnd H. unfold simulate in H. rewrite Hcl in H. cbn [bind] in H.
  split.
  - unfold closure_from_targets in Hcl.
    apply bind_Ok in Hcl as (R & HR & [= <-]).
    destruct (simulate_wires_independent U1 U2 heap fuel
                (set_iter U1 R) (set_iter U2 R) cycles restore_state out)
      as [f2 Hf2]; [|done|done|].
    { by rewrite (set_iter_perm U1 R), (set_iter_perm U2 R). }
    exists (f2 `max` (2 `max` size R))%nat. intros f Hf.
    unfold simulate, closure_from_targets.
    rewrite (closure_set_independent U1 U2 heap fuel targets R HR f)
      by lia.
    cbn [bind]. apply Hf2. lia.
  - intros l2 Hperm.
    by apply (simulate_wires_independent U1 U2 heap fuel all_wires).
Qed.

Lemma simulate_independent_of_iteration_order_witness :
  ∃ fuel', ∀ f, (fuel' ≤ f)%nat →
    simulate rev_iteration Demo.heap f [Some Demo.acc; Some Demo.maxab] 3
      false
    = Ok ([("a", [1; 1; 1]); ("acc", [0; 3; 6]); ("b", [2; 2; 2]);
           ("maxab", [2; 2; 2]); ("sum", [3; 3; 3])],
          <[Demo.acc := mkWire "acc" 9 null
              (make_binary OpType.Add (Demo.ref Demo.acc)
                 (Demo.ref Demo.sum))]> Demo.heap).
Proof.
  refine (proj1 (simulate_independent_of_iteration_order
                   std_iteration rev_iteration Demo.heap 3
                   [Some Demo.acc; Some Demo.maxab] 3 false
                   [Demo.maxab; Demo.sum; Demo.acc; Demo.b; Demo.a] _
                   _ _ _)).
  - vm_compute. reflexivity.
  - change (NoDup ["maxab"; "sum"; "acc"; "b"; "a"]%string).
    repeat (constructor; [set_solver|]). constructor.
  - vm_compute. reflexivity.
Defined.

(** ** Termination on well-formed acyclic circuits *)

Section eval_total.
Context {S : Type}.
Implicit Types (ea eb ec : S → outcome (Z * S)).

Lemma eval_unary_returns f ea : returns ea → returns (eval_unary f ea).
Proof.
  intros Ha s. unfold eval_unary. destruct (Ha s) as [[x s1] ->]. simpl. eauto.
Qed.

Lemma eval_binary_returns f ea eb :
  returns ea → returns eb → returns (eval_binary f ea eb).
Proof.
  intros Ha Hb s. unfold eval_binary. destruct (Ha s) as [[x s1] ->]. simpl.
  destruct (Hb s1) as [[y s2] ->]. simpl. eauto.
Qed.

Lemma eval_divmod_returns f ea eb :
  returns ea → returns eb →
  (∀ s d s1 x s2, eb s = Ok (d, s1) → ea s1 = Ok (x, s2) →
     ¬ (x = Int64.min_signed ∧ d = -1)) →
  returns (eval_divmod f ea eb).
Proof.
  intros Ha Hb Hsafe s. unfold eval_divmod.
  destruct (Hb s) as [[d s1] Hd]. rewrite Hd. simpl.
  case_decide; [eauto|]. destruct (Ha s1) as [[x s2] Hx]. rewrite Hx. simpl.
  rewrite decide_False by by eapply Hsafe. eauto.
Qed.

Lemma division_safe_no_overflow (wv : Wire_ptr → S → outcome (Z * S)) a b :
  constant_other_than (-1) b ∨ constant_other_than Int64.min_signed a →
  ∀ s d s1 x s2,
    eval_node_with wv b s = Ok (d, s1) → eval_node_with wv a s1 = Ok (x, s2) →
    ¬ (x = Int64.min_signed ∧ d = -1).
Proof.
  intros [Hb|Ha] s d s1 x s2 Hd Hx [-> ->].
  - destruct b as [|[] cv ? ? ? ?]; try done. simpl in Hb, Hd.
    by injection Hd as -> _.
  - destruct a as [|[] cv ? ? ? ?]; try done. simpl in Ha, Hx.
    by injection Hx as -> _.
Qed.

Lemma eval_logand_returns ea eb :
  returns ea → returns eb → returns (eval_logand ea eb).
Proof.
  intros Ha Hb s. unfold eval_logand. destruct (Ha s) as [[x s1] ->]. simpl.
  case_decide; [|eauto]. destruct (Hb s1) as [[y s2] ->]. simpl. eauto.
Qed.

Lemma eval_logor_returns ea eb :
  returns ea → returns eb → returns (eval_logor ea eb).
Proof.
  intros Ha Hb s. unfold eval_logor. destruct (Ha s) as [[x s1] ->]. simpl.
  case_decide; [eauto|]. destruct (Hb s1) as [[y s2] ->]. simpl. eauto.
Qed.

Lemma eval_select_returns ea eb ec :
  returns ea → returns eb → returns ec → returns (eval_select ea eb ec).
Proof.
  intros Ha Hb Hc s. unfold eval_select. destruct (Ha s) as [[x s1] ->].
  simpl. case_decide; [apply Hb|apply Hc].
Qed.

Lemma eval_node_with_returns (wv : Wire_ptr → S → outcome (Z * S)) n :
  well_formed n → division_safe n →
  (∀ p, p ∈ refs n → returns (wv (Some p))) →
  returns (eval_node_with wv n).
Proof.
  induction n as [|op cv w a IHa b IHb c IHc]; intros Hwf Hds Hw; [done|].
  destruct Hds as (Hdiv & Hda & Hdb & Hdc).
  assert (op ≠ OpType.WireRef → well_formed a → returns (eval_node_with wv a))
    as Ha.
  { intros Hop Hwfa. apply IHa; [done|done|]. intros p Hp. apply Hw. simpl.
    rewrite decide_False by done. set_solver. }
  assert (op ≠ OpType.WireRef → well_formed b → returns (eval_node_with wv b))
    as Hb.
  { intros Hop Hwfb. apply IHb; [done|done|]. intros p Hp. apply Hw. simpl.
    rewrite decide_False by done. set_solver. }
  assert (op ≠ OpType.WireRef → well_formed c → returns (eval_node_with wv c))
    as Hc.
  { intros Hop Hwfc. apply IHc; [done|done|]. intros p Hp. apply Hw. simpl.
    rewrite decide_False by done. set_solver. }
  destruct op; simpl in Hwf |- *;
    try (specialize (Ha ltac:(done)); specialize (Hb ltac:(done));
         specialize (Hc ltac:(done)));
    try (by intros s; eauto);
    try (apply eval_unary_returns; tauto);
    try (apply eval_binary_returns; tauto);
    try (apply eval_divmod_returns;
         [tauto|tauto|by apply division_safe_no_overflow]);
    try (apply eval_logand_returns; tauto);
    try (apply eval_logor_returns; tauto);
    try (apply eval_select_returns; tauto).
  destruct Hwf as [p ->]. apply Hw. simpl. set_solver.
Qed.
End eval_total.

Lemma wire_value_returns heap rank bound fuel p ctx :
  circuit_ok heap rank bound → no_division_overflow heap →
  p ∈ dom heap → (rank p < fuel)%nat →
  ∃ r, wire_value heap fuel (Some p) ctx = Ok r.
Proof.
  intros Hok Hdiv. revert p ctx.
  induction fuel as [|fuel IH]; intros p ctx Hp Hrank; [lia|].
  apply elem_of_dom in Hp as [W HW]. simpl. unfold deref. rewrite HW. simpl.
  destruct (is_null (comb_expr W)) eqn:Hnull; [eauto|].
  destruct (ctx !! p); [eauto|].
  destruct (eval_node_with_returns (wire_value heap fuel) (comb_expr W))
    with (s := ctx) as [[v ctx1] ->];
    [by eapply ok_comb|by apply (Hdiv p W HW)| |simpl; eauto].
  intros q Hq ctx'. apply IH.
  - apply (ok_no_dangling _ _ _ Hok p W HW). unfold wire_refs. set_solver.
  - pose proof (ok_acyclic _ _ _ Hok p W q HW Hq). lia.
Qed.

Lemma eval_node_returns heap rank fuel n ctx :
  circuit_ok heap rank fuel → no_division_overflow heap →
  well_formed n → division_safe n → refs n ⊆ dom heap →
  ∃ r, eval_node heap fuel n ctx = Ok r.
Proof.
  intros Hok Hheap Hwf Hdiv Hrefs. unfold eval_node.
  apply eval_node_with_returns; [done|done|]. intros p Hp ctx'.
  apply (wire_value_returns heap rank fuel); [done|done|set_solver|].
  apply (ok_rank _ _ _ Hok). set_solver.
Qed.

Lemma committed_frame_ok l heap heap' rank fuel :
  committed_frame l heap heap' → circuit_ok heap rank fuel →
  circuit_ok heap' rank fuel.
Proof.
  intros Hfr Hok.
  assert (∀ p W', heap' !! p = Some W' →
            ∃ W v, heap !! p = Some W ∧ W' = set_committed v W) as Hback.
  { intros p W' HW'. specialize (Hfr p).
    destruct (heap !! p) as [W|]; [|congruence].
    destruct Hfr as (v & Hv & _). exists W, v. split; [done|]. congruence. }
  assert (dom heap' = dom heap) as Hdom.
  { apply set_eq. intros p. rewrite !elem_of_dom. specialize (Hfr p).
    destruct (heap !! p) as [W|].
    - destruct Hfr as (v & -> & _). split; eauto.
    - rewrite Hfr. done. }
  split.
  - intros p W' q HW' Hq. destruct (Hback p W' HW') as (W & v & HW & ->).
    by apply (ok_acyclic _ _ _ Hok p W q).
  - intros p W' HW'. destruct (Hback p W' HW') as (W & v & HW & ->).
    rewrite Hdom. by apply (ok_no_dangling _ _ _ Hok p W).
  - intros p. rewrite Hdom. apply (ok_rank _ _ _ Hok).
  - intros p W' HW'. destruct (Hback p W' HW') as (W & v & HW & ->).
    by apply (ok_comb _ _ _ Hok p W).
  - intros p W' HW'. destruct (Hback p W' HW') as (W & v & HW & ->).
    by apply (ok_next _ _ _ Hok p W).
Qed.

Lemma committed_frame_division l heap heap' :
  committed_frame l heap heap' → no_division_overflow heap →
  no_division_overflow heap'.
Proof.
  intros Hfr Hdiv p W' HW'. specialize (Hfr p).
  destruct (heap !! p) as [W|] eqn:HW; [|congruence].
  destruct Hfr as (v & Hv & _). rewrite Hv in HW'. injection HW' as <-.
  apply (Hdiv p W HW).
Qed.

Lemma committed_frame_dom l heap heap' p :
  committed_frame l heap heap' → p ∈ dom heap → p ∈ dom heap'.
Proof.
  intros Hfr [W HW]%elem_of_dom. specialize (Hfr p). rewrite HW in Hfr.
  destruct Hfr as (v & Hv & _). apply elem_of_dom. eauto.
Qed.

Lemma record_values_returns heap rank fuel l st :
  circuit_ok heap rank fuel → no_division_overflow heap →
  (∀ p, p ∈ l → p ∈ dom heap) →
  ∃ r, record_values heap fuel l st = Ok r.
Proof.
  intros Hok Hdiv. revert st. induction l as [|p l IH]; intros [ctx h] Hl.
  { by exists (ctx, h). }
  unfold record_values. simpl.
  destruct (wire_value_returns heap rank fuel fuel p ctx Hok Hdiv)
    as [[v ctx1] ->]; [apply Hl; set_solver| |].
  { apply (ok_rank _ _ _ Hok). apply Hl. set_solver. }
  simpl. assert (p ∈ dom heap) as [W HW]%elem_of_dom by (apply Hl; set_solver).
  unfold deref. rewrite HW. simpl. apply IH. intros q Hq. apply Hl. set_solver.
Qed.

Lemma eval_next_values_returns heap rank fuel l st :
  circuit_ok heap rank fuel → no_division_overflow heap →
  (∀ p, p ∈ l → p ∈ dom heap) →
  ∃ r, eval_next_values heap fuel l st = Ok r.
Proof.
  intros Hok Hdiv. revert st. induction l as [|p l IH]; intros [ctx nv] Hl.
  { by exists (ctx, nv). }
  unfold eval_next_values. simpl.
  assert (p ∈ dom heap) as [W HW]%elem_of_dom by (apply Hl; set_solver).
  unfold deref. rewrite HW. simpl.
  destruct (is_null (next_expr W)) eqn:Hnull.
  { apply IH. intros q Hq. apply Hl. set_solver. }
  destruct (eval_node_returns heap rank fuel (next_expr W) ctx Hok Hdiv)
    as [[v ctx1] ->]; [by eapply ok_next|by apply (Hdiv p W HW)| |].
  { pose proof (ok_no_dangling _ _ _ Hok p W HW). unfold wire_refs in *.
    set_solver. }
  simpl. apply IH. intros q Hq. apply Hl. set_solver.
Qed.

Lemma run_cycles_returns U heap rank fuel l n h :
  circuit_ok heap rank fuel → no_division_overflow heap →
  (∀ p, p ∈ l → p ∈ dom heap) →
  ∃ r, run_cycles U fuel l n (heap, h) = Ok r.
Proof.
  revert heap h. induction n as [|n IH]; intros heap h Hok Hdiv Hl.
  { by exists (heap, h). }
  cbn [run_cycles].
  destruct (record_values_returns heap rank fuel l (∅, h) Hok Hdiv Hl)
    as [[ctx h1] Hrec].
  destruct (eval_next_values_returns heap rank fuel l (ctx, ∅) Hok Hdiv Hl)
    as [[ctx' nv] Hnext].
  assert (cycle U fuel l (heap, h)
          = Ok (commit_all (map_iter U nv) heap, h1)) as Hc.
  { unfold cycle. rewrite Hrec. simpl. by rewrite Hnext. }
  rewrite Hc. cbn [bind].
  pose proof (sync_step_frame _ _ _ (cycle_sync_step _ _ _ _ _ _ _ Hc))
    as Hfr.
  apply IH;
    [by eapply committed_frame_ok|by eapply committed_frame_division|].
  intros p Hp. eapply committed_frame_dom; [done|]. by apply Hl.
Qed.

(** On a well-formed acyclic circuit in which no division can overflow,
    with valid targets and enough fuel, [simulate] returns. *)
Lemma simulate_returns U heap rank fuel targets cycles restore_state :
  circuit_ok heap rank fuel → no_division_overflow heap →
  (∀ p, Some p ∈ targets → p ∈ dom heap) →
  (2 ≤ fuel)%nat → (size heap ≤ fuel)%nat →
  ∃ out, simulate U heap fuel targets cycles restore_state = Ok out.
Proof.
  intros Hok Hdiv Ht Hf2 Hf.
  destruct (closure_set_total U heap fuel (dom heap) targets) as [R HR];
    [apply no_dangling_self_contained, (ok_no_dangling _ _ _ Hok)|done|done
    |by rewrite size_dom|].
  destruct (closure_set_post _ _ _ _ _ HR) as (_ & _ & Hdom & _).
  unfold simulate, closure_from_targets. rewrite HR. cbn [bind].
  assert (∀ p, p ∈ set_iter U R → p ∈ dom heap) as Hl.
  { intros p Hp%elem_of_set_iter. by apply Hdom. }
  assert (∀ p, p ∈ set_iter U R → is_Some (heap !! p)) as Hl'.
  { intros p Hp. by apply elem_of_dom, Hl. }
  unfold simulate_wires.
  destruct (save_state_total heap (set_iter U R) ∅ Hl') as [saved Hsaved].
  assert ((if restore_state then save_state heap (set_iter U R) else Ok ∅)
          = Ok (if restore_state then saved else ∅)) as ->.
  { by destruct restore_state. }
  cbn [bind].
  destruct (init_history_total heap (set_iter U R) [] Hl') as [h0 Hinit].
  fold (init_history heap (set_iter U R)) in Hinit. rewrite Hinit. cbn [bind].
  destruct (run_cycles_returns U heap rank fuel (set_iter U R)
              (Z.to_nat cycles) h0 Hok Hdiv Hl) as [[heapn h] ->].
  cbn [bind]. eauto.
Qed.

Lemma demo_circuit_ok : circuit_ok Demo.heap Demo.rank 5.
Proof.
  split.
  - apply demo_acyclic.
  - apply demo_no_dangling.
  - intros p _. unfold Demo.rank. case_decide; lia.
  - intros p W Hp Hnull. unfold Demo.heap in Hp.
    repeat (rewrite lookup_insert in Hp; case_decide;
            [subst p; injection Hp as <-; try done; cbn; eauto 10|]).
    by rewrite lookup_empty in Hp.
  - intros p W Hp Hnull. unfold Demo.heap in Hp.
    repeat (rewrite lookup_insert in Hp; case_decide;
            [subst p; injection Hp as <-; try done; cbn; eauto 10|]).
    by rewrite lookup_empty in Hp.
Qed.

Lemma demo_no_division_overflow : no_division_overflow Demo.heap.
Proof.
  intros p W Hp. unfold Demo.heap in Hp.
  repeat (rewrite lookup_insert in Hp; case_decide;
          [subst p; injection Hp as <-; cbn; tauto|]).
  by rewrite lookup_empty in Hp.
Qed.

(** * The claims about [simulate] *)

(** C2.  When [simulate] is called with [restore_state = true] and returns,
    it leaves every wire as it found it; in particular the committed value
    of every wire of the dependency closure is the one before the call, for
    any number of cycles and however many commits happened.  On a
    well-formed acyclic circuit in which no division can overflow, with
    valid targets and enough fuel, it does return. *)
Theorem restore_state_restores U heap fuel targets cycles :
  (∀ history heap',
     simulate U heap fuel targets cycles true = Ok (history, heap') →
     heap' = heap
     ∧ ∀ all_wires p,
         closure_from_targets U heap fuel targets = Ok all_wires →
         p ∈ all_wires →
         committed_value <$> heap' !! p = committed_value <$> heap !! p)
  ∧ (∀ rank,
       circuit_ok heap rank fuel → no_division_overflow heap →
       (∀ p, Some p ∈ targets → p ∈ dom heap) →
       (2 ≤ fuel)%nat → (size heap ≤ fuel)%nat →
       ∃ history, simulate U heap fuel targets cycles true
                  = Ok (history, heap)).
Proof.
  assert (∀ history heap',
     simulate U heap fuel targets cycles true = Ok (history, heap') →
     heap' = heap) as Hrestore.
  { intros history heap' H.
    unfold simulate in H. apply bind_Ok in H as (l & _ & H).
    unfold simulate_wires in H.
    apply bind_Ok in H as (saved & Hsaved & H).
    apply bind_Ok in H as (h0 & _ & H).
    apply bind_Ok in H as ([heapn h] & Hrun & [= <- <-]).
    pose proof (run_cycles_frame _ _ _ _ _ _ _ _ Hrun) as Hframe.
    apply map_eq. intros p. rewrite commit_all_lookup.
    destruct (save_state_acc heap l ∅ saved Hsaved p) as [S1 S2].
    specialize (Hframe p).
    destruct (decide (p ∈ l)) as [Hin|Hin].
    - destruct (S1 Hin) as (W & HW & ->). rewrite HW in Hframe |- *.
      destruct Hframe as (v & -> & _). simpl.
      by rewrite set_committed_twice, set_committed_id.
    - rewrite (S2 Hin), lookup_empty.
      destruct (heap !! p) as [W|]; [|done].
      destruct Hframe as (v & -> & Hv).
      by rewrite (Hv Hin), set_committed_id. }
  split.
  - intros history heap' H. by rewrite (Hrestore _ _ H).
  - intros rank Hok Hdiv Ht Hf2 Hf.
    destruct (simulate_returns U heap rank fuel targets cycles true
                Hok Hdiv Ht Hf2 Hf) as [[history heap'] H].
    exists history. by rewrite <- (Hrestore _ _ H) at 2.
Qed.

Lemma restore_state_restores_witness :
  (∃ history heap',
     simulate std_iteration Demo.heap 3 [Some Demo.acc] 4 true
     = Ok (history, heap')
     ∧ find "acc" history = Some [0; 3; 6; 9]
     ∧ heap' = Demo.heap)
  ∧ ∃ history,
      simulate rev_iteration Demo.heap 5 [Some Demo.acc; None] 100 true
      = Ok (history, Demo.heap).
Proof.
  split.
  - assert (simulate std_iteration Demo.heap 3 [Some Demo.acc] 4 true
            = Ok ([("a", [1; 1; 1; 1]); ("acc", [0; 3; 6; 9]);
                   ("b", [2; 2; 2; 2]); ("sum", [3; 3; 3; 3])], Demo.heap))
      as H by (vm_compute; reflexivity).
    eexists _, _. split; [exact H|]. split; [reflexivity|].
    exact (proj1 (proj1 (restore_state_restores _ _ _ _ _) _ _ H)).
  - apply (proj2 (restore_state_restores rev_iteration Demo.heap 5
                    [Some Demo.acc; None] 100) Demo.rank demo_circuit_ok
             demo_no_division_overflow).
    + intros p [[= ->]|[?|?%elem_of_nil]%elem_of_cons]%elem_of_cons;
        [|done|done].
      unfold Demo.heap. rewrite !dom_insert_L. set_solver.
    + lia.
    + vm_compute. lia.
Defined.

Lemma simulate_returns_closure U heap rank fuel targets cycles restore_state :
  circuit_ok heap rank fuel → no_division_overflow heap →
  (∀ p, Some p ∈ targets → p ∈ dom heap) →
  (2 ≤ fuel)%nat → (size heap ≤ fuel)%nat →
  ∃ all_wires hist heap',
    closure_from_targets U heap fuel targets = Ok all_wires
    ∧ simulate U heap fuel targets cycles restore_state = Ok (hist, heap').
Proof.
  intros Hok Hdiv Ht Hf2 Hf.
  destruct (simulate_returns U heap rank fuel targets cycles restore_state
              Hok Hdiv Ht Hf2 Hf) as [[hist heap'] H].
  pose proof H as H'. unfold simulate in H'.
  apply bind_Ok in H' as (all_wires & Hcl & _). by exists all_wires, hist, heap'.
Qed.

(** C7, as amended.  When the members of the dependency closure have
    pairwise distinct names and [cycles >= 0], the map returned by
    [simulate] has exactly the names of the closure members as keys, in
    strictly ascending lexicographic order, and every key maps to exactly
    [cycles] values; with no targets the map is empty.  On a well-formed
    acyclic circuit in which no division can overflow, with valid targets
    and enough fuel, [simulate] does return a map. *)
Theorem history_sorted_by_name_with_cycles_values
    U heap fuel targets cycles restore_state :
  (∀ all_wires hist heap',
     closure_from_targets U heap fuel targets = Ok all_wires →
     simulate U heap fuel targets cycles restore_state = Ok (hist, heap') →
     NoDup (wire_names heap all_wires) → 0 <= cycles →
     sorted_keys hist
     ∧ (∀ k, k ∈ hist.*1 ↔ k ∈ wire_names heap all_wires)
     ∧ (∀ k vs, find k hist = Some vs → Z.of_nat (length vs) = cycles)
     ∧ (targets = [] → hist = []))
  ∧ (∀ rank,
       circuit_ok heap rank fuel → no_division_overflow heap →
       (∀ p, Some p ∈ targets → p ∈ dom heap) →
       (2 ≤ fuel)%nat → (size heap ≤ fuel)%nat →
       ∃ all_wires hist heap',
         closure_from_targets U heap fuel targets = Ok all_wires
         ∧ simulate U heap fuel targets cycles restore_state
           = Ok (hist, heap')).
Proof.
  split; [|intros rank; apply simulate_returns_closure].
  intros all_wires hist heap' Hcl H Hnd Hcycles.
  unfold simulate in H. rewrite Hcl in H. simpl in H.
  destruct (simulate_wires_spec _ _ _ _ _ _ _ _ H Hnd)
    as (states & _ & _ & _ & _ & Hs & Hkeys & _ & Hh).
  split; [done|]. split; [done|]. split.
  - intros k vs Hfind.
    assert (k ∈ wire_names heap all_wires) as Hk.
    { apply Hkeys, find_is_Some. by rewrite Hfind. }
    apply elem_of_wire_names in Hk as (p & W & Hp & HW & <-).
    destruct (Hh p W Hp HW) as (vs' & Hfind' & Hlen & _).
    rewrite Hfind in Hfind'. injection Hfind' as <-. lia.
  - intros ->.
    assert (all_wires = []) as ->.
    { unfold closure_from_targets, closure_set in Hcl.
      change (insert_targets []) with (∅ : gset positive) in Hcl.
      rewrite closure_loop_empty in Hcl. simpl in Hcl.
      rewrite set_iter_empty in Hcl. by injection Hcl as <-. }
    rewrite simulate_wires_nil in H. by injection H as <- <-.
Qed.

Lemma history_sorted_by_name_with_cycles_values_witness :
  (sorted_keys [("a", [1; 1]); ("acc", [0; 3]); ("b", [2; 2]);
                ("sum", [3; 3])]
   ∧ ∀ k vs,
       find k [("a", [1; 1]); ("acc", [0; 3]); ("b", [2; 2]);
               ("sum", [3; 3])] = Some vs →
       Z.of_nat (length vs) = 2)
  ∧ ∃ all_wires hist heap',
      closure_from_targets rev_iteration Demo.heap 5 [Some Demo.maxab]
      = Ok all_wires
      ∧ simulate rev_iteration Demo.heap 5 [Some Demo.maxab] 7 false
        = Ok (hist, heap').
Proof.
  split.
  - assert (closure_from_targets std_iteration Demo.heap 3 [Some Demo.acc]
            = Ok [Demo.sum; Demo.acc; Demo.b; Demo.a]) as Hcl
      by (vm_compute; reflexivity).
    assert (simulate std_iteration Demo.heap 3 [Some Demo.acc] 2 false
            = Ok ([("a", [1; 1]); ("acc", [0; 3]); ("b", [2; 2]);
                   ("sum", [3; 3])],
                  <[Demo.acc := mkWire "acc" 6 null
                      (make_binary OpType.Add (Demo.ref Demo.acc)
                         (Demo.ref Demo.sum))]> Demo.heap)) as H
      by (vm_compute; reflexivity).
    assert (NoDup (wire_names Demo.heap
                     [Demo.sum; Demo.acc; Demo.b; Demo.a])) as Hnd.
    { change (NoDup ["sum"; "acc"; "b"; "a"]%string).
      repeat (constructor; [set_solver|]). constructor. }
    destruct (proj1 (history_sorted_by_name_with_cycles_values _ _ _ _ _ _)
                _ _ _ Hcl H Hnd ltac:(lia)) as (Hs & _ & Hlen & _).
    exact (conj Hs Hlen).
  - apply (proj2 (history_sorted_by_name_with_cycles_values rev_iteration
                    Demo.heap 5 [Some Demo.maxab] 7 false)
             Demo.rank demo_circuit_ok demo_no_division_overflow).
    + intros p [[= ->]|?%elem_of_nil]%elem_of_cons; [|done].
      unfold Demo.heap. rewrite !dom_insert_L. set_solver.
    + lia.
    + vm_compute. lia.
Defined.

(** C7 as stated fails: two wires named ["a"] share one key, which gets two
    values in the single cycle. *)
Lemma history_lengths_counterexample :
  ∃ hist heap',
    simulate std_iteration Demo.twins 2
      [Some 1%positive; Some 2%positive] 1 true = Ok (hist, heap')
    ∧ find "a" hist = Some [0; 0]
    ∧ Z.of_nat (length [0; 0]) ≠ 1.
Proof.
  exists [("a", [0; 0])], Demo.twins.
  split; [vm_compute; reflexivity|]. split; [reflexivity|]. simpl. lia.
Qed.

(** C1, as amended.  When the closure members have distinct names and
    [simulate] returns, there are committed states, one per cycle and one
    after the last, that start with the state before the call and of which
    each is the clock edge after the one before: every registered root of
    the closure evaluated in the state of the cycle (combinational results
    included), all results committed together.  For every closure member
    [s] with a registered definition and no combinational definition, the
    entry [i+1] of its history is its registered root evaluated in the
    state of cycle [i].  On a well-formed acyclic circuit in which no
    division can overflow, with valid targets and enough fuel, [simulate]
    does return. *)
Theorem registered_value_visible_one_cycle_later
    U heap fuel targets cycles restore_state :
  (∀ all_wires hist heap',
     closure_from_targets U heap fuel targets = Ok all_wires →
     simulate U heap fuel targets cycles restore_state = Ok (hist, heap') →
     NoDup (wire_names heap all_wires) →
     ∃ states,
       length states = S (Z.to_nat cycles)
       ∧ states !! 0%nat = Some heap
       ∧ trajectory all_wires states
       ∧ ∀ s W i hi,
           s ∈ all_wires → heap !! s = Some W →
           is_null (next_expr W) = false → is_null (comb_expr W) = true →
           states !! i = Some hi → (S i < Z.to_nat cycles)%nat →
           ∃ vs v, find (name W) hist = Some vs
                   ∧ vs !! S i = Some v
                   ∧ node_val hi (next_expr W) v)
  ∧ (∀ rank,
       circuit_ok heap rank fuel → no_division_overflow heap →
       (∀ p, Some p ∈ targets → p ∈ dom heap) →
       (2 ≤ fuel)%nat → (size heap ≤ fuel)%nat →
       ∃ all_wires hist heap',
         closure_from_targets U heap fuel targets = Ok all_wires
         ∧ simulate U heap fuel targets cycles restore_state
           = Ok (hist, heap')).
Proof.
  split; [|intros rank; apply simulate_returns_closure].
  intros all_wires hist heap' Hcl H Hnd.
  unfold simulate in H. rewrite Hcl in H. simpl in H.
  destruct (simulate_wires_spec _ _ _ _ _ _ _ _ H Hnd)
    as (states & Hlen & H0 & Htraj & _ & _ & _ & _ & Hh).
  exists states. split; [done|]. split; [done|]. split; [done|].
  intros s W i hi Hs HW Hnext Hcomb Hi Hlt.
  destruct (Hh s W Hs HW) as (vs & Hfind & Hlenvs & Hvs).
  destruct (states !! S i) as [hi'|] eqn:Hi'.
  2: { apply lookup_ge_None in Hi'. lia. }
  destruct (Hvs (S i) hi' Hi' Hlt) as (v & Hv & Hval).
  exists vs, v. split; [done|]. split; [done|].
  pose proof (trajectory_frame _ _ _ _ _ H0 Htraj Hi s) as Hfr.
  rewrite HW in Hfr. destruct Hfr as (u & HWi & _).
  pose proof (Htraj i hi hi' Hi Hi' s) as Hstep. rewrite HWi in Hstep.
  destruct Hstep as (v' & HWi' & [(_ & _ & Hnv)|([Hout|Hn] & _)]).
  - simpl in Hnv.
    by rewrite (wire_val_no_comb hi' s _ v HWi' Hcomb Hval).
  - done.
  - simpl in Hn. congruence.
Qed.

Lemma registered_value_visible_one_cycle_later_witness :
  (∃ states,
     length states = 5%nat
     ∧ states !! 0%nat = Some Demo.heap
     ∧ trajectory [Demo.sum; Demo.acc; Demo.b; Demo.a] states
     ∧ ∀ hi, states !! 1%nat = Some hi →
         ∃ vs v, find "acc"
                   [("a", [1; 1; 1; 1]); ("acc", [0; 3; 6; 9]);
                    ("b", [2; 2; 2; 2]); ("sum", [3; 3; 3; 3])] = Some vs
                 ∧ vs !! 2%nat = Some v
                 ∧ node_val hi
                     (make_binary OpType.Add (Demo.ref Demo.acc)
                        (Demo.ref Demo.sum)) v)
  ∧ ∃ all_wires hist heap',
      closure_from_targets rev_iteration Demo.heap 5 [Some Demo.acc]
      = Ok all_wires
      ∧ simulate rev_iteration Demo.heap 5 [Some Demo.acc] 4 false
        = Ok (hist, heap').
Proof.
  split.
  - assert (closure_from_targets std_iteration Demo.heap 3 [Some Demo.acc]
            = Ok [Demo.sum; Demo.acc; Demo.b; Demo.a]) as Hcl
      by (vm_compute; reflexivity).
    assert (simulate std_iteration Demo.heap 3 [Some Demo.acc] 4 true
            = Ok ([("a", [1; 1; 1; 1]); ("acc", [0; 3; 6; 9]);
                   ("b", [2; 2; 2; 2]); ("sum", [3; 3; 3; 3])], Demo.heap))
      as H by (vm_compute; reflexivity).
    assert (NoDup (wire_names Demo.heap
                     [Demo.sum; Demo.acc; Demo.b; Demo.a])) as Hnd.
    { change (NoDup ["sum"; "acc"; "b"; "a"]%string).
      repeat (constructor; [set_solver|]). constructor. }
    destruct (proj1 (registered_value_visible_one_cycle_later _ _ _ _ _ _)
                _ _ _ Hcl H Hnd) as (states & Hlen & H0 & Htraj & Hreg).
    exists states. split; [done|]. split; [done|]. split; [done|].
    intros hi Hi.
    apply (Hreg Demo.acc
             (mkWire "acc" 0 null
                (make_binary OpType.Add (Demo.ref Demo.acc)
                   (Demo.ref Demo.sum))) 1%nat hi);
      [set_solver|reflexivity|reflexivity|reflexivity|done|].
    change (Z.to_nat 4) with 4%nat. lia.
  - apply (proj2 (registered_value_visible_one_cycle_later rev_iteration
                    Demo.heap 5 [Some Demo.acc] 4 false)
             Demo.rank demo_circuit_ok demo_no_division_overflow).
    + intros p Hp. apply list_elem_of_singleton in Hp as [= ->].
      unfold Demo.heap. rewrite !dom_insert_L. set_solver.
    + lia.
    + vm_compute. lia.
Defined.

(** C1 as stated fails for a wire that has a combinational definition next
    to its registered one: with [s = 5] and [s << 7] the history of [s]
    shows the combinational value in every cycle, while the registered root
    evaluates to 7. *)
Lemma registered_value_counterexample :
  ∃ hist heap' W,
    simulate std_iteration Demo.both 1 [Some 1%positive] 2 true
    = Ok (hist, heap')
    ∧ Demo.both !! 1%positive = Some W
    ∧ is_null (next_expr W) = false
    ∧ node_val Demo.both (next_expr W) 7
    ∧ find (name W) hist = Some [5; 5]
    ∧ [5; 5] !! 1%nat ≠ Some 7.
Proof.
  exists [("s", [5; 5])], Demo.both,
    (mkWire "s" 0 (Expr_const 5) (Expr_const 7)).
  split; [vm_compute; reflexivity|]. split; [reflexivity|].
  split; [reflexivity|]. split; [by exists 0%nat|]. split; [reflexivity|].
  done.
Qed.

(** * Further properties of the evaluator *)

(** X1.  The logical operators short-circuit: when the left operand of a
    logical-and node evaluates to 0 the node returns 0, and when the left
    operand of a logical-or node evaluates to a nonzero value the node
    returns 1, in both cases in the context the left operand left and
    whatever the right operand is (it is not evaluated). *)
Theorem logical_operators_short_circuit heap fuel cv w a b c ctx x ctx1 :
  eval_node heap fuel a ctx = Ok (x, ctx1) →
  (x = 0 →
   eval_node heap fuel (node OpType.LogAnd cv w a b c) ctx = Ok (0, ctx1))
  ∧ (x ≠ 0 →
     eval_node heap fuel (node OpType.LogOr cv w a b c) ctx = Ok (1, ctx1)).
Proof.
  unfold eval_node. intros Ha. split; intros Hx; simpl;
    unfold eval_logand, eval_logor; rewrite Ha; simpl; unfold truthy;
    repeat case_decide; done.
Qed.

Lemma logical_operators_short_circuit_witness :
  eval_node Demo.looping 1
    (make_binary OpType.LogAnd (Expr_const 0) (Demo.ref Demo.loop)) ∅
  = Ok (0, ∅)
  ∧ eval_node Demo.looping 1
      (make_binary OpType.LogOr (Demo.ref Demo.b) null) ∅
    = Ok (1, {[Demo.b := 2]}).
Proof.
  split.
  - apply (proj1 (logical_operators_short_circuit Demo.looping 1 0 None
                    (Expr_const 0) (Demo.ref Demo.loop) null ∅ 0 ∅
                    eq_refl)).
    reflexivity.
  - assert (eval_node Demo.looping 1 (Demo.ref Demo.b) ∅
            = Ok (2, {[Demo.b := 2]})) as H by (vm_compute; reflexivity).
    apply (proj2 (logical_operators_short_circuit Demo.looping 1 0 None
                    (Demo.ref Demo.b) null null ∅ 2 {[Demo.b := 2]} H)).
    lia.
Defined.

Lemma b2z_boolean (b : bool) : Z.b2z b = 0 ∨ Z.b2z b = 1.
Proof. destruct b; auto. Qed.

(** X2.  The logical and the comparison nodes return 0 or 1, whatever
    their operands evaluate to. *)
Theorem logical_and_comparison_results_are_boolean
    heap fuel op cv w a b c ctx v ctx' :
  op ∈ [OpType.LogAnd; OpType.LogOr; OpType.LogNot; OpType.Eq; OpType.Ne;
        OpType.Lt; OpType.Le; OpType.Gt; OpType.Ge] →
  eval_node heap fuel (node op cv w a b c) ctx = Ok (v, ctx') →
  v = 0 ∨ v = 1.
Proof.
  unfold eval_node. intros Hop H.
  repeat (apply elem_of_cons in Hop as [->|Hop]);
    [..|by apply elem_of_nil in Hop]; simpl in H;
    unfold eval_logand, eval_logor, eval_unary, eval_binary in H;
    apply bind_Ok in H as ([x s] & Hx & H);
    try (apply bind_Ok in H as ([y t] & Hy & H));
    try case_decide;
    try (apply bind_Ok in H as ([y t] & Hy & H));
    injection H as <- <-; auto using b2z_boolean.
Qed.

Lemma logical_and_comparison_results_are_boolean_witness :
  (1 = 0 ∨ 1 = 1).
Proof.
  apply (logical_and_comparison_results_are_boolean Demo.heap 1 OpType.Lt
           0 None (Expr_const (-7)) (Demo.ref Demo.b) null ∅ 1
           {[Demo.b := 2]}).
  - set_solver.
  - vm_compute. reflexivity.
Defined.

(** X3.  Reading a wire a second time in the same cycle is a cache hit:
    after [wire_value] has returned [v] for a wire, from a context that
    caches values of combinational roots, [wire_value] on the context it
    left returns [v] again, leaves the context as it is, and does not
    recurse (no fuel is needed). *)
Theorem wire_value_again_is_a_cache_hit heap fuel p ctx v ctx' :
  cache_ok heap ctx →
  wire_value heap fuel (Some p) ctx = Ok (v, ctx') →
  wire_value heap 0 (Some p) ctx' = Ok (v, ctx').
Proof.
  intros Hc H.
  destruct (wire_value_sound _ _ _ _ _ _ Hc H) as [Hv Hc'].
  destruct fuel as [|fuel]; simpl in H |- *; unfold deref in H |- *;
    destruct (heap !! p) as [W|] eqn:HW; simpl in H |- *; try done;
    destruct (is_null (comb_expr W)) eqn:Hnull;
    try (by injection H as <- <-);
    destruct (ctx !! p) as [u|] eqn:Hp;
    try (by injection H as <- <-; rewrite Hp); try done.
  apply bind_Ok in H as ([v1 ctx1] & He & [= <- <-]).
  unfold emplace. destruct (ctx1 !! p) as [u|] eqn:Hp1.
  - rewrite Hp1. destruct Hc' as [F Hc']. unfold emplace in Hc'.
    rewrite Hp1 in Hc'. destruct (Hc' p u Hp1) as [_ Hu].
    by rewrite (wire_val_det heap p v1 u Hv (ex_intro _ F Hu)).
  - by rewrite lookup_insert_eq.
Qed.

Lemma wire_value_again_is_a_cache_hit_witness :
  wire_value Demo.heap 0 (Some Demo.sum)
    {[Demo.a := 1; Demo.b := 2; Demo.sum := 3]}
  = Ok (3, {[Demo.a := 1; Demo.b := 2; Demo.sum := 3]}).
Proof.
  apply (wire_value_again_is_a_cache_hit Demo.heap 2 Demo.sum ∅ 3
           {[Demo.a := 1; Demo.b := 2; Demo.sum := 3]}
           (cache_ok_empty _)).
  vm_compute. reflexivity.
Defined.

(** * Further properties of [simulate] *)

Lemma wire_val_comb heap p W v :
  heap !! p = Some W → is_null (comb_expr W) = false →
  wire_val heap p v → node_val heap (comb_expr W) v.
Proof.
  intros HW Hnull [F H]. destruct F as [|F]; simpl in H; unfold deref in H;
    rewrite HW in H; simpl in H; rewrite Hnull in H; [done|].
  exists F. by apply naive_eval_Ok.
Qed.

(** X4.  What the history records.  When the closure members have distinct
    names and [simulate] returns, the committed states of the cycles form a
    trajectory of clock edges from the state before the call (its last
    state is the one the call leaves when [restore_state = false]), and for
    every closure member the entry [i] of its history is the value it has
    in the state of cycle [i]: the value of its combinational root in that
    state when it has one, its committed value in that state otherwise. *)
Theorem history_records_the_value_of_each_cycle
    U heap fuel targets cycles restore_state all_wires hist heap' :
  closure_from_targets U heap fuel targets = Ok all_wires →
  simulate U heap fuel targets cycles restore_state = Ok (hist, heap') →
  NoDup (wire_names heap all_wires) →
  ∃ states,
    length states = S (Z.to_nat cycles)
    ∧ states !! 0%nat = Some heap
    ∧ trajectory all_wires states
    ∧ (restore_state = false → states !! Z.to_nat cycles = Some heap')
    ∧ ∀ s W i hi,
        s ∈ all_wires → heap !! s = Some W →
        states !! i = Some hi → (i < Z.to_nat cycles)%nat →
        ∃ vs v Wi,
          find (name W) hist = Some vs ∧ vs !! i = Some v
          ∧ hi !! s = Some Wi
          ∧ if is_null (comb_expr W) then v = committed_value Wi
            else node_val hi (comb_expr W) v.
Proof.
  intros Hcl H Hnd. unfold simulate in H. rewrite Hcl in H. simpl in H.
  destruct (simulate_wires_spec _ _ _ _ _ _ _ _ H Hnd)
    as (states & Hlen & H0 & Htraj & Hlast & _ & _ & _ & Hh).
  exists states. split; [done|]. split; [done|]. split; [done|].
  split; [done|].
  intros s W i hi Hs HW Hi Hlt.
  destruct (Hh s W Hs HW) as (vs & Hfind & Hlenvs & Hvs).
  destruct (Hvs i hi Hi Hlt) as (v & Hv & Hval).
  pose proof (trajectory_frame _ _ _ _ _ H0 Htraj Hi s) as Hfr.
  rewrite HW in Hfr. destruct Hfr as (u & HWi & _).
  exists vs, v, (set_committed u W). split; [done|]. split; [done|].
  split; [done|].
  destruct (is_null (comb_expr W)) eqn:Hnull.
  - by apply (wire_val_no_comb hi s _ v HWi).
  - by apply (wire_val_comb hi s _ v HWi).
Qed.

Lemma history_records_the_value_of_each_cycle_witness :
  ∃ states,
    length states = 4%nat
    ∧ states !! 0%nat = Some Demo.heap
    ∧ ∀ hi, states !! 2%nat = Some hi →
        ∃ vs v Wi,
          find "sum" [("a", [1; 1; 1]); ("acc", [0; 3; 6]);
                      ("b", [2; 2; 2]); ("sum", [3; 3; 3])] = Some vs
          ∧ vs !! 2%nat = Some v
          ∧ hi !! Demo.sum = Some Wi
          ∧ node_val hi
              (make_binary OpType.Add (Demo.ref Demo.a) (Demo.ref Demo.b)) v.
Proof.
  assert (closure_from_targets std_iteration Demo.heap 3 [Some Demo.acc]
          = Ok [Demo.sum; Demo.acc; Demo.b; Demo.a]) as Hcl
    by (vm_compute; reflexivity).
  assert (simulate std_iteration Demo.heap 3 [Some Demo.acc] 3 true
          = Ok ([("a", [1; 1; 1]); ("acc", [0; 3; 6]);
                 ("b", [2; 2; 2]); ("sum", [3; 3; 3])], Demo.heap))
    as H by (vm_compute; reflexivity).
  assert (NoDup (wire_names Demo.heap [Demo.sum; Demo.acc; Demo.b; Demo.a]))
    as Hnd.
  { change (NoDup ["sum"; "acc"; "b"; "a"]%string).
    repeat (constructor; [set_solver|]). constructor. }
  destruct (history_records_the_value_of_each_cycle _ _ _ _ _ _ _ _ _
              Hcl H Hnd) as (states & Hlen & H0 & _ & _ & Hrec).
  exists states. split; [done|]. split; [done|]. intros hi Hi.
  apply (Hrec Demo.sum
           (mkWire "sum" 0
              (make_binary OpType.Add (Demo.ref Demo.a) (Demo.ref Demo.b))
              null) 2%nat hi);
    [set_solver|reflexivity|done|].
  change (Z.to_nat 3) with 3%nat. lia.
Defined.

Lemma registered_frame_refl l heap : registered_frame l heap heap.
Proof.
  intros p. destruct (heap !! p) as [W|] eqn:Hp; [|done].
  exists (committed_value W). by rewrite set_committed_id.
Qed.

Lemma registered_frame_trans l heap1 heap2 heap3 :
  registered_frame l heap1 heap2 → registered_frame l heap2 heap3 →
  registered_frame l heap1 heap3.
Proof.
  intros H12 H23 p. specialize (H12 p). specialize (H23 p).
  destruct (heap1 !! p) as [W|]; [|by rewrite H12 in H23].
  destruct H12 as (v & Hv & Hf). rewrite Hv in H23.
  destruct H23 as (v' & Hv' & Hf'). exists v'. split; [done|].
  intros Hp. rewrite (Hf' Hp). simpl. by apply Hf.
Qed.

Lemma sync_step_registered_frame heap l heap' :
  sync_step heap l heap' → registered_frame l heap heap'.
Proof.
  intros H p. specialize (H p). destruct (heap !! p) as [W|]; [|done].
  destruct H as (v & Hv & [(Hin & Hn & _)|(_ & Heq)]); exists v;
    (split; [done|]); [|done].
  intros [?|?]; [done|congruence].
Qed.

Lemma run_cycles_registered_frame U fuel l n heap h heap' h' :
  run_cycles U fuel l n (heap, h) = Ok (heap', h') →
  registered_frame l heap heap'.
Proof.
  revert heap h. induction n as [|n IH]; intros heap h H; simpl in H.
  { injection H as <- <-. apply registered_frame_refl. }
  apply bind_Ok in H as ([heap1 h1] & Hc & H).
  eapply registered_frame_trans; [|by eapply IH].
  apply sync_step_registered_frame. by eapply cycle_sync_step.
Qed.

(** The restore loop undoes every commit of the run. *)
Lemma restore_saved U heap l saved heapn :
  save_state heap l = Ok saved → committed_frame l heap heapn →
  commit_all (map_iter U saved) heapn = heap.
Proof.
  intros Hsaved Hframe. apply map_eq. intros p. rewrite commit_all_lookup.
  destruct (save_state_acc heap l ∅ saved Hsaved p) as [S1 S2].
  specialize (Hframe p).
  destruct (decide (p ∈ l)) as [Hin|Hin].
  - destruct (S1 Hin) as (W & HW & ->). rewrite HW in Hframe |- *.
    destruct Hframe as (v & -> & _). simpl.
    by rewrite set_committed_twice, set_committed_id.
  - rewrite (S2 Hin), lookup_empty.
    destruct (heap !! p) as [W|]; [|done].
    destruct Hframe as (v & -> & Hv). by rewrite (Hv Hin), set_committed_id.
Qed.

(** X5.  What [simulate] never touches.  Whatever [restore_state] is, a
    call that returns leaves every wire with its name and both definitions;
    the only thing that can differ is the committed value of a closure
    member that has a registered definition.  Wires outside the closure and
    wires without a registered definition are exactly as before. *)
Theorem simulate_writes_only_registered_closure_wires
    U heap fuel targets cycles restore_state all_wires hist heap' :
  closure_from_targets U heap fuel targets = Ok all_wires →
  simulate U heap fuel targets cycles restore_state = Ok (hist, heap') →
  registered_frame all_wires heap heap'
  ∧ ∀ p W, heap !! p = Some W →
      p ∉ all_wires ∨ is_null (next_expr W) = true →
      heap' !! p = Some W.
Proof.
  intros Hcl H.
  assert (registered_frame all_wires heap heap') as Hfr.
  { unfold simulate in H. rewrite Hcl in H. simpl in H.
    unfold simulate_wires in H.
    apply bind_Ok in H as (saved & Hsaved & H).
    apply bind_Ok in H as (h0 & _ & H).
    apply bind_Ok in H as ([heapn h] & Hrun & [= <- <-]).
    destruct restore_state.
    - rewrite (restore_saved U heap all_wires saved heapn Hsaved
                 (run_cycles_frame _ _ _ _ _ _ _ _ Hrun)).
      apply registered_frame_refl.
    - by eapply run_cycles_registered_frame. }
  split; [done|]. intros p W HW Hp. specialize (Hfr p). rewrite HW in Hfr.
  destruct Hfr as (v & -> & Hv). by rewrite (Hv Hp), set_committed_id.
Qed.

Lemma simulate_writes_only_registered_closure_wires_witness :
  (<[Demo.acc := mkWire "acc" 6 null
       (make_binary OpType.Add (Demo.ref Demo.acc) (Demo.ref Demo.sum))]>
     Demo.heap) !! Demo.sum
  = Some (mkWire "sum" 0
            (make_binary OpType.Add (Demo.ref Demo.a) (Demo.ref Demo.b))
            null).
Proof.
  assert (closure_from_targets std_iteration Demo.heap 3 [Some Demo.acc]
          = Ok [Demo.sum; Demo.acc; Demo.b; Demo.a]) as Hcl
    by (vm_compute; reflexivity).
  assert (simulate std_iteration Demo.heap 3 [Some Demo.acc] 2 false
          = Ok ([("a", [1; 1]); ("acc", [0; 3]); ("b", [2; 2]);
                 ("sum", [3; 3])],
                <[Demo.acc := mkWire "acc" 6 null
                    (make_binary OpType.Add (Demo.ref Demo.acc)
                       (Demo.ref Demo.sum))]> Demo.heap)) as H
    by (vm_compute; reflexivity).
  exact (proj2 (simulate_writes_only_registered_closure_wires _ _ _ _ _ _ _
                  _ _ Hcl H) Demo.sum _ eq_refl (or_intror eq_refl)).
Defined.

Lemma closure_members_exist U heap fuel targets all_wires :
  closure_from_targets U heap fuel targets = Ok all_wires →
  ∀ p, p ∈ all_wires → is_Some (heap !! p).
Proof.
  intros Hcl p Hp. unfold closure_from_targets in Hcl.
  apply bind_Ok in Hcl as (R & HR & [= <-]).
  destruct (closure_set_post _ _ _ _ _ HR) as (_ & _ & Hdom & _).
  apply elem_of_dom, Hdom. by apply elem_of_set_iter in Hp.
Qed.

(** X6.  With [cycles <= 0] the cycle loop is not entered: once the closure
    is computed, [simulate] returns, also on a circuit that could not be
    evaluated; every name of the closure maps to the empty sequence, there
    is no other key, and the wires are as before, for both values of
    [restore_state]. *)
Theorem no_cycles_give_empty_histories
    U heap fuel targets cycles restore_state all_wires :
  closure_from_targets U heap fuel targets = Ok all_wires →
  cycles <= 0 →
  ∃ hist,
    simulate U heap fuel targets cycles restore_state = Ok (hist, heap)
    ∧ sorted_keys hist
    ∧ ∀ k, find k hist
           = if decide (k ∈ wire_names heap all_wires) then Some [] else None.
Proof.
  intros Hcl Hcycles.
  pose proof (closure_members_exist _ _ _ _ _ Hcl) as Hex.
  destruct (save_state_total heap all_wires ∅ Hex) as [saved Hsaved].
  destruct (init_history_total heap all_wires [] Hex) as [h0 Hinit].
  fold (save_state heap all_wires) in Hsaved.
  fold (init_history heap all_wires) in Hinit.
  destruct (init_history_spec _ _ _ Hinit) as (Hs & _ & Hin & Hout).
  exists h0. split; [|split; [done|]].
  - unfold simulate. rewrite Hcl. cbn [bind]. unfold simulate_wires.
    replace (Z.to_nat cycles) with 0%nat by lia.
    destruct restore_state; [rewrite Hsaved|]; cbn [bind]; rewrite Hinit;
      cbn [bind run_cycles]; [|done].
    by rewrite (restore_saved _ _ _ _ _ Hsaved (committed_frame_refl _ _)).
  - intros k. case_decide; [by apply Hin|by apply Hout].
Qed.

Lemma no_cycles_give_empty_histories_witness :
  ∃ hist,
    simulate std_iteration Demo.looping 3 [Some Demo.loop] (-2) false
    = Ok (hist, Demo.looping)
    ∧ sorted_keys hist
    ∧ ∀ k, find k hist
           = if decide (k ∈ wire_names Demo.looping [Demo.loop])
             then Some [] else None.
Proof.
  apply (no_cycles_give_empty_histories std_iteration Demo.looping 3
           [Some Demo.loop] (-2) false [Demo.loop]).
  - vm_compute. reflexivity.
  - lia.
Defined.

Lemma wires_named_cons heap p l W k :
  heap !! p = Some W →
  wires_named heap (p :: l) k
  = ((if decide (k = name W) then 1 else 0) + wires_named heap l k)%nat.
Proof.
  intros HW. unfold wires_named. rewrite (wire_names_cons heap p l W HW).
  case_decide.
  - by rewrite filter_cons_True.
  - by rewrite filter_cons_False.
Qed.

Lemma wires_named_pos heap l k :
  k ∈ wire_names heap l ↔ (0 < wires_named heap l k)%nat.
Proof.
  unfold wires_named. split.
  - intros Hk.
    assert (k ∈ filter (eq k) (wire_names heap l)) as Hin
      by by apply list_elem_of_filter.
    destruct (filter (eq k) (wire_names heap l)); [by apply elem_of_nil in Hin|].
    simpl. lia.
  - intros Hlen.
    destruct (filter (eq k) (wire_names heap l)) as [|k' f] eqn:Hf;
      [simpl in Hlen; lia|].
    assert (k' ∈ filter (eq k) (wire_names heap l)) as Hin
      by (rewrite Hf; set_solver).
    by apply list_elem_of_filter in Hin as [-> ?].
Qed.

(** Each pass of the recording loop appends one value per wire to the
    history of the wire's name. *)
Lemma record_values_lengths heap fuel l ctx h ctx' h' :
  record_values heap fuel l (ctx, h) = Ok (ctx', h') → sorted_keys h →
  sorted_keys h'
  ∧ (∀ k, length (default [] (find k h'))
          = (length (default [] (find k h)) + wires_named heap l k)%nat)
  ∧ (∀ k, is_Some (find k h')
          ↔ is_Some (find k h) ∨ k ∈ wire_names heap l).
Proof.
  revert ctx h. induction l as [|p l IH]; intros ctx h H Hs;
    unfold record_values in H; simpl in H.
  { injection H as <- <-. split; [done|]. split.
    - intros k. unfold wires_named. simpl. lia.
    - intros k. rewrite elem_of_nil. tauto. }
  apply bind_Ok in H as ([ctx1 h1] & Hp & H).
  apply bind_Ok in Hp as ([v ctx2] & Hv & Hp).
  apply bind_Ok in Hp as (W & HW & Hp).
  unfold deref in HW. destruct (heap !! p) as [W'|] eqn:HpW; [|done].
  injection HW as ->. injection Hp as <- <-.
  destruct (IH _ _ H (sorted_subscript _ _ _ Hs)) as (I1 & I2 & I3).
  split; [done|]. split.
  - intros k. rewrite I2, find_subscript by done.
    rewrite (wires_named_cons heap p l W k HpW).
    case_decide; simpl; [subst k; rewrite length_app; simpl|]; lia.
  - intros k. rewrite I3, find_subscript by done.
    rewrite (wire_names_cons heap p l W HpW), elem_of_cons.
    case_decide; [|tauto]. split; [auto|]. intros _. left. eauto.
Qed.

Lemma run_cycles_lengths U fuel l n heap h heap' h' :
  run_cycles U fuel l n (heap, h) = Ok (heap', h') → sorted_keys h →
  (∀ k, k ∈ wire_names heap l → is_Some (find k h)) →
  sorted_keys h'
  ∧ (∀ k, length (default [] (find k h'))
          = (length (default [] (find k h)) + n * wires_named heap l k)%nat)
  ∧ (∀ k, is_Some (find k h') ↔ is_Some (find k h)).
Proof.
  revert heap h. induction n as [|n IH]; intros heap h H Hs Hkeys;
    simpl in H.
  { injection H as <- <-. split; [done|]. split; [intros k; lia|done]. }
  apply bind_Ok in H as ([heap1 h1] & Hc & H).
  pose proof (sync_step_names heap l heap1 l
                (cycle_sync_step _ _ _ _ _ _ _ Hc)) as Hnames.
  unfold cycle in Hc.
  apply bind_Ok in Hc as ([ctx h1'] & Hrec & Hc).
  apply bind_Ok in Hc as ([ctx' nv] & _ & [= _ <-]).
  destruct (record_values_lengths _ _ _ _ _ _ _ Hrec Hs) as (Hs1 & L1 & K1).
  destruct (IH heap1 h1' H Hs1) as (Hs' & L' & K').
  { rewrite Hnames. intros k Hk. apply K1. by right. }
  split; [done|]. split.
  - intros k. rewrite L', L1. unfold wires_named. rewrite Hnames. lia.
  - intros k. rewrite K', K1. split; [|by left].
    intros [?|?]; [done|by apply Hkeys].
Qed.

(** X7.  The shape of the returned map, whatever the names are.  The keys
    are exactly the names of the closure members, in strictly ascending
    lexicographic order, and the sequence of a key holds one value per
    cycle for each closure member of that name: its length is the number
    of cycles times the number of members so named (a negative [cycles]
    counts as 0). *)
Theorem history_holds_one_value_per_cycle_and_wire
    U heap fuel targets cycles restore_state all_wires hist heap' :
  closure_from_targets U heap fuel targets = Ok all_wires →
  simulate U heap fuel targets cycles restore_state = Ok (hist, heap') →
  sorted_keys hist
  ∧ (∀ k, k ∈ hist.*1 ↔ k ∈ wire_names heap all_wires)
  ∧ ∀ k vs, find k hist = Some vs →
      length vs = (Z.to_nat cycles * wires_named heap all_wires k)%nat.
Proof.
  intros Hcl H. unfold simulate in H. rewrite Hcl in H. simpl in H.
  unfold simulate_wires in H.
  apply bind_Ok in H as (saved & _ & H).
  apply bind_Ok in H as (h0 & Hinit & H).
  apply bind_Ok in H as ([heapn h] & Hrun & [= <- <-]).
  destruct (init_history_spec _ _ _ Hinit) as (Hs0 & _ & Hin & Hout).
  destruct (run_cycles_lengths _ _ _ _ _ _ _ _ Hrun Hs0) as (Hs & L & K).
  { intros k Hk. rewrite (Hin k Hk). eauto. }
  split; [done|]. split.
  - intros k. rewrite <- find_is_Some, K.
    destruct (decide (k ∈ wire_names heap all_wires)) as [Hk|Hk].
    + rewrite (Hin k Hk). split; eauto.
    + rewrite (Hout k Hk). split; [by intros [? ?]|done].
  - intros k vs Hfind. specialize (L k). rewrite Hfind in L. simpl in L.
    rewrite L. destruct (decide (k ∈ wire_names heap all_wires)) as [Hk|Hk].
    + by rewrite (Hin k Hk).
    + by rewrite (Hout k Hk).
Qed.

Lemma history_holds_one_value_per_cycle_and_wire_witness :
  length [0; 0; 0; 0; 0; 0]
  = (Z.to_nat 3 * wires_named Demo.twins [2%positive; 1%positive] "a")%nat.
Proof.
  assert (closure_from_targets std_iteration Demo.twins 2
            [Some 1%positive; Some 2%positive]
          = Ok [2%positive; 1%positive]) as Hcl
    by (vm_compute; reflexivity).
  assert (simulate std_iteration Demo.twins 2
            [Some 1%positive; Some 2%positive] 3 true
          = Ok ([("a", [0; 0; 0; 0; 0; 0])], Demo.twins)) as H
    by (vm_compute; reflexivity).
  exact (proj2 (proj2 (history_holds_one_value_per_cycle_and_wire _ _ _ _ _
                         _ _ _ _ Hcl H)) "a"%string _ eq_refl).
Defined.

(** X8.  Only the set of non-null targets matters.  When the closure
    members have distinct names and [simulate] returns a result for a
    target vector, it returns the same result, given enough fuel, for every
    target vector with the same non-null entries (in any order, with any
    repetitions), whatever order the hash containers of that other call are
    iterated in; and so does the single-target overload when the only
    non-null entry is that target. *)
Theorem simulate_depends_on_the_set_of_targets
    U1 U2 heap fuel targets1 cycles restore_state all_wires out :
  closure_from_targets U1 heap fuel targets1 = Ok all_wires →
  NoDup (wire_names heap all_wires) →
  simulate U1 heap fuel targets1 cycles restore_state = Ok out →
  (∀ targets2,
     (∀ p, Some p ∈ targets1 ↔ Some p ∈ targets2) →
     ∃ fuel', ∀ f, (fuel' ≤ f)%nat →
       simulate U2 heap f targets2 cycles restore_state = Ok out)
  ∧ (∀ target,
       (∀ p, Some p ∈ targets1 ↔ p = target) →
       ∃ fuel', ∀ f, (fuel' ≤ f)%nat →
         simulate_single U2 heap f target cycles restore_state = Ok out).
Proof.
  intros Hcl Hnd H.
  assert (∀ targets2,
            (∀ p, Some p ∈ targets1 ↔ Some p ∈ targets2) →
            ∃ fuel', ∀ f, (fuel' ≤ f)%nat →
              simulate U2 heap f targets2 cycles restore_state = Ok out)
    as Hset.
  { intros targets2 Hsame.
    unfold simulate in H. rewrite Hcl in H. cbn [bind] in H.
    unfold closure_from_targets in Hcl.
    apply bind_Ok in Hcl as (R & HR & [= <-]).
    assert (closure_set U1 heap fuel targets2 = Ok R) as HR2.
    { rewrite <- HR. unfold closure_set. f_equal.
      apply set_eq. intros p. by rewrite !elem_of_insert_targets. }
    destruct (simulate_wires_independent U1 U2 heap fuel
                (set_iter U1 R) (set_iter U2 R) cycles restore_state out)
      as [f2 Hf2]; [|done|done|].
    { by rewrite (set_iter_perm U1 R), (set_iter_perm U2 R). }
    exists (f2 `max` (2 `max` size R))%nat. intros f Hf.
    unfold simulate, closure_from_targets.
    rewrite (closure_set_independent U1 U2 heap fuel targets2 R HR2 f)
      by lia.
    cbn [bind]. apply Hf2. lia. }
  split; [done|].
  intros target Ht. unfold simulate_single. apply Hset.
  intros p. rewrite Ht, list_elem_of_singleton. split; congruence.
Qed.

Lemma simulate_depends_on_the_set_of_targets_witness :
  ∃ fuel', ∀ f, (fuel' ≤ f)%nat →
    simulate rev_iteration Demo.heap f
      [Some Demo.maxab; None; Some Demo.acc; Some Demo.acc] 3 false
    = Ok ([("a", [1; 1; 1]); ("acc", [0; 3; 6]); ("b", [2; 2; 2]);
           ("maxab", [2; 2; 2]); ("sum", [3; 3; 3])],
          <[Demo.acc := mkWire "acc" 9 null
              (make_binary OpType.Add (Demo.ref Demo.acc)
                 (Demo.ref Demo.sum))]> Demo.heap).
Proof.
  refine (proj1 (simulate_depends_on_the_set_of_targets
                   std_iteration rev_iteration Demo.heap 3
                   [Some Demo.acc; Some Demo.maxab] 3 false
                   [Demo.maxab; Demo.sum; Demo.acc; Demo.b; Demo.a] _
                   _ _ _)
            [Some Demo.maxab; None; Some Demo.acc; Some Demo.acc] _).
  - vm_compute. reflexivity.
  - change (NoDup ["maxab"; "sum"; "acc"; "b"; "a"]%string).
    repeat (constructor; [set_solver|]). constructor.
  - vm_compute. reflexivity.
  - set_solver.
Defined.

Lemma first_ref_blocks {S} (wv : Wire_ptr → S → outcome (Z * S)) n p s :
  first_ref n = Some p →
  (∀ r, wv (Some p) s ≠ Ok r) →
  ∀ r, eval_node_with wv n s ≠ Ok r.
Proof.
  intros Hn Hp. induction n as [|op cv w a IHa b IHb c IHc]; [done|].
  intros r. destruct op; simpl in Hn |- *; try done;
    try (subst w; apply Hp);
    unfold eval_unary, eval_binary, eval_divmod, eval_logand, eval_logor,
      eval_select;
    try (destruct (eval_node_with wv a s) as [ra|] eqn:Ha;
         [by destruct (IHa Hn ra)|done]);
    try (destruct (eval_node_with wv b s) as [rb|] eqn:Hb;
         [by destruct (IHb Hn rb)|done]).
Qed.

Lemma self_reference_diverges heap p W :
  heap !! p = Some W → first_ref (comb_expr W) = Some p →
  ∀ fuel ctx r, ctx !! p = None → wire_value heap fuel (Some p) ctx ≠ Ok r.
Proof.
  intros HW Hfirst.
  assert (is_null (comb_expr W) = false) as Hnull
    by by destruct (comb_expr W).
  induction fuel as [|fuel IH]; intros ctx r Hp; simpl; unfold deref;
    rewrite HW; simpl; rewrite Hnull, Hp; [done|].
  destruct (eval_node_with (wire_value heap fuel) (comb_expr W) ctx)
    as [r'|] eqn:He; [|done].
  by destruct (first_ref_blocks (wire_value heap fuel) (comb_expr W) p ctx
                 Hfirst (λ r, IH ctx r Hp) r').
Qed.

Lemma wire_value_keeps_uncached heap p fuel w :
  (∀ fuel ctx r, ctx !! p = None → wire_value heap fuel (Some p) ctx ≠ Ok r) →
  ev_rel (λ _ (s1 s2 : EvalContext), s1 = s2 ∧ s1 !! p = None)
         (wire_value heap fuel w) (λ _, wire_value heap fuel w).
Proof.
  intros Hdiv. revert w. induction fuel as [|fuel IH]; intros w;
    (split; [apply ev_mono_const|]);
    intros F0 ctx ? v ctx' [<- HR] H; exists F0, ctx';
    (split; [lia|]); (split; [done|]); (split; [done|]);
    (destruct w as [q|]; [|done]);
    (destruct (decide (q = p)) as [->|Hne]; [by destruct (Hdiv _ _ _ HR H)|]);
    simpl in H; destruct (deref heap q) as [W|]; simpl in H; try done;
    destruct (is_null (comb_expr W)); try (by injection H as <- <-);
    destruct (ctx !! q); try (by injection H as <- <-); try done.
  apply bind_Ok in H as ([v1 ctx1] & He & [= <- <-]).
  destruct (eval_node_with_rel
              (λ _ (s1 s2 : EvalContext), s1 = s2 ∧ s1 !! p = None)
              (wire_value heap fuel) (λ _, wire_value heap fuel)
              (comb_expr W) (λ w _, IH w)) as [_ Hrel].
  destruct (Hrel 0%nat ctx ctx v1 ctx1 (conj eq_refl HR) He)
    as (_ & ? & _ & _ & _ & HR1).
  unfold emplace. destruct (ctx1 !! q); [done|].
  by rewrite lookup_insert_ne.
Qed.

Lemma record_values_blocked heap p fuel l ctx h :
  (∀ fuel ctx r, ctx !! p = None → wire_value heap fuel (Some p) ctx ≠ Ok r) →
  p ∈ l → ctx !! p = None →
  ∀ r, record_values heap fuel l (ctx, h) ≠ Ok r.
Proof.
  intros Hdiv. revert ctx h. induction l as [|q l IH]; intros ctx h Hp Hc r H.
  { by apply elem_of_nil in Hp. }
  unfold record_values in H. simpl in H.
  apply bind_Ok in H as ([ctx1 h1] & Hq & H).
  apply bind_Ok in Hq as ([v ctx2] & Hv & Hq).
  apply bind_Ok in Hq as (W & HW & [= <- <-]).
  destruct (decide (q = p)) as [->|Hne]; [by destruct (Hdiv _ _ _ Hc Hv)|].
  destruct (proj2 (wire_value_keeps_uncached heap p fuel (Some q) Hdiv)
              0%nat ctx ctx v ctx2 (conj eq_refl Hc) Hv)
    as (_ & ? & _ & _ & _ & Hc2).
  apply (IH ctx2 _ ltac:(set_solver) Hc2 r H).
Qed.

(** X9.  The pitfall of the README.  When the evaluation of the
    combinational definition of a wire starts by reading the wire itself
    (as in [w = w + 1]), reading that wire never returns, whatever the
    fuel; and [simulate] never returns for one cycle or more once that
    wire is in the dependency closure. *)
Theorem combinational_self_reference_never_returns heap p W :
  heap !! p = Some W → first_ref (comb_expr W) = Some p →
  (∀ fuel ctx r,
     ctx !! p = None → wire_value heap fuel (Some p) ctx ≠ Ok r)
  ∧ ∀ U fuel targets cycles restore_state all_wires out,
      closure_from_targets U heap fuel targets = Ok all_wires →
      p ∈ all_wires → 0 < cycles →
      simulate U heap fuel targets cycles restore_state ≠ Ok out.
Proof.
  intros HW Hfirst.
  pose proof (self_reference_diverges heap p W HW Hfirst) as Hdiv.
  split; [done|].
  intros U fuel targets cycles restore_state all_wires out Hcl Hp Hcycles H.
  unfold simulate in H. rewrite Hcl in H. cbn [bind] in H.
  unfold simulate_wires in H.
  apply bind_Ok in H as (saved & _ & H).
  apply bind_Ok in H as (h0 & _ & H).
  apply bind_Ok in H as ([heapn h] & Hrun & _).
  destruct (Z.to_nat cycles) as [|n] eqn:Hn; [lia|].
  cbn [run_cycles] in Hrun. apply bind_Ok in Hrun as (st & Hc & _).
  unfold cycle in Hc. apply bind_Ok in Hc as (r & Hrec & _).
  by destruct (record_values_blocked heap p fuel all_wires ∅ h0 Hdiv Hp
                 (lookup_empty _) r).
Qed.

Lemma combinational_self_reference_never_returns_witness :
  first_ref
    (make_binary OpType.Add (wireRef (Some 1%positive)) (Expr_const 1))
  = Some 1%positive
  ∧ simulate std_iteration Demo.runaway 3 [Some 1%positive] 1 true
    ≠ Ok ([("w", [1])], Demo.runaway).
Proof.
  split; [reflexivity|].
  apply (proj2 (combinational_self_reference_never_returns Demo.runaway
                  1%positive _ eq_refl eq_refl)
           std_iteration 3%nat [Some 1%positive] 1 true [1%positive]).
  - vm_compute. reflexivity.
  - set_solver.
  - lia.
Defined.

(** * Null pointers *)

Lemma bind_Segfault {A B} (m : outcome A) (k : A → outcome B) :
  bind m k = Err Segfault →
  m = Err Segfault ∨ ∃ x, m = Ok x ∧ k x = Err Segfault.
Proof. destruct m as [x|e]; simpl; [eauto|]. intros [= ->]. by left. Qed.

Lemma foldM_Segfault {A B} (f : B → A → outcome B)
    (I : B → Prop) l acc :
  (∀ b a, I b → a ∈ l → f b a ≠ Err Segfault) →
  (∀ b a b', I b → a ∈ l → f b a = Ok b' → I b') →
  I acc → foldM f l acc ≠ Err Segfault.
Proof.
  revert acc. induction l as [|x l IH]; intros acc Hsafe Hinv Hacc; [done|].
  simpl. intros [H|(b & Hb & H)]%bind_Segfault.
  - by apply (Hsafe acc x Hacc); [left|].
  - revert H. apply IH.
    + intros b' a Hb' Ha. apply Hsafe; [done|by right].
    + intros b' a b'' Hb' Ha. apply Hinv; [done|by right].
    + apply (Hinv acc x b Hacc); [left|done].
Qed.

Lemma built_well_formed n : built n → well_formed n.
Proof.
  induction 1 as [v|p|op x Hop _ IH|op x y Hop _ IHx _ IHy
                  |cond t e _ IHc _ IHt _ IHe]; simpl; eauto.
  - set_unfold in Hop. destruct Hop as [->| [->| [->|[]]]]; done.
  - set_unfold in Hop. repeat (destruct Hop as [->|Hop]; [done|]). done.
Qed.

Lemma circuit_built_well_formed heap :
  circuit_built heap → definitions_well_formed heap.
Proof.
  intros Hb p W HW. destruct (Hb p W HW) as [Hc Hn].
  split; intros Hnull; apply built_well_formed; eauto.
Qed.

Section eval_safe.
Context {S : Type}.
Implicit Types (ea eb ec : S → outcome (Z * S)).

Lemma eval_unary_safe f ea s :
  (∀ s, ea s ≠ Err Segfault) → eval_unary f ea s ≠ Err Segfault.
Proof.
  intros Ha. unfold eval_unary.
  intros [H|([x s1] & _ & H)]%bind_Segfault; [by apply (Ha s)|done].
Qed.

Lemma eval_binary_safe f ea eb s :
  (∀ s, ea s ≠ Err Segfault) → (∀ s, eb s ≠ Err Segfault) →
  eval_binary f ea eb s ≠ Err Segfault.
Proof.
  intros Ha Hb. unfold eval_binary.
  intros [H|([x s1] & _ & H)]%bind_Segfault; [by apply (Ha s)|].
  apply bind_Segfault in H as [H|([y s2] & _ & H)]; [by apply (Hb s1)|done].
Qed.

Lemma eval_divmod_safe f ea eb s :
  (∀ s, ea s ≠ Err Segfault) → (∀ s, eb s ≠ Err Segfault) →
  eval_divmod f ea eb s ≠ Err Segfault.
Proof.
  intros Ha Hb. unfold eval_divmod.
  intros [H|([d s1] & _ & H)]%bind_Segfault; [by apply (Hb s)|].
  case_decide; [done|].
  apply bind_Segfault in H as [H|([y s2] & _ & H)]; [by apply (Ha s1)|].
  by case_decide.
Qed.

Lemma eval_logand_safe ea eb s :
  (∀ s, ea s ≠ Err Segfault) → (∀ s, eb s ≠ Err Segfault) →
  eval_logand ea eb s ≠ Err Segfault.
Proof.
  intros Ha Hb. unfold eval_logand.
  intros [H|([x s1] & _ & H)]%bind_Segfault; [by apply (Ha s)|].
  case_decide; [|done].
  apply bind_Segfault in H as [H|([y s2] & _ & H)]; [by apply (Hb s1)|done].
Qed.

Lemma eval_logor_safe ea eb s :
  (∀ s, ea s ≠ Err Segfault) → (∀ s, eb s ≠ Err Segfault) →
  eval_logor ea eb s ≠ Err Segfault.
Proof.
  intros Ha Hb. unfold eval_logor.
  intros [H|([x s1] & _ & H)]%bind_Segfault; [by apply (Ha s)|].
  case_decide; [done|].
  apply bind_Segfault in H as [H|([y s2] & _ & H)]; [by apply (Hb s1)|done].
Qed.

Lemma eval_select_safe ea eb ec s :
  (∀ s, ea s ≠ Err Segfault) → (∀ s, eb s ≠ Err Segfault) →
  (∀ s, ec s ≠ Err Segfault) →
  eval_select ea eb ec s ≠ Err Segfault.
Proof.
  intros Ha Hb Hc. unfold eval_select.
  intros [H|([x s1] & _ & H)]%bind_Segfault; [by apply (Ha s)|].
  case_decide; [by apply (Hb s1)|by apply (Hc s1)].
Qed.

Lemma eval_node_with_safe (wv : Wire_ptr → S → outcome (Z * S)) n :
  well_formed n →
  (∀ p s, p ∈ refs n → wv (Some p) s ≠ Err Segfault) →
  ∀ s, eval_node_with wv n s ≠ Err Segfault.
Proof.
  induction n as [|op cv w a IHa b IHb c IHc]; intros Hwf Hw; [done|].
  assert (op ≠ OpType.WireRef → well_formed a →
          ∀ s, eval_node_with wv a s ≠ Err Segfault) as Ha.
  { intros Hop Hwfa. apply IHa; [done|]. intros p s Hp. apply Hw. simpl.
    rewrite decide_False by done. set_solver. }
  assert (op ≠ OpType.WireRef → well_formed b →
          ∀ s, eval_node_with wv b s ≠ Err Segfault) as Hb.
  { intros Hop Hwfb. apply IHb; [done|]. intros p s Hp. apply Hw. simpl.
    rewrite decide_False by done. set_solver. }
  assert (op ≠ OpType.WireRef → well_formed c →
          ∀ s, eval_node_with wv c s ≠ Err Segfault) as Hc.
  { intros Hop Hwfc. apply IHc; [done|]. intros p s Hp. apply Hw. simpl.
    rewrite decide_False by done. set_solver. }
  intros s.
  destruct op; simpl in Hwf |- *;
    try (specialize (Ha ltac:(done)); specialize (Hb ltac:(done));
         specialize (Hc ltac:(done)));
    try done;
    try (apply eval_unary_safe; tauto);
    try (apply eval_binary_safe; tauto);
    try (apply eval_divmod_safe; tauto);
    try (apply eval_logand_safe; tauto);
    try (apply eval_logor_safe; tauto);
    try (apply eval_select_safe; tauto).
  destruct Hwf as [p ->]. apply Hw. simpl. set_solver.
Qed.
End eval_safe.

Lemma wire_value_safe heap fuel p ctx :
  no_dangling heap → definitions_well_formed heap → p ∈ dom heap →
  wire_value heap fuel (Some p) ctx ≠ Err Segfault.
Proof.
  intros Hnd Hwf. revert p ctx.
  induction fuel as [|fuel IH]; intros p ctx [W HW]%elem_of_dom; simpl;
    unfold deref; rewrite HW; simpl;
    destruct (is_null (comb_expr W)) eqn:Hnull; try done;
    destruct (ctx !! p); try done.
  intros [H|([v ctx1] & _ & H)]%bind_Segfault; [|done].
  revert H. apply eval_node_with_safe.
  - by apply (Hwf p W HW).
  - intros q s Hq. apply IH. apply (Hnd p W HW). unfold wire_refs.
    set_solver.
Qed.

Lemma eval_node_safe heap fuel n ctx :
  no_dangling heap → definitions_well_formed heap →
  well_formed n → refs n ⊆ dom heap →
  eval_node heap fuel n ctx ≠ Err Segfault.
Proof.
  intros Hnd Hwf Hn Hrefs. unfold eval_node.
  apply eval_node_with_safe; [done|]. intros p s Hp.
  apply wire_value_safe; [done|done|set_solver].
Qed.

Lemma gather_with_safe enter (D : gset positive) n :
  (∀ p X, p ∈ D → enter p X ≠ Err Segfault) →
  refs n ⊆ D → ∀ X, gather_with enter n X ≠ Err Segfault.
Proof.
  intros Henter.
  induction n as [|op cv w a IHa b IHb c IHc]; intros Hrefs X; [done|].
  assert (refs a ∪ refs b ∪ refs c ⊆ D →
    (let* wires := (if is_null a then Ok X else gather_with enter a X) in
     let* wires :=
       (if is_null b then Ok wires else gather_with enter b wires) in
     if is_null c then Ok wires else gather_with enter c wires)
    ≠ Err Segfault) as Hchildren.
  { intros Hsub [H|(X1 & _ & H)]%bind_Segfault.
    { destruct (is_null a); [done|]. revert H. apply IHa. set_solver. }
    apply bind_Segfault in H as [H|(X2 & _ & H)].
    { destruct (is_null b); [done|]. revert H. apply IHb. set_solver. }
    destruct (is_null c); [done|]. revert H. apply IHc. set_solver. }
  simpl in Hrefs |- *.
  destruct (decide (op = OpType.WireRef)) as [->|Hop]; [|by apply Hchildren].
  destruct w as [p|]; [|by apply Hchildren].
  destruct (decide (p ∈ X)); [done|]. apply Henter. set_solver.
Qed.

Lemma gather_enter_safe heap fuel p X :
  no_dangling heap → p ∈ dom heap →
  gather_enter heap fuel p X ≠ Err Segfault.
Proof.
  intros Hnd. revert p X.
  induction fuel as [|fuel IH]; intros p X [W HW]%elem_of_dom; [done|].
  simpl. unfold deref. rewrite HW. simpl.
  pose proof (Hnd p W HW) as Hrefs. unfold wire_refs in Hrefs.
  intros [H|(X1 & _ & H)]%bind_Segfault; revert H;
    apply (gather_with_safe _ (dom heap)); try (intros; by apply IH);
    set_solver.
Qed.

Lemma gather_snapshot_safe heap fuel l X :
  no_dangling heap → (∀ p, p ∈ l → p ∈ dom heap) →
  gather_snapshot heap fuel l X ≠ Err Segfault.
Proof.
  intros Hnd Hl. unfold gather_snapshot.
  apply (foldM_Segfault _ (λ _, True)); [|done|done].
  intros Y p _ [W HW]%Hl%elem_of_dom. unfold deref. rewrite HW. simpl.
  pose proof (Hnd p W HW) as Hrefs. unfold wire_refs in Hrefs.
  unfold gather_from_expr.
  intros [H|(X1 & _ & H)]%bind_Segfault; revert H;
    apply (gather_with_safe _ (dom heap));
    try (intros; by apply gather_enter_safe); set_solver.
Qed.

Lemma closure_loop_safe U heap fuel iters prev X :
  no_dangling heap → X ⊆ dom heap →
  closure_loop U heap fuel iters prev X ≠ Err Segfault.
Proof.
  intros Hnd. revert prev X.
  induction iters as [|iters IH]; intros prev X HX; simpl;
    case_decide; try done.
  intros [E|(X1 & HX1 & E)]%bind_Segfault.
  - revert E. apply gather_snapshot_safe; [done|].
    intros p Hp%elem_of_set_iter. by apply HX.
  - revert E. apply IH. intros q Hq.
    destruct (gather_snapshot_post _ _ _ _ _ HX1) as (_ & Hnew & _).
    destruct (decide (q ∈ X)) as [?|Hq']; [by apply HX|].
    destruct (Hnew q (or_intror (conj Hq Hq'))) as (W & HW & _).
    by apply elem_of_dom.
Qed.

Lemma committed_frame_safe l heap heap' :
  committed_frame l heap heap' →
  no_dangling heap → definitions_well_formed heap →
  no_dangling heap' ∧ definitions_well_formed heap'
  ∧ dom heap' = dom heap.
Proof.
  intros Hfr Hnd Hwf.
  assert (∀ p W', heap' !! p = Some W' →
            ∃ W v, heap !! p = Some W ∧ W' = set_committed v W) as Hback.
  { intros p W' HW'. specialize (Hfr p).
    destruct (heap !! p) as [W|]; [|congruence].
    destruct Hfr as (v & Hv & _). exists W, v. split; [done|]. congruence. }
  assert (dom heap' = dom heap) as Hdom.
  { apply set_eq. intros p. rewrite !elem_of_dom. specialize (Hfr p).
    destruct (heap !! p) as [W|].
    - destruct Hfr as (v & -> & _). split; eauto.
    - rewrite Hfr. done. }
  split; [|split; [|done]].
  - intros p W' (W & v & HW & ->)%Hback. rewrite Hdom.
    apply (Hnd p W HW).
  - intros p W' (W & v & HW & ->)%Hback. apply (Hwf p W HW).
Qed.

Lemma cycle_safe U heap fuel l h :
  no_dangling heap → definitions_well_formed heap →
  (∀ p, p ∈ l → p ∈ dom heap) →
  cycle U fuel l (heap, h) ≠ Err Segfault.
Proof.
  intros Hnd Hwf Hl. unfold cycle.
  intros [H|([ctx h1] & _ & H)]%bind_Segfault.
  - revert H. unfold record_values.
    apply (foldM_Segfault _ (λ _, True)); [|done|done].
    intros [ctx h'] p _ Hp%Hl.
    intros [H|([v ctx1] & _ & H)]%bind_Segfault.
    + revert H. by apply wire_value_safe.
    + apply elem_of_dom in Hp as [W HW]. unfold deref in H.
      by rewrite HW in H.
  - apply bind_Segfault in H as [H|([ctx2 nv] & _ & H)]; [|done].
    revert H. unfold eval_next_values.
    apply (foldM_Segfault _ (λ _, True)); [|done|done].
    intros [ctx' nv] p _ [W HW]%Hl%elem_of_dom. unfold deref. rewrite HW.
    simpl. destruct (is_null (next_expr W)) eqn:Hnull; [done|].
    intros [H|([v ctx1] & _ & H)]%bind_Segfault; [|done].
    revert H. apply eval_node_safe; [done|done|by apply (Hwf p W HW)|].
    pose proof (Hnd p W HW). unfold wire_refs in *. set_solver.
Qed.

Lemma run_cycles_safe U heap fuel l n h :
  no_dangling heap → definitions_well_formed heap →
  (∀ p, p ∈ l → p ∈ dom heap) →
  run_cycles U fuel l n (heap, h) ≠ Err Segfault.
Proof.
  revert heap h. induction n as [|n IH]; intros heap h Hnd Hwf Hl; [done|].
  cbn [run_cycles].
  intros [H|([heap1 h1] & Hc & H)]%bind_Segfault.
  - revert H. by apply cycle_safe.
  - pose proof (sync_step_frame _ _ _ (cycle_sync_step _ _ _ _ _ _ _ Hc))
      as Hfr.
    destruct (committed_frame_safe _ _ _ Hfr Hnd Hwf) as (Hnd1 & Hwf1 & Hdom).
    revert H. apply IH; [done|done|]. rewrite Hdom. done.
Qed.

Lemma simulate_safe U heap fuel targets cycles restore_state :
  no_dangling heap → definitions_well_formed heap →
  (∀ p, Some p ∈ targets → p ∈ dom heap) →
  simulate U heap fuel targets cycles restore_state ≠ Err Segfault.
Proof.
  intros Hnd Hwf Ht. unfold simulate.
  intros [H|(l & Hcl & H)]%bind_Segfault.
  - unfold closure_from_targets in H.
    apply bind_Segfault in H as [H|(R & _ & H)]; [|done].
    revert H. apply closure_loop_safe; [done|].
    intros p Hp%elem_of_insert_targets. by apply Ht.
  - pose proof (closure_members_exist _ _ _ _ _ Hcl) as Hl.
    unfold simulate_wires in H.
    apply bind_Segfault in H as [H|(saved & _ & H)].
    { destruct restore_state; [|done].
      destruct (save_state_total heap l ∅ Hl) as [saved Hs].
      unfold save_state in H. congruence. }
    apply bind_Segfault in H as [H|(h0 & _ & H)].
    { destruct (init_history_total heap l [] Hl) as [h0 Hs].
      unfold init_history in H. congruence. }
    apply bind_Segfault in H as [H|([heap1 h1] & _ & H)]; [|done].
    revert H. apply run_cycles_safe; [done|done|].
    intros p Hp. by apply elem_of_dom, Hl.
Qed.

(** X10.  Circuits made with the operators of [operations.h] never
    dereference a null pointer.  When every definition is an expression
    built from constants, wires and the operators, and every wire referred
    to exists, the evaluation of a built expression and a call of
    [simulate] on existing targets never fail on a null or dangling
    pointer, whatever the fuel and also when the circuit has a
    combinational loop: they return, or stop at a division that overflows
    ([Trap]), or recurse without bound ([Diverges]). *)
Theorem built_circuits_never_dereference_null heap :
  no_dangling heap → circuit_built heap →
  (∀ fuel n ctx,
     built n → refs n ⊆ dom heap →
     eval_node heap fuel n ctx ≠ Err Segfault)
  ∧ (∀ U fuel targets cycles restore_state,
       (∀ p, Some p ∈ targets → p ∈ dom heap) →
       simulate U heap fuel targets cycles restore_state ≠ Err Segfault).
Proof.
  intros Hnd Hb%circuit_built_well_formed. split.
  - intros fuel n ctx Hn%built_well_formed Hrefs. by apply eval_node_safe.
  - intros U fuel targets cycles restore_state Ht. by apply simulate_safe.
Qed.

Lemma built_circuits_never_dereference_null_witness :
  built (make_binary OpType.Add (wireRef (Some 1%positive)) (Expr_const 1))
  ∧ simulate std_iteration Demo.runaway 5 [Some 1%positive] 3 true
    ≠ Err Segfault.
Proof.
  assert (built (make_binary OpType.Add (wireRef (Some 1%positive))
                   (Expr_const 1))) as Hb.
  { apply built_binary; [set_solver|apply built_wire|apply built_const]. }
  split; [done|].
  refine (proj2 (built_circuits_never_dereference_null Demo.runaway _ _)
            std_iteration 5%nat [Some 1%positive] 3 true _).
  - intros p W Hp q Hq. unfold Demo.runaway in Hp.
    rewrite lookup_insert in Hp. case_decide; [|by rewrite lookup_empty in Hp].
    subst p. injection Hp as <-. unfold wire_refs in Hq. cbn in Hq.
    unfold Demo.runaway. rewrite dom_insert_L.
    repeat case_decide; set_solver.
  - intros p W Hp. unfold Demo.runaway in Hp.
    rewrite lookup_insert in Hp. case_decide; [|by rewrite lookup_empty in Hp].
    subst p. injection Hp as <-. split; [|done]. intros _. exact Hb.
  - intros p Hp. apply list_elem_of_singleton in Hp as [= ->].
    unfold Demo.runaway. rewrite dom_insert_L. set_solver.
Defined.

(** * Division and modulo *)

Lemma quot_in_range x d :
  Int64.in_range x → Int64.in_range d → d ≠ 0 →
  ¬ (x = Int64.min_signed ∧ d = -1) →
  Int64.in_range (Z.quot x d).
Proof.
  unfold Int64.in_range, Int64.min_signed, Int64.max_signed.
  intros Hx Hd Hd0 Hov.
  pose proof (Z.quot_rem' x d) as E.
  pose proof (Z.rem_bound_abs x d Hd0) as B.
  pose proof (Z.rem_sign_mul x d Hd0) as Sg.
  remember (Z.quot x d) as q eqn:Heqq. remember (Z.rem x d) as r eqn:Heqr.
  clear Heqq Heqr.
  assert (2 ^ 63 = 9223372036854775808) as P by reflexivity.
  rewrite P in *. clear P.
  destruct (Z.abs_spec r) as [[? A1]|[? A1]],
           (Z.abs_spec d) as [[? A2]|[? A2]]; rewrite A1, A2 in B; nia.
Qed.

Lemma rem_in_range x d :
  Int64.in_range d → d ≠ 0 → Int64.in_range (Z.rem x d).
Proof.
  unfold Int64.in_range, Int64.min_signed, Int64.max_signed.
  intros Hd Hd0. pose proof (Z.rem_bound_abs x d Hd0) as B. lia.
Qed.

(** X11.  Division and modulo evaluate the divisor first and the dividend
    in the context the divisor left.  For a non-zero divisor, outside the
    one overflowing case (the least 64-bit value divided by -1), the two
    results recompose the dividend, [q * d + r = x], with a remainder
    smaller than the divisor in absolute value and of the sign of the
    dividend: the quotient is truncated towards zero. *)
Theorem quotient_and_remainder_recompose
    heap fuel cv w c cv' w' c' a b ctx d ctx1 x ctx2 :
  eval_node heap fuel b ctx = Ok (d, ctx1) →
  eval_node heap fuel a ctx1 = Ok (x, ctx2) →
  d ≠ 0 → Int64.in_range x → Int64.in_range d →
  ¬ (x = Int64.min_signed ∧ d = -1) →
  ∃ q r,
    eval_node heap fuel (node OpType.Div cv w a b c) ctx = Ok (q, ctx2)
    ∧ eval_node heap fuel (node OpType.Mod cv' w' a b c') ctx = Ok (r, ctx2)
    ∧ q * d + r = x
    ∧ Z.abs r < Z.abs d
    ∧ 0 <= r * x.
Proof.
  unfold eval_node. intros Hb Ha Hd0 Hx Hd Hov.
  exists (Z.quot x d), (Z.rem x d). simpl. unfold eval_divmod.
  rewrite Hb. simpl. rewrite !decide_False by done. rewrite Ha. simpl.
  rewrite !decide_False by done.
  rewrite (wrap_id (Z.quot x d)) by by apply quot_in_range.
  rewrite (wrap_id (Z.rem x d)) by by apply rem_in_range.
  split; [done|]. split; [done|].
  pose proof (Z.quot_rem' x d).
  split; [lia|]. split; [by apply Z.rem_bound_abs|by apply Z.rem_sign_mul].
Qed.

Lemma quotient_and_remainder_recompose_witness :
  ∃ q r,
    eval_node Demo.heap 3
      (make_binary OpType.Div (Expr_const (-7)) (Demo.ref Demo.b)) ∅
    = Ok (q, {[Demo.b := 2]})
    ∧ eval_node Demo.heap 3
        (make_binary OpType.Mod (Expr_const (-7)) (Demo.ref Demo.b)) ∅
      = Ok (r, {[Demo.b := 2]})
    ∧ q * 2 + r = -7
    ∧ Z.abs r < Z.abs 2
    ∧ 0 <= r * -7.
Proof.
  apply (quotient_and_remainder_recompose Demo.heap 3 0 None null 0 None null
           (Expr_const (-7)) (Demo.ref Demo.b) ∅ 2 {[Demo.b := 2]} (-7)
           {[Demo.b := 2]}).
  - vm_compute. reflexivity.
  - vm_compute. reflexivity.
  - lia.
  - unfold Int64.in_range, Int64.min_signed, Int64.max_signed. lia.
  - unfold Int64.in_range, Int64.min_signed, Int64.max_signed. lia.
  - intros [? ?]. lia.
Defined.

(** * Successive calls *)

Lemma foldM_ext {A B} (f g : B → A → outcome B) l acc :
  (∀ b a, a ∈ l → f b a = g b a) → foldM f l acc = foldM g l acc.
Proof.
  revert acc. induction l as [|x l IH]; intros acc H; [done|]. simpl.
  rewrite (H acc x) by left. destruct (g acc x) as [b|e]; [|done]. simpl.
  apply IH. intros b' a Ha. apply H. by right.
Qed.

Lemma deref_frame l heap heap' p :
  committed_frame l heap heap' →
  deref heap' p
  = let* W := deref heap p in
    Ok (set_committed (default 0 (committed_value <$> heap' !! p)) W).
Proof.
  intros Hfr. specialize (Hfr p). unfold deref.
  destruct (heap !! p) as [W|]; [|by rewrite Hfr].
  destruct Hfr as (v & -> & _). done.
Qed.

Lemma gather_with_ext enter1 enter2 n :
  (∀ p Y, enter1 p Y = enter2 p Y) →
  ∀ X, gather_with enter1 n X = gather_with enter2 n X.
Proof.
  intros Henter. induction n as [|op cv w a IHa b IHb c IHc]; intros X;
    [done|].
  simpl. rewrite IHa.
  assert ((let* wires :=
             (if is_null a then Ok X else gather_with enter2 a X) in
           let* wires :=
             (if is_null b then Ok wires else gather_with enter1 b wires) in
           if is_null c then Ok wires else gather_with enter1 c wires)
          = (let* wires :=
               (if is_null a then Ok X else gather_with enter2 a X) in
             let* wires :=
               (if is_null b then Ok wires else gather_with enter2 b wires) in
             if is_null c then Ok wires else gather_with enter2 c wires))
    as ->.
  { destruct (if is_null a then Ok X else gather_with enter2 a X)
      as [X1|]; [|done]. simpl. rewrite IHb.
    destruct (if is_null b then Ok X1 else gather_with enter2 b X1)
      as [X2|]; [|done]. simpl. by rewrite IHc. }
  case_decide; [|done]. destruct w as [p|]; [|done].
  case_decide; [done|]. apply Henter.
Qed.

Lemma gather_enter_frame l heap heap' fuel p X :
  committed_frame l heap heap' →
  gather_enter heap' fuel p X = gather_enter heap fuel p X.
Proof.
  intros Hfr. revert p X. induction fuel as [|fuel IH]; intros p X; [done|].
  simpl. rewrite (deref_frame l heap heap' p Hfr).
  destruct (deref heap p) as [W|]; [|done]. simpl.
  rewrite (gather_with_ext _ _ (comb_expr W) IH).
  destruct (gather_with (gather_enter heap fuel) (comb_expr W) X)
    as [X1|]; [|done]. simpl.
  apply gather_with_ext, IH.
Qed.

Lemma gather_snapshot_frame l heap heap' fuel snapshot X :
  committed_frame l heap heap' →
  gather_snapshot heap' fuel snapshot X = gather_snapshot heap fuel snapshot X.
Proof.
  intros Hfr. unfold gather_snapshot. apply foldM_ext. intros Y p _.
  rewrite (deref_frame l heap heap' p Hfr).
  destruct (deref heap p) as [W|]; [|done]. simpl. unfold gather_from_expr.
  rewrite (gather_with_ext _ _ (comb_expr W)
             (λ q Z, gather_enter_frame l heap heap' fuel q Z Hfr)).
  destruct (gather_with (gather_enter heap fuel) (comb_expr W) Y)
    as [X1|]; [|done]. simpl.
  apply gather_with_ext. intros q Z. by apply (gather_enter_frame l).
Qed.

Lemma closure_from_targets_frame l U heap heap' fuel targets :
  committed_frame l heap heap' →
  closure_from_targets U heap' fuel targets
  = closure_from_targets U heap fuel targets.
Proof.
  intros Hfr. unfold closure_from_targets, closure_set.
  generalize (insert_targets targets) as X. generalize 0%nat as prev.
  generalize fuel at 2 4 as iters.
  induction iters as [|iters IH]; intros prev X; simpl; [done|].
  case_decide; [|done].
  rewrite (gather_snapshot_frame l heap heap' fuel _ _ Hfr).
  destruct (gather_snapshot heap fuel (set_iter U X) X) as [X1|]; [|done].
  simpl. apply IH.
Qed.

Lemma wire_names_frame l heap heap' l' :
  committed_frame l heap heap' → wire_names heap' l' = wire_names heap l'.
Proof.
  intros H. unfold wire_names. apply list_omap_ext.
  apply Forall2_same_length_lookup. split; [done|].
  intros i p q Hp Hq. assert (p = q) as <- by congruence.
  specialize (H p). destruct (heap !! p) as [W|]; [|by rewrite H].
  destruct H as (v & -> & _). done.
Qed.

Lemma run_cycles_add U fuel l n m st :
  run_cycles U fuel l (n + m) st
  = let* st' := run_cycles U fuel l n st in run_cycles U fuel l m st'.
Proof.
  revert st. induction n as [|n IH]; intros st; [done|].
  cbn [run_cycles Nat.add].
  destruct (cycle U fuel l st) as [st1|]; [|done]. cbn [bind]. apply IH.
Qed.

(** Recording into a history that already holds the sequences [A] before
    those of [hB]. *)
Lemma record_values_append (A : string → list Z) heap fuel l
    ctx hB ctx' hB' hC :
  record_values heap fuel l (ctx, hB) = Ok (ctx', hB') →
  sorted_keys hB → sorted_keys hC →
  (∀ k, default [] (find k hC) = A k ++ default [] (find k hB)) →
  ∃ hC',
    record_values heap fuel l (ctx, hC) = Ok (ctx', hC')
    ∧ sorted_keys hB' ∧ sorted_keys hC'
    ∧ ∀ k, default [] (find k hC') = A k ++ default [] (find k hB').
Proof.
  revert ctx hB hC. induction l as [|p l IH]; intros ctx hB hC H HsB HsC HR;
    unfold record_values in H |- *; simpl in H |- *.
  { injection H as <- <-. by exists hC. }
  apply bind_Ok in H as ([ctx1 h1] & Hp & H).
  apply bind_Ok in Hp as ([v ctx2] & Hv & Hp).
  apply bind_Ok in Hp as (W & HW & [= <- <-]).
  rewrite Hv. simpl. rewrite HW. simpl.
  apply (IH _ _ (subscript (λ h, h ++ [v]) (name W) hC)) in H;
    [done|by apply sorted_subscript|by apply sorted_subscript|].
  intros k. rewrite !find_subscript by done.
  case_decide; [subst k; simpl; by rewrite HR, app_assoc|apply HR].
Qed.

Lemma run_cycles_append (A : string → list Z) U fuel l n
    heap hB heap' hB' hC :
  run_cycles U fuel l n (heap, hB) = Ok (heap', hB') →
  sorted_keys hB → sorted_keys hC →
  (∀ k, default [] (find k hC) = A k ++ default [] (find k hB)) →
  ∃ hC',
    run_cycles U fuel l n (heap, hC) = Ok (heap', hC')
    ∧ ∀ k, default [] (find k hC') = A k ++ default [] (find k hB').
Proof.
  revert heap hB hC. induction n as [|n IH]; intros heap hB hC H HsB HsC HR;
    cbn [run_cycles] in H |- *.
  { injection H as <- <-. by exists hC. }
  apply bind_Ok in H as ([heap1 h1] & Hc & H).
  unfold cycle in Hc |- *.
  apply bind_Ok in Hc as ([ctx1 h1'] & Hrec & Hc).
  apply bind_Ok in Hc as ([ctx2 nv] & Hnext & [= <- <-]).
  destruct (record_values_append A _ _ _ _ _ _ _ hC Hrec HsB HsC HR)
    as (hC1 & -> & HsB1 & HsC1 & HR1).
  simpl. rewrite Hnext. simpl.
  by apply (IH _ _ hC1) in H.
Qed.

(** X12.  Without restoring, a run can be continued.  [n] cycles and then
    [m] more from the state the first call left give the state that
    [n + m] cycles give at once, and the history of the single call is, key
    by key, the history of the first call followed by that of the second. *)
Theorem simulate_continues_where_it_stopped
    U heap fuel targets n m h1 heap1 h2 heap2 :
  0 <= n → 0 <= m →
  simulate U heap fuel targets n false = Ok (h1, heap1) →
  simulate U heap1 fuel targets m false = Ok (h2, heap2) →
  ∃ h,
    simulate U heap fuel targets (n + m) false = Ok (h, heap2)
    ∧ ∀ k, find k h = match find k h1, find k h2 with
                      | Some xs, Some ys => Some (xs ++ ys)
                      | _, _ => None
                      end.
Proof.
  intros Hn Hm H1 H2.
  unfold simulate in H1. apply bind_Ok in H1 as (l & Hcl & H1).
  unfold simulate_wires in H1. cbn [bind] in H1.
  apply bind_Ok in H1 as (h0 & Hinit & H1).
  apply bind_Ok in H1 as ([heap1' h1'] & Hrun1 & [= -> ->]).
  pose proof (run_cycles_frame _ _ _ _ _ _ _ _ Hrun1) as Hfr.
  unfold simulate in H2.
  rewrite (closure_from_targets_frame l U heap heap1 fuel targets Hfr),
    Hcl in H2. cbn [bind] in H2.
  unfold simulate_wires in H2. cbn [bind] in H2.
  apply bind_Ok in H2 as (h0' & Hinit' & H2).
  apply bind_Ok in H2 as ([heap2' h2'] & Hrun2 & [= -> ->]).
  destruct (init_history_spec _ _ _ Hinit) as (Hs0 & _ & Hin & Hout).
  destruct (init_history_spec _ _ _ Hinit') as (Hs0' & _ & Hin' & Hout').
  rewrite (wire_names_frame l heap heap1 l Hfr) in Hin', Hout'.
  assert (∀ k, k ∈ wire_names heap l → is_Some (find k h0)) as Hk0.
  { intros k Hk. rewrite (Hin k Hk). eauto. }
  destruct (run_cycles_lengths _ _ _ _ _ _ _ _ Hrun1 Hs0 Hk0)
    as (Hs1 & _ & K1).
  destruct (run_cycles_lengths _ _ _ _ _ _ _ _ Hrun2 Hs0') as (Hs2 & _ & K2).
  { intros k Hk. rewrite (wire_names_frame l heap heap1 l Hfr) in Hk.
    rewrite (Hin' k Hk). eauto. }
  destruct (run_cycles_append (λ k, default [] (find k h1)) _ _ _ _ _ _ _ _
              h1 Hrun2 Hs0' Hs1) as (h & Hrun & HR).
  { intros k. destruct (decide (k ∈ wire_names heap l)) as [Hk|Hk].
    - by rewrite (Hin' k Hk), app_nil_r.
    - by rewrite (Hout' k Hk), app_nil_r. }
  assert (run_cycles U fuel l (Z.to_nat (n + m)) (heap, h0)
          = Ok (heap2, h)) as Hrun12.
  { rewrite Z2Nat.inj_add by done. rewrite run_cycles_add, Hrun1. done. }
  destruct (run_cycles_lengths _ _ _ _ _ _ _ _ Hrun12 Hs0 Hk0)
    as (_ & _ & K12).
  exists h. split.
  { unfold simulate. rewrite Hcl. cbn [bind]. unfold simulate_wires.
    cbn [bind]. rewrite Hinit. cbn [bind]. by rewrite Hrun12. }
  intros k. specialize (HR k). specialize (K1 k). specialize (K2 k).
  specialize (K12 k).
  assert (is_Some (find k h0') ↔ is_Some (find k h0)) as K0.
  { destruct (decide (k ∈ wire_names heap l)) as [Hk|Hk].
    - rewrite (Hin k Hk), (Hin' k Hk). done.
    - rewrite (Hout k Hk), (Hout' k Hk). done. }
  destruct (find k h) as [xs|], (find k h1) as [ys|], (find k h2) as [zs|];
    simpl in HR; try (by rewrite HR); try done;
    exfalso; unfold is_Some in *; naive_solver.
Qed.

Lemma simulate_continues_where_it_stopped_witness :
  ∃ h,
    simulate std_iteration Demo.heap 4 [Some Demo.acc] (2 + 1) false
    = Ok (h, alter (set_committed 9) Demo.acc Demo.heap)
    ∧ ∀ k, find k h
           = match find k [("a", [1; 1]); ("acc", [0; 3]); ("b", [2; 2]);
                           ("sum", [3; 3])],
                   find k [("a", [1]); ("acc", [6]); ("b", [2]);
                           ("sum", [3])] with
             | Some xs, Some ys => Some (xs ++ ys)
             | _, _ => None
             end.
Proof.
  apply (simulate_continues_where_it_stopped std_iteration Demo.heap 4
           [Some Demo.acc] 2 1 _
           (alter (set_committed 6) Demo.acc Demo.heap)).
  - lia.
  - lia.
  - vm_compute. reflexivity.
  - vm_compute. reflexivity.
Defined.

(** * Wires outside the closure *)

Lemma eval_node_with_agree {S} (wv1 wv2 : Wire_ptr → S → outcome (Z * S)) n :
  (∀ s, wv1 None s = wv2 None s) →
  (∀ p s, p ∈ refs n → wv1 (Some p) s = wv2 (Some p) s) →
  ∀ s, eval_node_with wv1 n s = eval_node_with wv2 n s.
Proof.
  intros Hnone.
  induction n as [|op cv w a IHa b IHb c IHc]; intros Hw s; [done|].
  assert (op ≠ OpType.WireRef →
          ∀ s, eval_node_with wv1 a s = eval_node_with wv2 a s) as Ha.
  { intros Hop. apply IHa. intros p s' Hp. apply Hw. simpl.
    rewrite decide_False by done. set_solver. }
  assert (op ≠ OpType.WireRef →
          ∀ s, eval_node_with wv1 b s = eval_node_with wv2 b s) as Hb.
  { intros Hop. apply IHb. intros p s' Hp. apply Hw. simpl.
    rewrite decide_False by done. set_solver. }
  assert (op ≠ OpType.WireRef →
          ∀ s, eval_node_with wv1 c s = eval_node_with wv2 c s) as Hc.
  { intros Hop. apply IHc. intros p s' Hp. apply Hw. simpl.
    rewrite decide_False by done. set_solver. }
  destruct op; simpl;
    try (specialize (Ha ltac:(done)); specialize (Hb ltac:(done));
         specialize (Hc ltac:(done)));
    try done;
    unfold eval_unary, eval_binary, eval_divmod, eval_logand, eval_logor,
      eval_select;
    try (repeat first
           [ done
           | rewrite Ha
           | rewrite Hb
           | rewrite Hc
           | case_decide
           | match goal with
             | |- context [bind (eval_node_with wv2 ?x ?s) _] =>
                 destruct (eval_node_with wv2 x s) as [[? ?]|]; simpl
             end ]).
  destruct w as [p|]; [|apply Hnone]. apply Hw. simpl. set_solver.
Qed.

Lemma wire_value_agree heap heap2 (R : gset positive) fuel p ctx :
  closed heap R → (∀ q, q ∈ R → heap2 !! q = heap !! q) → p ∈ R →
  wire_value heap2 fuel (Some p) ctx = wire_value heap fuel (Some p) ctx.
Proof.
  intros Hcl Hag. revert p ctx.
  induction fuel as [|fuel IH]; intros p ctx Hp; simpl; unfold deref;
    rewrite (Hag p Hp); [done|].
  destruct (heap !! p) as [W|] eqn:HW; [|done]. simpl.
  destruct (is_null (comb_expr W)); [done|]. destruct (ctx !! p); [done|].
  rewrite (eval_node_with_agree (wire_value heap2 fuel)
             (wire_value heap fuel) (comb_expr W));
    [done|by destruct fuel|].
  intros q s Hq. apply IH. apply (Hcl p W Hp HW). unfold wire_refs.
  set_solver.
Qed.

Lemma eval_node_agree heap heap2 (R : gset positive) fuel n ctx :
  closed heap R → (∀ q, q ∈ R → heap2 !! q = heap !! q) → refs n ⊆ R →
  eval_node heap2 fuel n ctx = eval_node heap fuel n ctx.
Proof.
  intros Hcl Hag Hn. unfold eval_node.
  apply eval_node_with_agree; [by destruct fuel|]. intros q s Hq.
  apply (wire_value_agree heap heap2 R); [done|done|set_solver].
Qed.

Lemma cycle_agree U heap heap2 (R : gset positive) fuel l h :
  closed heap R → (∀ q, q ∈ R → heap2 !! q = heap !! q) →
  (∀ p, p ∈ l → p ∈ R) →
  cycle U fuel l (heap2, h)
  = let* '(heap', h') := cycle U fuel l (heap, h) in
    let* '(_, nv) :=
      (let* '(ctx, _) := record_values heap fuel l (∅, h) in
       eval_next_values heap fuel l (ctx, ∅)) in
    Ok (commit_all (map_iter U nv) heap2, h').
Proof.
  intros Hcl Hag Hl. unfold cycle.
  assert (record_values heap2 fuel l (∅, h) = record_values heap fuel l (∅, h))
    as ->.
  { unfold record_values. apply foldM_ext. intros [ctx h'] p Hp%Hl.
    rewrite (wire_value_agree heap heap2 R) by done.
    unfold deref. by rewrite (Hag p Hp). }
  destruct (record_values heap fuel l (∅, h)) as [[ctx h1]|]; [|done].
  cbn [bind].
  assert (eval_next_values heap2 fuel l (ctx, ∅)
          = eval_next_values heap fuel l (ctx, ∅)) as ->.
  { unfold eval_next_values. apply foldM_ext. intros [ctx' nv] p Hp%Hl.
    unfold deref. rewrite (Hag p Hp).
    destruct (heap !! p) as [W|] eqn:HW; [|done]. simpl.
    destruct (is_null (next_expr W)); [done|].
    rewrite (eval_node_agree heap heap2 R); [done|done|done|].
    pose proof (Hcl p W Hp HW). unfold wire_refs in *. set_solver. }
  by destruct (eval_next_values heap fuel l (ctx, ∅)) as [[ctx2 nv]|].
Qed.

Lemma closed_frame l heap heap' (R : gset positive) :
  committed_frame l heap heap' → closed heap R → closed heap' R.
Proof.
  intros Hfr Hcl p W' Hp HW'. specialize (Hfr p).
  destruct (heap !! p) as [W|] eqn:HW; [|congruence].
  destruct Hfr as (v & Hv & _). rewrite Hv in HW'. injection HW' as <-.
  apply (Hcl p W Hp HW).
Qed.

Lemma run_cycles_agree U heap heap2 (R : gset positive) fuel l n h heap' h' :
  closed heap R → (∀ q, q ∈ R → heap2 !! q = heap !! q) →
  (∀ p, p ∈ l → p ∈ R) →
  run_cycles U fuel l n (heap, h) = Ok (heap', h') →
  ∃ heap2',
    run_cycles U fuel l n (heap2, h) = Ok (heap2', h')
    ∧ ∀ q, q ∈ R → heap2' !! q = heap' !! q.
Proof.
  revert heap heap2 h. induction n as [|n IH];
    intros heap heap2 h Hcl Hag Hl H; cbn [run_cycles] in H |- *.
  { injection H as <- <-. by exists heap2. }
  apply bind_Ok in H as ([heap1 h1] & Hc & H).
  rewrite (cycle_agree U heap heap2 R fuel l h Hcl Hag Hl), Hc. cbn [bind].
  pose proof (sync_step_frame _ _ _ (cycle_sync_step _ _ _ _ _ _ _ Hc))
    as Hfr.
  unfold cycle in Hc.
  destruct (record_values heap fuel l (∅, h)) as [[ctx hr]|]; [|done].
  cbn [bind] in Hc |- *.
  destruct (eval_next_values heap fuel l (ctx, ∅)) as [[ctx2 nv]|]; [|done].
  cbn [bind] in Hc |- *. injection Hc as <- <-.
  apply (IH _ (commit_all (map_iter U nv) heap2)) in H; [done| | |done].
  - by apply (closed_frame l heap).
  - intros q Hq. rewrite !commit_all_lookup, (Hag q Hq). done.
Qed.

Lemma gather_with_mono heap fuel n X X' :
  gather_with (gather_enter heap fuel) n X = Ok X' → X ⊆ X'.
Proof.
  intros H.
  by destruct (gather_with_post heap (gather_enter heap fuel) n
                 (gather_enter_post heap fuel) X X' H) as (? & _).
Qed.

Lemma gather_with_agree heap enter2 fuel (R : gset positive) n :
  (∀ p Y Y', gather_enter heap fuel p ({[p]} ∪ Y) = Ok Y' → Y' ⊆ R →
     enter2 p ({[p]} ∪ Y) = Ok Y') →
  ∀ X X', gather_with (gather_enter heap fuel) n X = Ok X' → X' ⊆ R →
    gather_with enter2 n X = Ok X'.
Proof.
  intros Henter.
  induction n as [|op cv w a IHa b IHb c IHc]; intros X X' H HR; [done|].
  assert ((let* wires :=
             (if is_null a then Ok X
              else gather_with (gather_enter heap fuel) a X) in
           let* wires :=
             (if is_null b then Ok wires
              else gather_with (gather_enter heap fuel) b wires) in
           if is_null c then Ok wires
           else gather_with (gather_enter heap fuel) c wires) = Ok X' →
          (let* wires :=
             (if is_null a then Ok X else gather_with enter2 a X) in
           let* wires :=
             (if is_null b then Ok wires else gather_with enter2 b wires) in
           if is_null c then Ok wires else gather_with enter2 c wires)
          = Ok X') as Hchildren.
  { intros Hch. apply bind_Ok in Hch as (X1 & H1 & Hch).
    apply bind_Ok in Hch as (X2 & H2 & H3).
    rewrite gather_null_guard in H1, H2, H3. rewrite !gather_null_guard.
    pose proof (gather_with_mono _ _ _ _ _ H2).
    pose proof (gather_with_mono _ _ _ _ _ H3).
    rewrite (IHa X X1 H1) by set_solver. cbn [bind].
    rewrite gather_null_guard.
    rewrite (IHb X1 X2 H2) by set_solver. cbn [bind].
    rewrite gather_null_guard. by apply IHc. }
  simpl in H |- *.
  destruct (decide (op = OpType.WireRef)) as [->|Hop]; [|by apply Hchildren].
  destruct w as [p|]; [|by apply Hchildren].
  destruct (decide (p ∈ X)); [done|]. by apply Henter.
Qed.

Lemma gather_enter_agree heap heap2 (R : gset positive) fuel p Y Y' :
  (∀ q, q ∈ R → heap2 !! q = heap !! q) →
  gather_enter heap fuel p ({[p]} ∪ Y) = Ok Y' → Y' ⊆ R →
  gather_enter heap2 fuel p ({[p]} ∪ Y) = Ok Y'.
Proof.
  intros Hag. revert p Y Y'.
  induction fuel as [|fuel IH]; intros p Y Y' H HR; [done|].
  simpl in H |- *.
  apply bind_Ok in H as (W & HW & H). apply bind_Ok in H as (X1 & H1 & H2).
  pose proof (gather_with_mono _ _ _ _ _ H1).
  pose proof (gather_with_mono _ _ _ _ _ H2).
  unfold deref in HW |- *. rewrite (Hag p) by set_solver.
  destruct (heap !! p) as [W'|]; [|done]. injection HW as ->. cbn [bind].
  rewrite (gather_with_agree heap (gather_enter heap2 fuel) fuel R
             (comb_expr W) IH _ _ H1) by set_solver.
  cbn [bind].
  by apply (gather_with_agree heap (gather_enter heap2 fuel) fuel R).
Qed.

Lemma gather_snapshot_agree heap heap2 (R : gset positive) fuel l X X' :
  (∀ q, q ∈ R → heap2 !! q = heap !! q) → (∀ p, p ∈ l → p ∈ R) →
  gather_snapshot heap fuel l X = Ok X' → X' ⊆ R →
  gather_snapshot heap2 fuel l X = Ok X'.
Proof.
  intros Hag. revert X. induction l as [|p l IH]; intros X Hl H HR; [done|].
  unfold gather_snapshot in H |- *. simpl in H |- *.
  apply bind_Ok in H as (X2 & Hp & H).
  apply bind_Ok in Hp as (W & HW & Hp).
  apply bind_Ok in Hp as (X1 & H1 & H2).
  unfold gather_from_expr in H1, H2.
  pose proof (gather_with_mono _ _ _ _ _ H1).
  pose proof (gather_with_mono _ _ _ _ _ H2).
  destruct (gather_snapshot_post heap fuel l X2 X' H) as (? & _).
  unfold deref in HW |- *. rewrite (Hag p) by (apply Hl; left).
  destruct (heap !! p) as [W'|]; [|done]. injection HW as ->. cbn [bind].
  unfold gather_from_expr.
  rewrite (gather_with_agree heap (gather_enter heap2 fuel) fuel R
             (comb_expr W)
             (λ q Y Y', gather_enter_agree heap heap2 R fuel q Y Y' Hag)
             _ _ H1) by set_solver.
  cbn [bind].
  rewrite (gather_with_agree heap (gather_enter heap2 fuel) fuel R
             (next_expr W)
             (λ q Y Y', gather_enter_agree heap heap2 R fuel q Y Y' Hag)
             _ _ H2) by set_solver.
  cbn [bind]. apply IH; [|done|done]. intros q Hq. apply Hl. by right.
Qed.

Lemma closure_loop_agree U heap heap2 fuel iters prev X (R : gset positive) :
  (∀ q, q ∈ R → heap2 !! q = heap !! q) →
  closure_loop U heap fuel iters prev X = Ok R →
  closure_loop U heap2 fuel iters prev X = Ok R ∧ X ⊆ R.
Proof.
  intros Hag. revert prev X.
  induction iters as [|iters IH]; intros prev X H; simpl in H |- *;
    case_decide; try done; try (by injection H as ->).
  apply bind_Ok in H as (X1 & H1 & H).
  destruct (IH _ _ H) as (IH1 & IH2).
  destruct (gather_snapshot_post heap fuel _ X X1 H1) as (HX & _).
  rewrite (gather_snapshot_agree heap heap2 R fuel _ X X1 Hag); try done.
  - cbn [bind]. split; [done|set_solver].
  - intros p Hp%elem_of_set_iter. set_solver.
Qed.

(** X13.  The result depends on the wires of the dependency closure only.
    In a circuit that agrees with this one on the wires of the closure,
    [simulate] finds the same closure, returns the same history and leaves
    the closure in the same state; every other wire of that circuit is left
    as it was. *)
Theorem simulate_reads_only_the_closure
    U heap heap2 fuel targets cycles restore_state all_wires hist heap' :
  closure_from_targets U heap fuel targets = Ok all_wires →
  (∀ p, p ∈ all_wires → heap2 !! p = heap !! p) →
  simulate U heap fuel targets cycles restore_state = Ok (hist, heap') →
  closure_from_targets U heap2 fuel targets = Ok all_wires
  ∧ ∃ heap2',
      simulate U heap2 fuel targets cycles restore_state = Ok (hist, heap2')
      ∧ (∀ p, p ∈ all_wires → heap2' !! p = heap' !! p)
      ∧ (∀ p, p ∉ all_wires → heap2' !! p = heap2 !! p).
Proof.
  intros Hcl Hag H.
  unfold closure_from_targets in Hcl.
  apply bind_Ok in Hcl as (R & HR & [= <-]).
  assert (∀ q, q ∈ R → heap2 !! q = heap !! q) as HagR.
  { intros q Hq. apply Hag. by apply elem_of_set_iter. }
  destruct (closure_set_post _ _ _ _ _ HR) as (_ & Hclosed & _ & _).
  unfold closure_set in HR.
  destruct (closure_loop_agree U heap heap2 fuel fuel 0%nat _ R HagR HR)
    as (HR2 & _).
  assert (closure_from_targets U heap2 fuel targets = Ok (set_iter U R))
    as Hcl2.
  { unfold closure_from_targets, closure_set. by rewrite HR2. }
  split; [done|].
  unfold simulate in H |- *. rewrite Hcl2. cbn [bind].
  unfold closure_from_targets, closure_set in H. rewrite HR in H.
  cbn [bind] in H.
  set (l := set_iter U R) in *.
  assert (∀ p, p ∈ l → p ∈ R) as Hl.
  { intros p Hp. by apply elem_of_set_iter in Hp. }
  unfold simulate_wires in H |- *.
  apply bind_Ok in H as (saved & Hsaved & H).
  apply bind_Ok in H as (h0 & Hinit & H).
  apply bind_Ok in H as ([heapn h] & Hrun & [= <- <-]).
  assert (save_state heap2 l = save_state heap l) as Hsave.
  { unfold save_state. apply foldM_ext. intros b p Hp. unfold deref.
    by rewrite (Hag p Hp). }
  assert (init_history heap2 l = init_history heap l) as ->.
  { unfold init_history. apply foldM_ext. intros b p Hp. unfold deref.
    by rewrite (Hag p Hp). }
  rewrite Hsave, Hsaved, Hinit. cbn [bind].
  destruct (run_cycles_agree U heap heap2 R fuel l _ h0 heapn h Hclosed HagR
              Hl Hrun) as (heap2n & Hrun2 & Hagn).
  rewrite Hrun2. cbn [bind]. eexists. split; [done|].
  pose proof (run_cycles_frame _ _ _ _ _ _ _ _ Hrun2) as Hfr2.
  assert (∀ p, p ∉ l → heap2n !! p = heap2 !! p) as Hout.
  { intros p Hp. specialize (Hfr2 p).
    destruct (heap2 !! p) as [W|]; [|done].
    destruct Hfr2 as (v & -> & Hv). by rewrite (Hv Hp), set_committed_id. }
  destruct restore_state.
  - split.
    + intros p Hp. rewrite !commit_all_lookup, (Hagn p (Hl p Hp)). done.
    + intros p Hp. rewrite commit_all_lookup.
      destruct (save_state_acc heap l ∅ saved Hsaved p) as (_ & Hs).
      rewrite (Hs Hp), lookup_empty. by apply Hout.
  - split; [|done]. intros p Hp. by apply Hagn, Hl.
Qed.

Lemma simulate_reads_only_the_closure_witness :
  ∃ heap2',
    simulate std_iteration
      (<[Demo.maxab := mkWire "other" 7 null (Expr_const 8)]> Demo.heap)
      3 [Some Demo.acc] 2 false
    = Ok ([("a", [1; 1]); ("acc", [0; 3]); ("b", [2; 2]); ("sum", [3; 3])],
          heap2')
    ∧ (∀ p, p ∈ [Demo.sum; Demo.acc; Demo.b; Demo.a] →
         heap2' !! p = alter (set_committed 6) Demo.acc Demo.heap !! p)
    ∧ (∀ p, p ∉ [Demo.sum; Demo.acc; Demo.b; Demo.a] →
         heap2' !! p
         = (<[Demo.maxab := mkWire "other" 7 null (Expr_const 8)]> Demo.heap)
             !! p).
Proof.
  assert (closure_from_targets std_iteration Demo.heap 3 [Some Demo.acc]
          = Ok [Demo.sum; Demo.acc; Demo.b; Demo.a]) as Hcl
    by (vm_compute; reflexivity).
  assert (simulate std_iteration Demo.heap 3 [Some Demo.acc] 2 false
          = Ok ([("a", [1; 1]); ("acc", [0; 3]); ("b", [2; 2]);
                 ("sum", [3; 3])],
                alter (set_committed 6) Demo.acc Demo.heap)) as H
    by (vm_compute; reflexivity).
  refine (proj2 (simulate_reads_only_the_closure std_iteration Demo.heap
                   (<[Demo.maxab := mkWire "other" 7 null (Expr_const 8)]>
                      Demo.heap)
                   _ _ _ _ _ _ _ Hcl _ H)).
  intros p Hp. apply lookup_insert_ne. set_unfold in Hp.
  unfold Demo.maxab, Demo.sum, Demo.acc, Demo.b, Demo.a in *. lia.
Defined.

(** * What a run does not observe *)

(** X14.  [restore_state] decides the state the call leaves and nothing
    else: the call with [restore_state = true] returns a history exactly
    when the call with [false] returns it, and it then leaves the wires as
    they were. *)
Theorem restore_state_does_not_change_the_history
    U heap fuel targets cycles hist :
  (∃ heap', simulate U heap fuel targets cycles false = Ok (hist, heap'))
  ↔ simulate U heap fuel targets cycles true = Ok (hist, heap).
Proof.
  unfold simulate.
  destruct (closure_from_targets U heap fuel targets) as [l|e] eqn:Hcl;
    cbn [bind]; [|split; [by intros [? ?]|done]].
  unfold simulate_wires. cbn [bind]. split.
  - intros (heap' & H).
    apply bind_Ok in H as (h0 & Hinit & H).
    apply bind_Ok in H as ([heapn h] & Hrun & [= -> ->]).
    destruct (init_history_spec _ _ _ Hinit) as (_ & Hex & _).
    destruct (save_state_total heap l ∅) as [saved Hsaved].
    { intros p Hp. by apply (proj1 (Forall_forall _ _) Hex). }
    fold (save_state heap l) in Hsaved. rewrite Hsaved. cbn [bind].
    rewrite Hinit. cbn [bind]. rewrite Hrun. cbn [bind].
    by rewrite (restore_saved U heap l saved heap' Hsaved
                  (run_cycles_frame _ _ _ _ _ _ _ _ Hrun)).
  - intros H.
    apply bind_Ok in H as (saved & _ & H).
    apply bind_Ok in H as (h0 & Hinit & H).
    apply bind_Ok in H as ([heapn h] & Hrun & [= -> _]).
    exists heapn. rewrite Hinit. cbn [bind]. by rewrite Hrun.
Qed.

Lemma wire_value_frame l heap heap2 fuel w ctx :
  committed_frame l heap heap2 →
  (∀ p W, p ∈ l → heap !! p = Some W → is_null (comb_expr W) = false) →
  wire_value heap2 fuel w ctx = wire_value heap fuel w ctx.
Proof.
  intros Hfr Hl. revert w ctx.
  assert (∀ fuel,
    (∀ w ctx, wire_value heap2 fuel w ctx = wire_value heap fuel w ctx) →
    ∀ n ctx,
      eval_node_with (wire_value heap2 fuel) n ctx
      = eval_node_with (wire_value heap fuel) n ctx) as Hev.
  { intros f IH n ctx. apply eval_node_with_agree; intros; apply IH. }
  induction fuel as [|fuel IH]; intros [p|] ctx; try done; simpl;
    unfold deref; pose proof (Hfr p) as Hp;
    (destruct (heap !! p) as [W|] eqn:HW; [|by rewrite Hp]);
    destruct Hp as (v & -> & Hv); simpl;
    (destruct (is_null (comb_expr W)) eqn:Hnull;
      [destruct (decide (p ∈ l)) as [Hin|Hin];
        [by rewrite (Hl p W Hin HW) in Hnull|by rewrite (Hv Hin)]|]);
    [done|].
  destruct (ctx !! p); [done|]. by rewrite (Hev fuel IH).
Qed.

Lemma cycle_frame l U heap heap2 fuel l' h :
  committed_frame l heap heap2 →
  (∀ p W, p ∈ l → heap !! p = Some W → is_null (comb_expr W) = false) →
  cycle U fuel l' (heap2, h)
  = let* '(heap', h') := cycle U fuel l' (heap, h) in
    let* '(_, nv) :=
      (let* '(ctx, _) := record_values heap fuel l' (∅, h) in
       eval_next_values heap fuel l' (ctx, ∅)) in
    Ok (commit_all (map_iter U nv) heap2, h').
Proof.
  intros Hfr Hl. unfold cycle.
  assert (record_values heap2 fuel l' (∅, h)
          = record_values heap fuel l' (∅, h)) as ->.
  { unfold record_values. apply foldM_ext. intros [ctx h'] p _.
    rewrite (wire_value_frame l heap heap2) by done.
    destruct (wire_value heap fuel (Some p) ctx) as [[v ctx1]|]; [|done].
    cbn [bind]. rewrite (deref_frame l heap heap2 p Hfr).
    by destruct (deref heap p). }
  destruct (record_values heap fuel l' (∅, h)) as [[ctx h1]|]; [|done].
  cbn [bind].
  assert (eval_next_values heap2 fuel l' (ctx, ∅)
          = eval_next_values heap fuel l' (ctx, ∅)) as ->.
  { unfold eval_next_values. apply foldM_ext. intros [ctx' nv] p _.
    rewrite (deref_frame l heap heap2 p Hfr).
    destruct (deref heap p) as [W|]; [|done]. simpl.
    destruct (is_null (next_expr W)); [done|]. unfold eval_node.
    rewrite (eval_node_with_agree (wire_value heap2 fuel)
               (wire_value heap fuel) (next_expr W)); [done| |];
      intros; by apply (wire_value_frame l). }
  by destruct (eval_next_values heap fuel l' (ctx, ∅)) as [[ctx2 nv]|].
Qed.

Lemma run_cycles_unobserved l U heap heap2 fuel l' n h heap' h' :
  committed_frame l heap heap2 →
  (∀ p W, p ∈ l → heap !! p = Some W → is_null (comb_expr W) = false) →
  run_cycles U fuel l' n (heap, h) = Ok (heap', h') →
  ∃ heap2',
    run_cycles U fuel l' n (heap2, h) = Ok (heap2', h')
    ∧ committed_frame l heap' heap2'.
Proof.
  revert heap heap2 h. induction n as [|n IH];
    intros heap heap2 h Hfr Hl H; cbn [run_cycles] in H |- *.
  { injection H as <- <-. by exists heap2. }
  apply bind_Ok in H as ([heap1 h1] & Hc & H).
  rewrite (cycle_frame l U heap heap2 fuel l' h Hfr Hl), Hc. cbn [bind].
  unfold cycle in Hc.
  destruct (record_values heap fuel l' (∅, h)) as [[ctx hr]|]; [|done].
  cbn [bind] in Hc |- *.
  destruct (eval_next_values heap fuel l' (ctx, ∅)) as [[ctx2 nv]|]; [|done].
  cbn [bind] in Hc |- *. injection Hc as <- <-.
  apply (IH _ (commit_all (map_iter U nv) heap2)) in H; [done| |].
  - intros p. rewrite !commit_all_lookup. specialize (Hfr p).
    destruct (heap !! p) as [W|]; [|by rewrite Hfr; destruct (nv !! p)].
    destruct Hfr as (v & -> & Hv).
    destruct (nv !! p) as [v'|]; simpl.
    + exists v'. by rewrite set_committed_twice.
    + exists v. done.
  - intros p W1 Hp. rewrite commit_all_lookup. intros HW1.
    destruct (heap !! p) as [W|] eqn:HW; [|by destruct (nv !! p)].
    pose proof (Hl p W Hp HW) as Hnull.
    destruct (nv !! p); simpl in HW1; by injection HW1 as <-.
Qed.

(** X15.  The committed value of a wire that has a combinational
    definition is never observed.  Changing the committed values of such
    wires changes neither whether [simulate] returns nor the history it
    returns, and the two final states differ at most by the committed
    values of those wires again. *)
Theorem committed_value_of_combinational_wire_is_not_observed
    l U heap heap2 fuel targets cycles restore_state hist heap' :
  committed_frame l heap heap2 →
  (∀ p W, p ∈ l → heap !! p = Some W → is_null (comb_expr W) = false) →
  simulate U heap fuel targets cycles restore_state = Ok (hist, heap') →
  ∃ heap2',
    simulate U heap2 fuel targets cycles restore_state = Ok (hist, heap2')
    ∧ committed_frame l heap' heap2'.
Proof.
  intros Hfr Hl H. unfold simulate in H |- *.
  rewrite (closure_from_targets_frame l U heap heap2 fuel targets Hfr).
  apply bind_Ok in H as (all_wires & Hcl & H). rewrite Hcl. cbn [bind].
  unfold simulate_wires in H |- *.
  apply bind_Ok in H as (saved & Hsaved & H).
  apply bind_Ok in H as (h0 & Hinit & H).
  apply bind_Ok in H as ([heapn h] & Hrun & [= <- <-]).
  assert (init_history heap2 all_wires = Ok h0) as Hinit2.
  { rewrite <- Hinit. unfold init_history. apply foldM_ext. intros b p _.
    rewrite (deref_frame l heap heap2 p Hfr). by destruct (deref heap p). }
  destruct (init_history_spec _ _ _ Hinit2) as (_ & Hex & _).
  destruct (save_state_total heap2 all_wires ∅) as [saved2 Hsaved2].
  { intros p Hp. by apply (proj1 (Forall_forall _ _) Hex). }
  fold (save_state heap2 all_wires) in Hsaved2.
  destruct (run_cycles_unobserved l U heap heap2 fuel all_wires _ h0 heapn h
              Hfr Hl Hrun) as (heap2n & Hrun2 & Hfrn).
  exists (if restore_state then heap2 else heap2n).
  destruct restore_state.
  - rewrite Hsaved2. cbn [bind]. rewrite Hinit2. cbn [bind].
    rewrite Hrun2. cbn [bind].
    rewrite (restore_saved U heap2 all_wires saved2 heap2n Hsaved2
               (run_cycles_frame _ _ _ _ _ _ _ _ Hrun2)).
    rewrite (restore_saved U heap all_wires saved heapn Hsaved
               (run_cycles_frame _ _ _ _ _ _ _ _ Hrun)).
    done.
  - cbn [bind]. rewrite Hinit2. cbn [bind]. rewrite Hrun2. done.
Qed.

Lemma committed_value_of_combinational_wire_is_not_observed_witness :
  ∃ heap2',
    simulate std_iteration (alter (set_committed 41) Demo.sum Demo.heap) 3
      [Some Demo.acc] 2 false
    = Ok ([("a", [1; 1]); ("acc", [0; 3]); ("b", [2; 2]); ("sum", [3; 3])],
          heap2')
    ∧ committed_frame [Demo.sum]
        (alter (set_committed 6) Demo.acc Demo.heap) heap2'.
Proof.
  apply (committed_value_of_combinational_wire_is_not_observed [Demo.sum]
           std_iteration Demo.heap).
  - intros p. rewrite lookup_alter.
    destruct (decide (Demo.sum = p)) as [<-|Hne].
    + destruct (Demo.heap !! Demo.sum) as [W|]; [|done]. simpl.
      exists 41. split; [done|]. intros Hn. exfalso. apply Hn. by left.
    + destruct (Demo.heap !! p) as [W|]; [|done]. simpl.
      exists (committed_value W). by rewrite set_committed_id.
  - intros p W Hp HW. apply list_elem_of_singleton in Hp as ->.
    vm_compute in HW. by injection HW as <-.
  - vm_compute. reflexivity.
Defined.
